(** * fin_jarvis: the knowledge-graph builder of [utils/build_graph.py]

    A shallow embedding of [Neo4jGraphBuilder]: the record returned by the
    extraction step is a JSON value, the body of a store session is the
    sequence of Cypher statements it issues, the store is a list of labelled
    nodes with property maps and a list of relationships, and the batch loop
    threads the store, the two counters and the lines written to standard
    output, each of which the stream may refuse. *)

From Stdlib Require Import List String Ascii ZArith Bool Arith Lia.
From Stdlib Require Import DecimalString DecimalNat DecimalZ.
Import ListNotations.
Open Scope string_scope.
Open Scope list_scope.

(** ** Python values *)

(** What [json.loads] returns.  Numbers are the integral ones; a dict is
    the list of its items in insertion order (keys are unique in a parsed
    object; [lookup] reads the first binding of a key). *)
#[warnings="-register-all"]
Inductive json : Type :=
| JNull
| JBool (b : bool)
| JNum (n : Z)
| JStr (s : string)
| JList (l : list json)
| JDict (d : list (string * json)).

Inductive exn : Type :=
| AttributeError
| TypeError
| KeyError
| IndexError
| Neo4jError
| RateLimitError
| OtherError (msg : string).

Inductive result (A : Type) : Type :=
| Ok (a : A)
| Raise (e : exn).
Arguments Ok {A} a.
Arguments Raise {A} e.

Definition is_ok {A} (r : result A) : bool :=
  match r with Ok _ => true | Raise _ => false end.

Fixpoint lookup {A} (k : string) (d : list (string * A)) : option A :=
  match d with
  | [] => None
  | (k', v) :: d' => if String.eqb k k' then Some v else lookup k d'
  end.

(** [d[k] = v] on a dict: overwrite in place, or append a new item. *)
Fixpoint dict_set {A} (k : string) (v : A) (d : list (string * A)) : list (string * A) :=
  match d with
  | [] => [(k, v)]
  | (k', v') :: d' =>
      if String.eqb k k' then (k', v) :: d' else (k', v') :: dict_set k v d'
  end.

Definition dict_mem {A} (k : string) (d : list (string * A)) : bool :=
  match lookup k d with Some _ => true | None => false end.

Definition is_null (v : json) : bool :=
  match v with JNull => true | _ => false end.

(** Python truth value: [None], [False], [0], [""], [[]] and [{}] are false. *)
Definition truthy (v : json) : bool :=
  match v with
  | JNull => false
  | JBool b => b
  | JNum n => negb (Z.eqb n 0)
  | JStr s => negb (String.eqb s "")
  | JList l => match l with [] => false | _ => true end
  | JDict d => match d with [] => false | _ => true end
  end.

(** [v.get(k, default)]: only a dict has the method. *)
Definition py_get (v : json) (k : string) (default : json) : result json :=
  match v with
  | JDict d => Ok (match lookup k d with Some x => x | None => default end)
  | _ => Raise AttributeError
  end.

(** [v.items()] *)
Definition py_items (v : json) : result (list (string * json)) :=
  match v with
  | JDict d => Ok d
  | _ => Raise AttributeError
  end.

(** [v[0]] *)
Definition py_getitem0 (v : json) : result json :=
  match v with
  | JList (x :: _) => Ok x
  | JList [] => Raise IndexError
  | JStr (String c _) => Ok (JStr (String c EmptyString))
  | JStr EmptyString => Raise IndexError
  | JDict _ => Raise KeyError
  | _ => Raise TypeError
  end.

Fixpoint chars (s : string) : list json :=
  match s with
  | EmptyString => []
  | String c s' => JStr (String c EmptyString) :: chars s'
  end.

(** The elements a [for] loop (or [enumerate]) draws from a value. *)
Definition py_iter (v : json) : result (list json) :=
  match v with
  | JList l => Ok l
  | JStr s => Ok (chars s)
  | JDict d => Ok (map (fun kv => JStr (fst kv)) d)
  | _ => Raise TypeError
  end.

Definition enumerate {A} (l : list A) : list (nat * A) :=
  combine (seq 0 (List.length l)) l.

(** [str(i)] of a list index and of an integer. *)
Definition str_nat (i : nat) : string := NilEmpty.string_of_uint (Nat.to_uint i).
Definition str_Z (n : Z) : string := NilZero.string_of_int (Z.to_int n).

(** ** The graph store *)

Inductive label : Type :=
| Client | Adviser | Dependant | Property | Pension | Investment | Goal.

Inductive reltype : Type :=
| ADVISES | PARENT_OF | OWNS | HAS_ACCOUNT | HAS_GOAL.

(** A stored property value: a scalar, or an array of scalars of one kind.
    [null] and maps are not property values. *)
Inductive scalar : Type :=
| SBool (b : bool)
| SInt (n : Z)
| SStr (s : string).

Inductive pval : Type :=
| PS (x : scalar)
| PL (xs : list scalar).

Definition scalar_eq_dec (x y : scalar) : {x = y} + {x <> y}.
Proof.
  decide equality; [apply Bool.bool_dec | apply Z.eq_dec | apply string_dec].
Defined.

Definition pval_eq_dec (x y : pval) : {x = y} + {x <> y}.
Proof.
  decide equality; [apply scalar_eq_dec | apply (list_eq_dec scalar_eq_dec)].
Defined.

Definition pval_eqb (x y : pval) : bool :=
  if pval_eq_dec x y then true else false.

Definition label_eq_dec (x y : label) : {x = y} + {x <> y}.
Proof. decide equality. Defined.

Definition label_eqb (x y : label) : bool :=
  if label_eq_dec x y then true else false.

Definition reltype_eq_dec (x y : reltype) : {x = y} + {x <> y}.
Proof. decide equality. Defined.

Definition to_scalar (v : json) : option scalar :=
  match v with
  | JBool b => Some (SBool b)
  | JNum n => Some (SInt n)
  | JStr s => Some (SStr s)
  | _ => None
  end.

Definition same_kind (x y : scalar) : bool :=
  match x, y with
  | SBool _, SBool _ => true
  | SInt _, SInt _ => true
  | SStr _, SStr _ => true
  | _, _ => false
  end.

Fixpoint to_scalars (l : list json) : option (list scalar) :=
  match l with
  | [] => Some []
  | v :: l' =>
      match to_scalar v, to_scalars l' with
      | Some x, Some xs => Some (x :: xs)
      | _, _ => None
      end
  end.

Definition homogeneous (xs : list scalar) : bool :=
  match xs with
  | [] => true
  | x :: xs' => forallb (same_kind x) xs'
  end.

(** The property value a query parameter stands for, when it is one. *)
Definition to_pval (v : json) : option pval :=
  match v with
  | JList l =>
      match to_scalars l with
      | Some xs => if homogeneous xs then Some (PL xs) else None
      | None => None
      end
  | _ => option_map PS (to_scalar v)
  end.

Definition pmap : Type := list (string * pval).

Definition pmap_remove (k : string) (m : pmap) : pmap :=
  filter (fun kv => negb (String.eqb k (fst kv))) m.

Record node : Type := mkNode { n_label : label; n_props : pmap }.

Record rel : Type := mkRel { r_src : nat; r_type : reltype; r_dst : nat }.

(** Nodes are identified by their position: nothing is ever deleted. *)
Record graph : Type := mkGraph { nodes : list node; rels : list rel }.

Definition empty_graph : graph := mkGraph [] [].

Definition rel_eq_dec (x y : rel) : {x = y} + {x <> y}.
Proof.
  decide equality; [apply Nat.eq_dec | apply reltype_eq_dec | apply Nat.eq_dec].
Defined.

(** The pattern [(:l {k: p})]. *)
Definition has (l : label) (k : string) (p : pval) (n : node) : bool :=
  label_eqb (n_label n) l &&
  match lookup k (n_props n) with
  | Some q => pval_eqb q p
  | None => false
  end.

Fixpoint find_from (i : nat) (f : node -> bool) (ns : list node) : list nat :=
  match ns with
  | [] => []
  | n :: ns' => if f n then i :: find_from (S i) f ns' else find_from (S i) f ns'
  end.

(** The nodes a pattern binds. *)
Definition find (l : label) (k : string) (p : pval) (g : graph) : list nat :=
  find_from 0 (has l k p) (nodes g).

(** [MATCH (:l {k: $x})]: a parameter that is no property value (or is
    null) equals no stored property. *)
Definition match_ids (l : label) (k : string) (x : json) (g : graph) : list nat :=
  match to_pval x with
  | Some p => find l k p g
  | None => []
  end.

(** [MERGE (:l {k: p})]: create the node when the pattern binds none. *)
Definition merge_node (l : label) (k : string) (p : pval) (g : graph) : graph :=
  if existsb (has l k p) (nodes g) then g
  else mkGraph (nodes g ++ [mkNode l [(k, p)]]) (rels g).

(** [SET n += $props]: the parameter must be a map; a null value removes
    the property, a property value overwrites it, anything else is refused.
    The first binding of a key is the one that counts. *)
Definition to_update (v : json) : option (option pval) :=
  match v with
  | JNull => Some None
  | _ => option_map Some (to_pval v)
  end.

Fixpoint to_updates (d : list (string * json)) : option (list (string * option pval)) :=
  match d with
  | [] => Some []
  | (k, v) :: d' =>
      match to_update v, to_updates d' with
      | Some u, Some us => Some ((k, u) :: us)
      | _, _ => None
      end
  end.

Definition props_param (v : json) : option (list (string * option pval)) :=
  match v with
  | JDict d => to_updates d
  | _ => None
  end.

Definition apply_update (ku : string * option pval) (m : pmap) : pmap :=
  match snd ku with
  | None => pmap_remove (fst ku) m
  | Some p => dict_set (fst ku) p m
  end.

Definition apply_updates (us : list (string * option pval)) (m : pmap) : pmap :=
  fold_right apply_update m us.

(** Apply [f] to the properties of the nodes bound by [(n:l {k: p})]. *)
Definition set_where (l : label) (k : string) (p : pval)
    (f : pmap -> pmap) (g : graph) : graph :=
  mkGraph
    (map (fun n => if has l k p n then mkNode (n_label n) (f (n_props n)) else n)
         (nodes g))
    (rels g).

(** [MERGE (a)-[:t]->(b)] *)
Definition merge_rel (r : rel) (g : graph) : graph :=
  if in_dec rel_eq_dec r (rels g) then g else mkGraph (nodes g) (rels g ++ [r]).

Definition merge_rels (rs : list rel) (g : graph) : graph :=
  fold_left (fun g r => merge_rel r g) rs g.

Definition pairs (t : reltype) (srcs dsts : list nat) : list rel :=
  flat_map (fun a => map (fun b => mkRel a t b) dsts) srcs.

(** ** Cypher statements *)

(** One constructor per query text of the source, with its parameters. *)
Inductive stmt : Type :=
| CreateConstraint (l : label) (k : string)
    (* CREATE CONSTRAINT ... IF NOT EXISTS FOR (n:l) REQUIRE n.k IS UNIQUE *)
| MergeAdviser (name : json)
    (* MERGE (a:Adviser {name: $name}) *)
| UpsertClient (name props : json)
    (* MERGE (c:Client {name: $name}) SET c += $props *)
| LinkAdviser (c_name a_name : json)
    (* MATCH (c:Client {name: $c_name}), (a:Adviser {name: $a_name})
       MERGE (a)-[:ADVISES]->(c) *)
| UpsertDependant (p_name id props : json)
    (* MATCH (c:Client {name: $p_name}) MERGE (d:Dependant {id: $id})
       SET d += $props MERGE (c)-[:PARENT_OF]->(d) *)
| UpsertProperty (c_name id props : json)
    (* MATCH (c:Client {name: $c_name}) MERGE (p:Property {id: $id})
       SET p += $props MERGE (c)-[:OWNS]->(p) *)
| UpsertPension (owner id props : json)
    (* MERGE (c:Client {name: $owner}) MERGE (p:Pension {id: $id})
       SET p += $props MERGE (c)-[:HAS_ACCOUNT]->(p) *)
| UpsertInvestment (owner id props : json)
    (* MERGE (c:Client {name: $owner}) MERGE (i:Investment {id: $id})
       SET i += $props MERGE (c)-[:HAS_ACCOUNT]->(i) *)
| UpsertGoal (name id props : json).
    (* MATCH (c:Client {name: $name}) MERGE (g:Goal {id: $id})
       SET g.type='Retirement', g += $props MERGE (c)-[:HAS_GOAL]->(g) *)

Definition neo4j {A} (o : option A) : result A :=
  match o with
  | Some a => Ok a
  | None => Raise Neo4jError
  end.

(** The tail shared by the five linked upserts, for the clients [cs] bound
    so far: [MERGE (n:l {id: $id}) SET <pre>, n += $props
    MERGE (c)-[:t]->(n)].  With no client bound there is no row and nothing
    is evaluated. *)
Definition upsert_linked (cs : list nat) (l : label) (t : reltype)
    (pre : pmap -> pmap) (id props : json) (g : graph) : result graph :=
  match cs with
  | [] => Ok g
  | _ =>
      match to_pval id, props_param props with
      | Some p, Some us =>
          let g1 := merge_node l "id" p g in
          let ds := find l "id" p g1 in
          let g2 := set_where l "id" p (fun m => apply_updates us (pre m)) g1 in
          Ok (merge_rels (pairs t cs ds) g2)
      | _, _ => Raise Neo4jError
      end
  end.

(** One auto-commit statement: it takes effect as a whole or raises and
    leaves the graph as it was.  A null or non-property merge key is
    refused.  Creating a uniqueness constraint changes no node; the
    constraints are not enforced here: a violation is one of the faults
    of the [store] below. *)
Definition exec (s : stmt) (g : graph) : result graph :=
  match s with
  | CreateConstraint _ _ => Ok g
  | MergeAdviser x =>
      match to_pval x with
      | Some p => Ok (merge_node Adviser "name" p g)
      | None => Raise Neo4jError
      end
  | UpsertClient x m =>
      match to_pval x, props_param m with
      | Some p, Some us =>
          Ok (set_where Client "name" p (apply_updates us)
                (merge_node Client "name" p g))
      | _, _ => Raise Neo4jError
      end
  | LinkAdviser c a =>
      Ok (merge_rels
            (pairs ADVISES (match_ids Adviser "name" a g) (match_ids Client "name" c g))
            g)
  | UpsertDependant c id m =>
      upsert_linked (match_ids Client "name" c g) Dependant PARENT_OF (fun m => m) id m g
  | UpsertProperty c id m =>
      upsert_linked (match_ids Client "name" c g) Property OWNS (fun m => m) id m g
  | UpsertPension o id m =>
      match to_pval o with
      | Some p =>
          let g1 := merge_node Client "name" p g in
          upsert_linked (find Client "name" p g1) Pension HAS_ACCOUNT (fun m => m) id m g1
      | None => Raise Neo4jError
      end
  | UpsertInvestment o id m =>
      match to_pval o with
      | Some p =>
          let g1 := merge_node Client "name" p g in
          upsert_linked (find Client "name" p g1) Investment HAS_ACCOUNT (fun m => m) id m g1
      | None => Raise Neo4jError
      end
  | UpsertGoal c id m =>
      upsert_linked (match_ids Client "name" c g) Goal HAS_GOAL
        (dict_set "type" (PS (SStr "Retirement"))) id m g
  end.

(** The store behind the driver: the graph, and the faults still to come
    (a lost connection, a refused credential, a violated constraint), each
    given as the number of statements the store serves before it ([[]]:
    the store never fails on its own). *)
Record store : Type := mkStore { db : graph; faults : list nat }.

Definition tick (fs : list nat) : list nat :=
  match fs with
  | S n :: fs' => n :: fs'
  | _ => fs
  end.

(** [session.run(...)] *)
Definition run_stmt (s : stmt) (st : store) : store * result unit :=
  match faults st with
  | 0 :: fs => (mkStore (db st) fs, Raise (OtherError "ServiceUnavailable"))
  | fs =>
      match exec s (db st) with
      | Ok g => (mkStore g (tick fs), Ok tt)
      | Raise e => (mkStore (db st) (tick fs), Raise e)
      end
  end.

(** Statements run in order; the first one that raises ends the session. *)
Fixpoint exec_all (ss : list stmt) (st : store) : store * result unit :=
  match ss with
  | [] => (st, Ok tt)
  | s :: ss' =>
      match run_stmt s st with
      | (st', Ok _) => exec_all ss' st'
      | (st', Raise e) => (st', Raise e)
      end
  end.

(** ** Code inside a session *)

(** The code never reads what [session.run] returns, so the body of a
    [with self.driver.session()] block is the list of statements it issues
    followed by how the Python code itself ends. *)
Definition W (A : Type) : Type := (list stmt * result A)%type.

Definition ret {A} (a : A) : W A := ([], Ok a).

Definition bind {A B} (m : W A) (f : A -> W B) : W B :=
  match m with
  | (ss, Ok a) => let (ss', r) := f a in (ss ++ ss', r)
  | (ss, Raise e) => (ss, Raise e)
  end.

Definition lift {A} (r : result A) : W A := ([], r).

Definition session_run (s : stmt) : W unit := ([s], Ok tt).

Notation "x <- m ;; k" := (bind m (fun x => k))
  (at level 61, m at next level, right associativity).
Notation "m ;;; k" := (bind m (fun _ => k))
  (at level 61, right associativity).

Fixpoint for_each {A} (l : list A) (body : A -> W unit) : W unit :=
  match l with
  | [] => ret tt
  | x :: l' => body x ;;; for_each l' body
  end.

(** Run a session body against the store. *)
Definition run_session {A} (w : W A) (st : store) : store * result A :=
  match exec_all (fst w) st with
  | (st', Ok _) => (st', snd w)
  | (st', Raise e) => (st', Raise e)
  end.

(** ** Files *)

(** A path of [docx_files] with its [stem]. *)
Record docx_file : Type := mkFile { filepath : string; stem : string }.

(** ** What a run lets one observe *)

(** The lines the program prints, each with the source line that prints
    it, and the two calls that are no output: [time.sleep] and the
    closing of the driver. *)
Inductive event : Type :=
| Found (total : nat)                          (* 306 *)
| UsingModel                                   (* 307 *)
| RateLimiting (seconds : nat)                 (* 308 *)
| Processing (i total : nat) (f : docx_file)   (* 316 *)
| ReadError (path : string) (e : exn)          (* 53 *)
| EmptyDocument                                (* 322 *)
| TextLength (chars : nat)                     (* 325 *)
| Extracting                                   (* 328 *)
| RateLimitHit (e : exn)                       (* 192 *)
| RateLimitHint                                (* 193 *)
| ExtractError (e : exn)                       (* 196 *)
| GraphUpdated                                 (* 334 *)
| ExtractionFailed                             (* 337 *)
| CriticalError (e : exn)                      (* 341 *)
| Sleeping (seconds : nat)                     (* 346 *)
| Sleep (seconds : nat)                        (* 347, the call *)
| Rule                                         (* 349, 351 *)
| Complete (successful failed : nat)           (* 350 *)
| MissingApiKey                                (* 356 *)
| MissingDirectory                             (* 365 *)
| Closed.                                      (* 45, the call *)

(** ** Example data *)

(** The text Python prints for a list or a dict plays no part in the
    examples: every name in them is a string. *)
Definition no_repr : json -> string := fun _ => "".

Definition fresh : store := mkStore empty_graph [].

(** A household: two clients, two dependants, three properties, a pension
    held by someone who is not a client, an investment, a retirement
    goal. *)
Definition jane : list (string * json) :=
  [("name", JStr "Jane Doe"); ("age", JNum 41); ("dob", JNull)].

Definition john : list (string * json) := [("name", JStr "John Doe")].

Definition zed_pension : list (string * json) :=
  [("type", JStr "SIPP"); ("owner", JStr "Zed Roe")].

Definition family_assets : list (string * json) :=
  [("properties", JList [JDict [("type", JStr "home")];
                         JDict [("type", JStr "flat")];
                         JDict [("type", JStr "land")]]);
   ("pensions", JList [JDict zed_pension]);
   ("investments", JList [JDict [("type", JStr "ISA")]])].

Definition family : list (string * json) :=
  [("clients", JList [JDict jane; JDict john]);
   ("adviser", JStr "C D");
   ("dependants", JList [JDict [("name", JStr "Kid A")]; JDict [("name", JStr "Kid B")]]);
   ("assets", JDict family_assets);
   ("goals", JDict [("retirement", JDict [("target_age", JNum 60)])])].

(** A later document about the same client. *)
Definition review : list (string * json) :=
  [("clients", JList [JDict [("name", JStr "Jane Doe"); ("age", JNum 42)]])].



(** A second client with no name. *)
Definition nameless_second : list (string * json) :=
  [("clients", JList [JDict john; JDict [("age", JNum 40)]])].

(** Two files; the first one cannot be read. *)
Definition unreadable : docx_file := mkFile "docs/a.docx" "a".
Definition readable : docx_file := mkFile "docs/b.docx" "b".

Definition two_texts (path : string) : result string :=
  if String.eqb path "docs/a.docx" then Raise (OtherError "PackageNotFoundError")
  else Ok "Jane and John Doe".

Definition extraction (text : string) : result json := Ok (JDict family).

(** An extraction that finds nothing it has a field for but the type of
    the document. *)
Definition letter (text : string) : result json :=
  Ok (JDict [("document_type", JStr "letter")]).

(** A standard output that takes every line; one that cannot encode the
    marks some of the lines begin with (an ASCII terminal); and one that
    refuses these marks inside the [try] block only. *)
Definition utf8 (lg : list event) (e : event) : result unit := Ok tt.

Definition ascii (lg : list event) (e : event) : result unit :=
  match e with
  | EmptyDocument | TextLength _ | Extracting | RateLimitHit _ | GraphUpdated
  | ExtractionFailed | CriticalError _ | MissingApiKey | MissingDirectory =>
      Raise (OtherError "UnicodeEncodeError")
  | _ => Ok tt
  end.

Definition picky (lg : list event) (e : event) : result unit :=
  match e with
  | EmptyDocument | TextLength _ | Extracting | RateLimitHit _ | GraphUpdated
  | ExtractionFailed => Raise (OtherError "UnicodeEncodeError")
  | _ => Ok tt
  end.

(** A driver that connects when the first statement is run, and closes
    without complaint. *)
Definition lazy_driver (uri user : string) (password : option string) : result unit :=
  Ok tt.

Definition closes (st : store) : result unit := Ok tt.

(** An extraction client that takes any key, and one that cannot be
    built. *)
Definition any_key (key : option string) : result unit := Ok tt.

Definition no_client (key : option string) : result unit :=
  Raise (OtherError "GroqError").

(** An adviser given as an object. *)
Definition adviser_object : list (string * json) :=
  [("adviser", JDict [("name", JStr "C D")]); ("clients", JList [JDict john])].

(** A first client whose name is [null]. *)
Definition nameless_first : list (string * json) :=
  [("adviser", JStr "C D");
   ("clients", JList [JDict [("name", JNull); ("age", JNum 40)]])].





(** A pension whose owner is no client, in a record that lists no client
    at all. *)
Definition orphan : list (string * json) :=
  [("adviser", JStr "C D");
   ("assets", JDict [("pensions", JList [JDict zed_pension])])].

(** A store that already holds the owner of the pension, from an earlier
    document. *)
Definition zed_stored : store :=
  mkStore
    (mkGraph [mkNode Client [("name", PS (SStr "Zed Roe"));
                             ("source_document", PS (SStr "letter"))]] [])
    [].

(** A driver that refuses what it is given. *)
Definition failing_driver (uri user : string) (password : option string) : result unit :=
  Raise (OtherError "ConfigurationError").

(** ** The upsert engine *)

Section Builder.

(** Python's [repr] of a list or a dict, which is what an f-string prints
    for one; its text is left open. *)
Variable py_repr : json -> string.

(** [f"{v}"] *)
Definition py_str (v : json) : string :=
  match v with
  | JNull => "None"
  | JBool true => "True"
  | JBool false => "False"
  | JNum n => str_Z n
  | JStr s => s
  | _ => py_repr v
  end.

(** [f"{owner}_{kind}_{idx}"] *)
Definition synthetic_id (owner : json) (kind : string) (idx : nat) : json :=
  JStr (py_str owner ++ "_" ++ kind ++ "_" ++ str_nat idx)%string.

(** The [props] dict built for one entry of [clients]. *)
Definition client_props (document_name : string) (primary_client_name : json)
    (items : list (string * json)) : list (string * json) :=
  let props := filter (fun kv => negb (is_null (snd kv))) items in
  let props := dict_set "source_document" (JStr document_name) props in
  if dict_mem "name" props then props
  else dict_set "name" primary_client_name props.

Definition props_name (props : list (string * json)) : json :=
  match lookup "name" props with
  | Some v => v
  | None => JNull
  end.

Definition upsert_client (document_name : string) (primary_client_name adviser : json)
    (client : json) : W unit :=
  items <- lift (py_items client) ;;
  let props := client_props document_name primary_client_name items in
  session_run (UpsertClient (props_name props) (JDict props)) ;;;
  if truthy adviser
  then session_run (LinkAdviser (props_name props) adviser)
  else ret tt.

Definition upsert_account (mk : json -> json -> json -> stmt) (kind : string)
    (primary_client_name : json) (item : nat * json) : W unit :=
  owner <- lift (py_get (snd item) "owner" primary_client_name) ;;
  session_run (mk owner (synthetic_id owner kind (fst item)) (snd item)).

Definition build_graph_from_entities (entities : json) (document_name : string) : W unit :=
  if negb (truthy entities) then ret tt else
  (* Adviser *)
  adviser <- lift (py_get entities "adviser" JNull) ;;
  (if truthy adviser then session_run (MergeAdviser adviser) else ret tt) ;;;
  (* Clients *)
  clients <- lift (py_get entities "clients" (JList [])) ;;
  if negb (truthy clients) then ret tt else
  first <- lift (py_getitem0 clients) ;;
  primary_client_name <-
    lift (py_get first "name" (JStr ("Unknown_" ++ document_name)%string)) ;;
  each <- lift (py_iter clients) ;;
  for_each each (upsert_client document_name primary_client_name adviser) ;;;
  (* Dependants *)
  dependants <- lift (py_get entities "dependants" (JList [])) ;;
  deps <- lift (py_iter dependants) ;;
  for_each (enumerate deps) (fun item =>
    session_run (UpsertDependant primary_client_name
                   (synthetic_id primary_client_name "dep" (fst item)) (snd item))) ;;;
  (* Assets (Properties, Pensions, Investments) *)
  assets <- lift (py_get entities "assets" (JDict [])) ;;
  properties <- lift (py_get assets "properties" (JList [])) ;;
  props <- lift (py_iter properties) ;;
  for_each (enumerate props) (fun item =>
    session_run (UpsertProperty primary_client_name
                   (synthetic_id primary_client_name "prop" (fst item)) (snd item))) ;;;
  pensions <- lift (py_get assets "pensions" (JList [])) ;;
  pens <- lift (py_iter pensions) ;;
  for_each (enumerate pens) (upsert_account UpsertPension "pen" primary_client_name) ;;;
  investments <- lift (py_get assets "investments" (JList [])) ;;
  invs <- lift (py_iter investments) ;;
  for_each (enumerate invs) (upsert_account UpsertInvestment "inv" primary_client_name) ;;;
  (* Goals *)
  goals <- lift (py_get entities "goals" (JDict [])) ;;
  retirement <- lift (py_get goals "retirement" JNull) ;;
  if truthy retirement
  then session_run (UpsertGoal primary_client_name
                      (JStr (py_str primary_client_name ++ "_ret_goal")%string) retirement)
  else ret tt.

(** One call of the method on a store. *)
Definition build (entities : json) (document_name : string) (st : store)
  : store * result unit :=
  run_session (build_graph_from_entities entities document_name) st.


(** ** The batch orchestrator *)

(** What the two outside services return: the text of a Word file
    ([docx.Document] and its paragraphs) and the parsed completion of the
    extraction prompt for a text (the chat call and [json.loads]); either
    may raise. *)
Variable docx_text : string -> result string.
Variable groq_json : string -> result json.

(** What writing a line to standard output does, given what was observed
    before it: [print] raises what the stream raises (a
    [UnicodeEncodeError] on a stream that cannot encode the marks of a
    line, a closed pipe). *)
Variable stdout_write : list event -> event -> result unit.

Definition DELAY_BETWEEN_DOCS_SECONDS : nat := 30.

Record world : Type := mkWorld { neo4j_store : store; log : list event }.

Definition M (A : Type) : Type := world -> world * result A.

Definition mret {A} (a : A) : M A := fun w => (w, Ok a).

Definition mbind {A B} (m : M A) (f : A -> M B) : M B :=
  fun w =>
    match m w with
    | (w', Ok a) => f a w'
    | (w', Raise e) => (w', Raise e)
    end.

Definition raise {A} (e : exn) : M A := fun w => (w, Raise e).

(** [try: m except Exception as e: h e] *)
Definition try_except {A} (m : M A) (h : exn -> M A) : M A :=
  fun w =>
    match m w with
    | (w', Ok a) => (w', Ok a)
    | (w', Raise e) => h e w'
    end.

(** [try: m finally: fin]: [fin] runs however [m] ends, and what it
    raises replaces what [m] raised. *)
Definition try_finally {A} (m : M A) (fin : M unit) : M A :=
  fun w =>
    match m w with
    | (w', r) =>
        match fin w' with
        | (w'', Ok _) => (w'', r)
        | (w'', Raise e) => (w'', Raise e)
        end
    end.

(** An observed action that is no line of output. *)
Definition record (e : event) : M unit :=
  fun w => (mkWorld (neo4j_store w) (log w ++ [e]), Ok tt).

(** [print(...)]: the line is written, or the stream raises. *)
Definition print (e : event) : M unit :=
  fun w =>
    match stdout_write (log w) e with
    | Ok _ => record e w
    | Raise x => (w, Raise x)
    end.

(** [time.sleep(seconds)] *)
Definition sleep (seconds : nat) : M unit := record (Sleep seconds).

(** [with self.driver.session() as session: body] *)
Definition with_session {A} (body : W A) : M A :=
  fun w =>
    let (st, r) := run_session body (neo4j_store w) in
    (mkWorld st (log w), r).

Definition read_docx (path : string) : M string :=
  match docx_text path with
  | Ok text => mret text
  | Raise e => mbind (print (ReadError path e)) (fun _ => mret "")
  end.

Definition extract_entities_with_groq (document_text : string) : M json :=
  match groq_json document_text with
  | Ok entities => mret entities
  | Raise RateLimitError =>
      mbind (print (RateLimitHit RateLimitError)) (fun _ =>
      mbind (print RateLimitHint) (fun _ =>
      mret (JDict [])))
  | Raise e => mbind (print (ExtractError e)) (fun _ => mret (JDict []))
  end.

Definition constraints : list stmt :=
  [ CreateConstraint Client "name";
    CreateConstraint Dependant "id";
    CreateConstraint Property "id";
    CreateConstraint Pension "id";
    CreateConstraint Investment "id";
    CreateConstraint Adviser "name" ].

(** [for constraint in constraints: try: session.run(constraint) except
    Exception: pass]; the session of the [with] block holds no state and
    is put around each statement. *)
Fixpoint run_ignoring (ss : list stmt) : M unit :=
  match ss with
  | [] => mret tt
  | s :: ss' =>
      mbind (try_except (with_session (session_run s)) (fun _ => mret tt))
            (fun _ => run_ignoring ss')
  end.

Definition create_constraints : M unit := run_ignoring constraints.

(** How the [try] statement of the loop body is left: by [continue], or
    by reaching its end. *)
Inductive flow : Type := Continue | Fallthrough.

(** The [try] block, on the counters [(successful, failed)]. *)
Definition try_block (f : docx_file) (counts : nat * nat) : M (flow * (nat * nat)) :=
  mbind (read_docx (filepath f)) (fun text =>
  if String.eqb text "" then
    mbind (print EmptyDocument) (fun _ =>
    mret (Continue, (fst counts, S (snd counts))))
  else
    mbind (print (TextLength (String.length text))) (fun _ =>
    mbind (print Extracting) (fun _ =>
    mbind (extract_entities_with_groq text) (fun entities =>
    if truthy entities then
      mbind (with_session (build_graph_from_entities entities (stem f))) (fun _ =>
      mbind (print GraphUpdated) (fun _ =>
      mret (Fallthrough, (S (fst counts), snd counts))))
    else
      mbind (print ExtractionFailed) (fun _ =>
      mret (Fallthrough, (fst counts, S (snd counts)))))))).

Definition except_block (counts : nat * nat) (e : exn) : M (flow * (nat * nat)) :=
  mbind (print (CriticalError e)) (fun _ =>
  mret (Fallthrough, (fst counts, S (snd counts)))).

(** One turn of [for i, filepath in enumerate(docx_files, 1)]. *)
Definition iteration (total i : nat) (f : docx_file) (counts : nat * nat)
  : M (nat * nat) :=
  mbind (print (Processing i total f)) (fun _ =>
  mbind (try_except (try_block f counts) (except_block counts)) (fun r =>
  match fst r with
  | Continue => mret (snd r)
  | Fallthrough =>
      mbind (if Nat.ltb i total
             then mbind (print (Sleeping DELAY_BETWEEN_DOCS_SECONDS)) (fun _ =>
                  sleep DELAY_BETWEEN_DOCS_SECONDS)
             else mret tt) (fun _ =>
      mret (snd r))
  end)).

Fixpoint documents_loop (total i : nat) (files : list docx_file) (counts : nat * nat)
  : M (nat * nat) :=
  match files with
  | [] => mret counts
  | f :: rest =>
      mbind (iteration total i f counts) (fun counts' =>
      documents_loop total (S i) rest counts')
  end.

(** Returns the two counters of the closing summary. *)
Definition process_all_documents (docx_files : list docx_file) : M (nat * nat) :=
  mbind (print (Found (List.length docx_files))) (fun _ =>
  mbind (print UsingModel) (fun _ =>
  mbind (print (RateLimiting DELAY_BETWEEN_DOCS_SECONDS)) (fun _ =>
  mbind create_constraints (fun _ =>
  mbind (documents_loop (List.length docx_files) 1 docx_files (0, 0)) (fun counts =>
  mbind (print Rule) (fun _ =>
  mbind (print (Complete (fst counts) (snd counts))) (fun _ =>
  mbind (print Rule) (fun _ =>
  mret counts)))))))).

(** ** Entry point *)

(** The environment variables read at import time. *)
Record environ : Type := mkEnv {
  GROQ_API_KEY : option string;
  NEO4J_URI : option string;
  NEO4J_USER : option string;
  NEO4J_PASSWORD : option string }.

Definition getenv (v : option string) (default : string) : string :=
  match v with
  | Some s => s
  | None => default
  end.

(** [not GROQ_API_KEY]: unset or empty. *)
Definition unset (v : option string) : bool :=
  match v with
  | Some s => String.eqb s ""
  | None => true
  end.

(** Three calls into the libraries, each of which may raise on what it is
    given: [GraphDatabase.driver(uri, auth=(user, password))],
    [Groq(api_key=...)] and [self.driver.close()]. *)
Variable graph_driver : string -> string -> option string -> result unit.
Variable groq_client : option string -> result unit.
Variable driver_close : store -> result unit.

(** [Neo4jGraphBuilder(uri, user, password)] *)
Definition Neo4jGraphBuilder_init (env : environ) (uri user : string) (password : option string)
  : M unit :=
  match graph_driver uri user password with
  | Raise e => raise e
  | Ok _ =>
      if unset (GROQ_API_KEY env)
      then raise (OtherError "GROQ_API_KEY is not set in environment variables.")
      else
        match groq_client (GROQ_API_KEY env) with
        | Raise e => raise e
        | Ok _ => mret tt
        end
  end.

(** [builder.close()] *)
Definition close : M unit :=
  fun w =>
    match driver_close (neo4j_store w) with
    | Ok _ => record Closed w
    | Raise e => (w, Raise e)
    end.

(** [main()], given the environment and the [*.docx] files of the
    documents directory ([None] when the directory does not exist). *)
Definition main (env : environ) (documents_dir : option (list docx_file)) : M unit :=
  if unset (GROQ_API_KEY env) then print MissingApiKey else
  match documents_dir with
  | None => print MissingDirectory
  | Some docx_files =>
      mbind (Neo4jGraphBuilder_init env
               (getenv (NEO4J_URI env) "bolt://localhost:7687")
               (getenv (NEO4J_USER env) "neo4j")
               (NEO4J_PASSWORD env)) (fun _ =>
      try_finally
        (mbind (process_all_documents docx_files) (fun _ => mret tt))
        close)
  end.

(** ** Vocabulary of the statements *)

(** A field of a record, as [entities.get(k, default)] reads it. *)
Definition field (d : list (string * json)) (k : string) (default : json) : json :=
  match lookup k d with
  | Some x => x
  | None => default
  end.

(** The name the code gives the primary client of [clients[0]]. *)
Definition primary_name (document_name : string) (first : list (string * json)) : json :=
  field first "name" (JStr ("Unknown_" ++ document_name)%string).

Definition is_dict (v : json) : bool :=
  match v with JDict _ => true | _ => false end.

(** *** The parts of a call's statement list *)

Definition adviser_part (adviser : json) : list stmt :=
  if truthy adviser then [MergeAdviser adviser] else [].

Definition clients_part (document_name : string) (primary adviser : json)
    (clients : list json) : list stmt :=
  flat_map (fun c => fst (upsert_client document_name primary adviser c)) clients.

Definition dependants_part (primary : json) (deps : list json) : list stmt :=
  map (fun item => UpsertDependant primary (synthetic_id primary "dep" (fst item)) (snd item))
      (enumerate deps).

Definition properties_part (primary : json) (props : list json) : list stmt :=
  map (fun item => UpsertProperty primary (synthetic_id primary "prop" (fst item)) (snd item))
      (enumerate props).

Definition accounts_part (mk : json -> json -> json -> stmt) (kind : string)
    (primary : json) (items : list json) : list stmt :=
  flat_map (fun item => fst (upsert_account mk kind primary item)) (enumerate items).

Definition goal_part (primary retirement : json) : list stmt :=
  if truthy retirement
  then [UpsertGoal primary (JStr (py_str primary ++ "_ret_goal")%string) retirement]
  else [].

(** *** The batch loop *)

(** What the two helpers hand back to the loop: the text of a file (empty
    when it cannot be read) and the record of a text (empty when the
    extraction raises), with the lines they print on the way. *)
Definition text_of (path : string) : string :=
  match docx_text path with
  | Ok text => text
  | Raise _ => ""
  end.

Definition record_of (text : string) : json :=
  match groq_json text with
  | Ok entities => entities
  | Raise _ => JDict []
  end.

Definition read_events (path : string) : list event :=
  match docx_text path with
  | Ok _ => []
  | Raise e => [ReadError path e]
  end.

Definition extract_events (text : string) : list event :=
  match groq_json text with
  | Ok _ => []
  | Raise RateLimitError => [RateLimitHit RateLimitError; RateLimitHint]
  | Raise e => [ExtractError e]
  end.

(** Standard output takes every line. *)
Definition reliable : Prop := forall lg e, stdout_write lg e = Ok tt.

(** The lines printed from inside the [try] block of the loop (by the
    block or by the two helpers it calls). *)
Definition guarded (e : event) : bool :=
  match e with
  | ReadError _ _ | EmptyDocument | TextLength _ | Extracting
  | RateLimitHit _ | RateLimitHint | ExtractError _
  | GraphUpdated | ExtractionFailed => true
  | _ => false
  end.

(** Standard output takes every line printed outside the [try] block. *)
Definition steady : Prop :=
  forall lg e, guarded e = false -> stdout_write lg e = Ok tt.

(** The announced sleep after the turn numbered [i], when the turn
    reaches it. *)
Definition delay (total i : nat) : list event :=
  if Nat.ltb i total
  then [Sleeping DELAY_BETWEEN_DOCS_SECONDS; Sleep DELAY_BETWEEN_DOCS_SECONDS]
  else [].

(** What one turn of the loop prints, and when it sleeps, on a standard
    output that takes every line. *)
Definition turn_events (total i : nat) (f : docx_file) (st : store) : list event :=
  let text := text_of (filepath f) in
  Processing i total f :: read_events (filepath f) ++
  (if String.eqb text "" then [EmptyDocument]
   else
     let entities := record_of text in
     [TextLength (String.length text); Extracting] ++ extract_events text ++
     (if truthy entities then
        match snd (build entities (stem f) st) with
        | Ok _ => [GraphUpdated]
        | Raise e => [CriticalError e]
        end
      else [ExtractionFailed]) ++
     delay total i).

(** Whether a turn counts its document as a success. *)
Definition succeeds (f : docx_file) (st : store) : bool :=
  let text := text_of (filepath f) in
  let entities := record_of text in
  negb (String.eqb text "") && truthy entities &&
  is_ok (snd (build entities (stem f) st)).

(** The store a turn leaves. *)
Definition turn_store (f : docx_file) (st : store) : store :=
  let text := text_of (filepath f) in
  let entities := record_of text in
  if negb (String.eqb text "") && truthy entities
  then fst (build entities (stem f) st)
  else st.

(** The store and the log after the turns of [files], numbered from [i]. *)
Fixpoint stores_after (files : list docx_file) (st : store) : store :=
  match files with
  | [] => st
  | f :: rest => stores_after rest (turn_store f st)
  end.

Fixpoint batch_events (total i : nat) (files : list docx_file) (st : store) : list event :=
  match files with
  | [] => []
  | f :: rest => turn_events total i f st ++ batch_events total (S i) rest (turn_store f st)
  end.

Fixpoint successes (files : list docx_file) (st : store) : nat :=
  match files with
  | [] => 0
  | f :: rest => (if succeeds f st then 1 else 0) + successes rest (turn_store f st)
  end.

(** The files whose processing was announced, in the order of the log. *)
Definition started (evs : list event) : list docx_file :=
  flat_map (fun e => match e with Processing _ _ f => [f] | _ => [] end) evs.

(** The log reduced to the announcements and the sleeps. *)
Definition pace (evs : list event) : list event :=
  filter (fun e => match e with Processing _ _ _ | Sleep _ => true | _ => false end) evs.

(** The sleep the loop takes after the document numbered [i]. *)
Definition delay_after (total i : nat) (f : docx_file) : list event :=
  if Nat.ltb i total && negb (String.eqb (text_of (filepath f)) "")
  then [Sleep DELAY_BETWEEN_DOCS_SECONDS] else [].

(** What one attempt at a statement does to the faults to come: the store
    fails now, or serves the statement. *)
Definition attempt (fs : list nat) : list nat :=
  match fs with
  | 0 :: fs' => fs'
  | _ => tick fs
  end.

(** The store once the constraints have been attempted. *)
Definition constrained (st : store) : store :=
  mkStore (db st) (Nat.iter (List.length constraints) attempt (faults st)).

(** The header and the footer of a batch. *)
Definition header (total : nat) : list event :=
  [Found total; UsingModel; RateLimiting DELAY_BETWEEN_DOCS_SECONDS].

Definition footer (successful failed : nat) : list event :=
  [Rule; Complete successful failed; Rule].

(** The postcondition [Q] holds of the world and the result the
    computation [m] leaves when started in [w]. *)
Definition wp {A} (m : M A) (Q : world -> result A -> Prop) (w : world) : Prop :=
  Q (fst (m w)) (snd (m w)).

(** *** The nodes of one label *)

(** The property each label is merged on. *)
Definition key_of (l : label) : string :=
  match l with
  | Client | Adviser => "name"
  | _ => "id"
  end.

(** A node seen from label [l]: nothing when it carries another label,
    else its key (which it may lack). *)
Definition cell (l : label) (n : node) : option (option pval) :=
  if label_eqb (n_label n) l then Some (lookup (key_of l) (n_props n)) else None.

Definition column (l : label) (g : graph) : list (option (option pval)) :=
  map (cell l) (nodes g).

(** The keys of the nodes labelled [l], in node order. *)
Fixpoint keys_of (c : list (option (option pval))) : list (option pval) :=
  match c with
  | [] => []
  | Some v :: c' => v :: keys_of c'
  | None :: c' => keys_of c'
  end.

Definition table (l : label) (g : graph) : list (option pval) :=
  keys_of (column l g).

(** The parameter [m] of a [SET n += $props] does not move the key [k]
    away from the merged value [x]. *)
Definition kept (k : string) (x m : json) : Prop :=
  forall d v, m = JDict d -> lookup k d = Some v -> v = x.

(** The parameter a statement merges a node of label [l] on, if any. *)
Definition merged (s : stmt) (l : label) : option json :=
  match s, l with
  | MergeAdviser x, Adviser => Some x
  | UpsertClient x _, Client => Some x
  | UpsertDependant _ id _, Dependant => Some id
  | UpsertProperty _ id _, Property => Some id
  | UpsertPension o _ _, Client => Some o
  | UpsertPension _ id _, Pension => Some id
  | UpsertInvestment o _ _, Client => Some o
  | UpsertInvestment _ id _, Investment => Some id
  | UpsertGoal _ id _, Goal => Some id
  | _, _ => None
  end.

(** The statement's [SET] does not re-key the node of label [l] it
    merges. *)
Definition keeps (l : label) (s : stmt) : Prop :=
  match s with
  | UpsertClient x m => l = Client -> kept "name" x m
  | UpsertDependant _ id m => l = Dependant -> kept "id" id m
  | UpsertProperty _ id m => l = Property -> kept "id" id m
  | UpsertPension _ id m => l = Pension -> kept "id" id m
  | UpsertInvestment _ id m => l = Investment -> kept "id" id m
  | UpsertGoal _ id m => l = Goal -> kept "id" id m
  | _ => True
  end.

(** How the column of [l] may change under a statement that merges [x]
    there (or merges nothing there): nodes are only appended, and the
    only node of label [l] that may be appended is a node keyed by [x],
    when no node of that label had this key. *)
Definition grows (x : option json) (old new : list (option (option pval))) : Prop :=
  exists extra,
    new = old ++ extra /\
    (keys_of extra = [] \/
     exists y p, x = Some y /\ to_pval y = Some p /\
                 keys_of extra = [Some p] /\ ~ In (Some (Some p)) old).

Definition is_key (p : pval) (e : option (option pval)) : bool :=
  match e with
  | Some (Some q) => pval_eqb q p
  | _ => false
  end.

Fixpoint hits (i : nat) (p : pval) (c : list (option (option pval))) : list nat :=
  match c with
  | [] => []
  | e :: c' => if is_key p e then i :: hits (S i) p c' else hits (S i) p c'
  end.

(** The number of nodes labelled [l] whose key is [p]. *)
Definition count (l : label) (p : pval) (g : graph) : nat :=
  List.length (find l (key_of l) p g).

(** What every statement, and so every run of statements, does to the
    nodes of one label: positions are kept, keys are never lost, a key
    held by one node stays with that one node, and a key held by some
    node keeps exactly the nodes it had. *)
Record evolves (l : label) (g g' : graph) : Prop := mkEvolves {
  ev_prefix : exists extra, column l g' = column l g ++ extra;
  ev_mono : forall p, count l p g <= count l p g';
  ev_unique : forall p, count l p g <= 1 -> count l p g' <= 1;
  ev_same : forall p, 1 <= count l p g -> find l (key_of l) p g' = find l (key_of l) p g }.

Definition lacks_id (m : json) : Prop :=
  forall d, m = JDict d -> lookup "id" d = None.

(** The name an entry of [clients] is upserted under. *)
Definition client_name (document_name : string) (first items : list (string * json)) : json :=
  props_name (client_props document_name (primary_name document_name first) items).


(** [Q] holds of the properties of every Client node. *)
Definition client_inv (Q : pmap -> Prop) (n : node) : Prop :=
  n_label n = Client -> Q (n_props n).

(** Every Client upsert of a call carries the document name and the name
    it merges on. *)
Definition tags (document_name : string) (s : stmt) : Prop :=
  match s with
  | UpsertClient x m =>
      exists props, m = JDict props /\
        lookup "source_document" props = Some (JStr document_name) /\
        lookup "name" props = Some x
  | _ => True
  end.

(** The Client nodes named [p] carry [document_name] as their source. *)
Definition tagged (p : pval) (document_name : string) (pm : pmap) : Prop :=
  lookup "name" pm = Some p ->
  lookup "source_document" pm = Some (PS (SStr document_name)).

(** The Client nodes named [p] have [v] under [k] (nothing, for [None]). *)
Definition valued (p : pval) (k : string) (v : option pval) (pm : pmap) : Prop :=
  lookup "name" pm = Some p -> lookup k pm = v.

(** A Client upsert on [p] that gives [k] gives it [v]. *)
Definition agrees (p : pval) (k : string) (v : json) (s : stmt) : Prop :=
  forall x props v', s = UpsertClient x (JDict props) -> to_pval x = Some p ->
                     lookup k props = Some v' -> v' = v.

(** A Client node named [o] has no other property. *)
Definition bare (o : pval) (pm : pmap) : Prop :=
  lookup "name" pm = Some o -> pm = [("name", o)].




(** *** Further vocabulary *)

(** A [clients] value the client loop can start on: a list whose first
    entry is a dict. *)
Definition starts_with_dict (v : json) : bool :=
  match v with
  | JList (JDict _ :: _) => true
  | _ => false
  end.

(** Nothing is deleted or relabelled: the nodes keep their positions and
    labels, the relationships stay. *)
Definition preserves (g g' : graph) : Prop :=
  (exists extra, map n_label (nodes g') = map n_label (nodes g) ++ extra) /\
  incl (rels g) (rels g').

(** The outcome lines of a log. *)
Definition updated (evs : list event) : nat :=
  List.length (filter (fun e => match e with GraphUpdated => true | _ => false end) evs).

Definition not_updated (evs : list event) : nat :=
  List.length
    (filter (fun e => match e with
                      | EmptyDocument | ExtractionFailed | CriticalError _ => true
                      | _ => false
                      end) evs).

(** The [SET] of a statement: the label and the key parameter of the
    nodes it writes to, its map parameter, and what it sets before the
    map. *)
Definition set_of (s : stmt) : option (label * json * json * (pmap -> pmap)) :=
  match s with
  | UpsertClient x m => Some (Client, x, m, fun pm => pm)
  | UpsertDependant _ id m => Some (Dependant, id, m, fun pm => pm)
  | UpsertProperty _ id m => Some (Property, id, m, fun pm => pm)
  | UpsertPension _ id m => Some (Pension, id, m, fun pm => pm)
  | UpsertInvestment _ id m => Some (Investment, id, m, fun pm => pm)
  | UpsertGoal _ id m => Some (Goal, id, m, dict_set "type" (PS (SStr "Retirement")))
  | _ => None
  end.

(** What a statement that takes effect is made of: merges of the nodes it
    merges, its [SET], and merges of relationships. *)
Inductive effect (s : stmt) : graph -> graph -> Prop :=
| effect_done g : effect s g g
| effect_merge l x p g g' :
    merged s l = Some x -> to_pval x = Some p ->
    effect s (merge_node l (key_of l) p g) g' -> effect s g g'
| effect_set l x m pre p us g g' :
    set_of s = Some (l, x, m, pre) -> to_pval x = Some p -> props_param m = Some us ->
    effect s (set_where l (key_of l) p (fun pm => apply_updates us (pre pm)) g) g' ->
    effect s g g'
| effect_rels rs g g' : effect s (merge_rels rs g) g' -> effect s g g'.





(** *** Upserting a record again *)

(** The patterns of a statement: the nodes it merges or matches, each by
    its label and key parameter. *)
Definition touches (s : stmt) : list (label * json) :=
  match s with
  | CreateConstraint _ _ => []
  | MergeAdviser a => [(Adviser, a)]
  | UpsertClient x _ => [(Client, x)]
  | LinkAdviser c a => [(Adviser, a); (Client, c)]
  | UpsertDependant c id _ => [(Client, c); (Dependant, id)]
  | UpsertProperty c id _ => [(Client, c); (Property, id)]
  | UpsertPension o id _ => [(Client, o); (Pension, id)]
  | UpsertInvestment o id _ => [(Client, o); (Investment, id)]
  | UpsertGoal c id _ => [(Client, c); (Goal, id)]
  end.

(** The relationships a statement merges between the nodes of [g] that
    its patterns bind. *)
Definition links_of (s : stmt) (g : graph) : list rel :=
  match s with
  | LinkAdviser c a =>
      pairs ADVISES (match_ids Adviser "name" a g) (match_ids Client "name" c g)
  | UpsertDependant c id _ =>
      pairs PARENT_OF (match_ids Client "name" c g) (match_ids Dependant "id" id g)
  | UpsertProperty c id _ =>
      pairs OWNS (match_ids Client "name" c g) (match_ids Property "id" id g)
  | UpsertPension o id _ =>
      pairs HAS_ACCOUNT (match_ids Client "name" o g) (match_ids Pension "id" id g)
  | UpsertInvestment o id _ =>
      pairs HAS_ACCOUNT (match_ids Client "name" o g) (match_ids Investment "id" id g)
  | UpsertGoal c id _ =>
      pairs HAS_GOAL (match_ids Client "name" c g) (match_ids Goal "id" id g)
  | _ => []
  end.

(** Some node of [g] matches the pattern. *)
Definition present (g : graph) (lx : label * json) : Prop :=
  exists p, to_pval (snd lx) = Some p /\ 1 <= count (fst lx) p g.

(** The graph holds what the statement writes: its nodes and, between
    them, its relationships. *)
Definition settled (s : stmt) (g : graph) : Prop :=
  Forall (present g) (touches s) /\ incl (links_of s g) (rels g).

(** The nodes a statement matches without merging them are there. *)
Definition ready (s : stmt) (g : graph) : Prop :=
  match s with
  | LinkAdviser c a => present g (Adviser, a) /\ present g (Client, c)
  | UpsertDependant c _ _ | UpsertProperty c _ _ | UpsertGoal c _ _ => present g (Client, c)
  | _ => True
  end.

(** The same, read off the statements issued before. *)
Definition prepared (seen : list stmt) (s : stmt) : Prop :=
  match s with
  | LinkAdviser c a => In (MergeAdviser a) seen /\ exists m, In (UpsertClient c m) seen
  | UpsertDependant c _ _ | UpsertProperty c _ _ | UpsertGoal c _ _ =>
      exists m, In (UpsertClient c m) seen
  | _ => True
  end.

Fixpoint ordered_from (seen ss : list stmt) : Prop :=
  match ss with
  | [] => True
  | s :: ss' => prepared seen s /\ ordered_from (seen ++ [s]) ss'
  end.

(** Two graphs with the same nodes, label by label and key by key, and
    the same relationships. *)
Definition same_shape (g g' : graph) : Prop :=
  (forall l, column l g' = column l g) /\ rels g' = rels g.

(** The entries a call upserts as linked nodes: the dependants, the
    properties, the pensions, the investments and the retirement goal. *)
Definition elements (v : json) : list json :=
  match py_iter v with
  | Ok l => l
  | Raise _ => []
  end.

Definition sub (v : json) (k : string) (default : json) : json :=
  match py_get v k default with
  | Ok x => x
  | Raise _ => default
  end.

Definition linked_entries (d : list (string * json)) : list json :=
  let assets := field d "assets" (JDict []) in
  elements (field d "dependants" (JList [])) ++
  elements (sub assets "properties" (JList [])) ++
  elements (sub assets "pensions" (JList [])) ++
  elements (sub assets "investments" (JList [])) ++
  [sub (field d "goals" (JDict [])) "retirement" JNull].

(** ** Session bodies: what they issue and how they end *)

Lemma bind_fst {A B} (m : W A) (f : A -> W B) :
  fst (bind m f) =
  fst m ++ match snd m with Ok a => fst (f a) | Raise _ => [] end.
Proof.
  destruct m as [ss [a | e]]; simpl.
  - destruct (f a); reflexivity.
  - now rewrite app_nil_r.
Qed.

Lemma bind_lift_ok {A B} (a : A) (f : A -> W B) : bind (lift (Ok a)) f = f a.
Proof. unfold bind, lift. now destruct (f a). Qed.

Lemma bind_inv {A B} (m : W A) (f : A -> W B) ss b :
  bind m f = (ss, Ok b) ->
  exists s1 a s2, m = (s1, Ok a) /\ f a = (s2, Ok b) /\ ss = s1 ++ s2.
Proof.
  destruct m as [s1 [a | e]]; simpl; [| discriminate].
  destruct (f a) as [s2 r] eqn:E. intros H; inversion H; subst.
  now exists s1, a, s2.
Qed.

Lemma for_each_all_ok {A} (l : list A) (body : A -> W unit) :
  (forall x, In x l -> snd (body x) = Ok tt) ->
  for_each l body = (flat_map (fun x => fst (body x)) l, Ok tt).
Proof.
  induction l as [| x l IH]; intros H; simpl; [reflexivity |].
  rewrite IH by (intros; apply H; now right).
  pose proof (H x (or_introl eq_refl)) as Hx.
  destruct (body x) as [ss r]; simpl in *; subst. reflexivity.
Qed.

Lemma for_each_inv {A} (l : list A) (body : A -> W unit) ss :
  for_each l body = (ss, Ok tt) ->
  ss = flat_map (fun x => fst (body x)) l /\
  forall x, In x l -> snd (body x) = Ok tt.
Proof.
  revert ss. induction l as [| x l IH]; intros ss H; simpl in *.
  - inversion H. split; [reflexivity | intros ? []].
  - apply bind_inv in H as (s1 & [] & s2 & Hx & Hl & ->).
    apply IH in Hl as [-> Hl]. rewrite Hx. split; [reflexivity |].
    intros y [<- | Hy]; [now rewrite Hx | now apply Hl].
Qed.

Lemma lookup_dict_set_same {A} k (v : A) d : lookup k (dict_set k v d) = Some v.
Proof.
  induction d as [| [k' v'] d IH]; simpl.
  - now rewrite String.eqb_refl.
  - destruct (String.eqb k k') eqn:E; simpl; rewrite E; [reflexivity | exact IH].
Qed.

Lemma lookup_dict_set_other {A} k k' (v : A) d :
  k' <> k -> lookup k' (dict_set k v d) = lookup k' d.
Proof.
  intros Hne. induction d as [| [k0 v0] d IH]; simpl.
  - destruct (String.eqb k' k) eqn:E; [apply String.eqb_eq in E; contradiction | reflexivity].
  - destruct (String.eqb k k0) eqn:E; simpl.
    + apply String.eqb_eq in E; subst k0.
      destruct (String.eqb k' k) eqn:E'; [apply String.eqb_eq in E'; contradiction | reflexivity].
    + destruct (String.eqb k' k0); [reflexivity | exact IH].
Qed.

Lemma lookup_filter_none {A} k (keep : string * A -> bool) d :
  (forall v, In (k, v) d -> keep (k, v) = false) ->
  lookup k (filter keep d) = None.
Proof.
  induction d as [| [k' v'] d IH]; intros H; simpl; [reflexivity |].
  destruct (keep (k', v')) eqn:E; simpl.
  - destruct (String.eqb k k') eqn:Ek.
    + apply String.eqb_eq in Ek; subst k'.
      rewrite (H v') in E by now left. discriminate.
    + apply IH. intros v Hv. apply H. now right.
  - apply IH. intros v Hv. apply H. now right.
Qed.

(** What [client_props] holds under [source_document]. *)
Lemma client_props_source doc primary items :
  lookup "source_document" (client_props doc primary items) = Some (JStr doc).
Proof.
  unfold client_props.
  destruct (dict_mem "name" _).
  - apply lookup_dict_set_same.
  - rewrite lookup_dict_set_other by discriminate. apply lookup_dict_set_same.
Qed.

(** An entry with no name (the key is missing or bound to null) gets the
    primary client's name. *)
Lemma client_props_nameless doc primary items :
  (forall v, In ("name", v) items -> v = JNull) ->
  props_name (client_props doc primary items) = primary.
Proof.
  intros H. unfold client_props, props_name, dict_mem.
  rewrite lookup_dict_set_other by discriminate.
  rewrite lookup_filter_none.
  - now rewrite lookup_dict_set_same.
  - intros v Hv. rewrite (H v Hv). reflexivity.
Qed.

Lemma upsert_client_script doc primary adviser items :
  upsert_client doc primary adviser (JDict items) =
  (let props := client_props doc primary items in
   UpsertClient (props_name props) (JDict props) ::
   (if truthy adviser then [LinkAdviser (props_name props) adviser] else []),
   Ok tt).
Proof.
  unfold upsert_client. simpl. destruct (truthy adviser); reflexivity.
Qed.

Lemma py_get_dict d k default : py_get (JDict d) k default = Ok (field d k default).
Proof. reflexivity. Qed.

Lemma adviser_stmt_eq adviser :
  (if truthy adviser then session_run (MergeAdviser adviser) else ret tt) =
  (adviser_part adviser, Ok tt).
Proof. unfold adviser_part. now destruct (truthy adviser). Qed.

Lemma lookup_some_truthy d k (v : json) : lookup k d = Some v -> truthy (JDict d) = true.
Proof. destruct d; [discriminate | reflexivity]. Qed.

Lemma all_dicts_ok doc primary adviser cs :
  forallb is_dict cs = true ->
  forall x, In x cs -> snd (upsert_client doc primary adviser x) = Ok tt.
Proof.
  intros H x Hx. rewrite forallb_forall in H. specialize (H x Hx).
  destruct x; try discriminate. now rewrite upsert_client_script.
Qed.

(** A record with no clients: the adviser merge at most. *)
Lemma no_clients_script (d : list (string * json)) (document_name : string) :
  truthy (field d "clients" (JList [])) = false ->
  build_graph_from_entities (JDict d) document_name =
    (adviser_part (field d "adviser" JNull), Ok tt).
Proof.
  intros Hc. unfold build_graph_from_entities.
  destruct (truthy (JDict d)) eqn:Ht; cbn [negb].
  - rewrite !py_get_dict, bind_lift_ok, adviser_stmt_eq.
    unfold bind at 1. rewrite bind_lift_ok, Hc. cbn [negb]. unfold ret.
    now rewrite app_nil_r.
  - destruct d; [reflexivity | discriminate].
Qed.

Lemma no_clients_no_adviser (d : list (string * json)) (document_name : string) st :
  truthy (field d "clients" (JList [])) = false ->
  truthy (field d "adviser" JNull) = false ->
  build (JDict d) document_name st = (st, Ok tt).
Proof.
  intros Hc Ha. unfold build. rewrite (no_clients_script d document_name Hc).
  unfold adviser_part. now rewrite Ha.
Qed.

(** *** C1 *)

(** C1 (as the code has it): for a record whose [clients] are missing or
    empty, the only statement a call issues is the Adviser merge, issued
    when the record names an adviser; with no adviser nothing is issued
    and the store is left exactly as it was, whatever its state. *)
Theorem no_clients_only_adviser (d : list (string * json)) (document_name : string) :
  truthy (field d "clients" (JList [])) = false ->
  build_graph_from_entities (JDict d) document_name =
    ((if truthy (field d "adviser" JNull)
      then [MergeAdviser (field d "adviser" JNull)] else []), Ok tt) /\
  (truthy (field d "adviser" JNull) = false ->
   forall st, build (JDict d) document_name st = (st, Ok tt)).
Proof.
  intros Hc. split.
  - exact (no_clients_script d document_name Hc).
  - intros Ha st. now apply no_clients_no_adviser.
Qed.

(** With a non-empty list of dicts under [clients], a call first issues
    the adviser merge and the statements of every client, in order. *)
Lemma build_clients_prefix d doc first rest :
  lookup "clients" d = Some (JList (JDict first :: rest)) ->
  forallb is_dict rest = true ->
  exists tail,
    fst (build_graph_from_entities (JDict d) doc) =
    adviser_part (field d "adviser" JNull) ++
    clients_part doc (primary_name doc first) (field d "adviser" JNull)
      (JDict first :: rest) ++ tail.
Proof.
  intros Hc Hd. unfold build_graph_from_entities.
  rewrite (lookup_some_truthy _ _ _ Hc). cbn [negb].
  assert (Hf : field d "clients" (JList []) = JList (JDict first :: rest))
    by (unfold field; now rewrite Hc).
  rewrite !py_get_dict, bind_lift_ok, adviser_stmt_eq.
  rewrite bind_fst. cbn [fst snd]. rewrite bind_lift_ok, Hf.
  cbn [truthy negb py_getitem0 py_iter].
  rewrite bind_lift_ok, py_get_dict. fold (primary_name doc first).
  rewrite !bind_lift_ok, bind_fst.
  rewrite for_each_all_ok by (apply all_dicts_ok; exact Hd).
  cbn [fst snd]. fold (clients_part doc (primary_name doc first) (field d "adviser" JNull)
                         (JDict first :: rest)).
  eexists. reflexivity.
Qed.

(** *** C5 *)

(** C5 (as the code has it): a client entry with no name (the key is
    missing, or bound to null) is upserted under the name of the primary
    client and tagged with [source_document]; that name is the placeholder
    [Unknown_<document_name>] exactly when the first entry of [clients]
    has no [name] key, and the first entry's own name otherwise. *)
Theorem nameless_client_gets_primary_name
    (d : list (string * json)) (document_name : string)
    (first : list (string * json)) (rest : list json) (items : list (string * json)) :
  lookup "clients" d = Some (JList (JDict first :: rest)) ->
  forallb is_dict rest = true ->
  In (JDict items) (JDict first :: rest) ->
  (forall v, In ("name", v) items -> v = JNull) ->
  exists props,
    In (UpsertClient (primary_name document_name first) (JDict props))
       (fst (build_graph_from_entities (JDict d) document_name)) /\
    lookup "source_document" props = Some (JStr document_name) /\
    lookup "name" props = Some (primary_name document_name first) /\
    (lookup "name" first = None ->
     primary_name document_name first = JStr ("Unknown_" ++ document_name)%string) /\
    (forall v, lookup "name" first = Some v -> primary_name document_name first = v).
Proof.
  intros Hc Hd Hin Hnone.
  destruct (build_clients_prefix d document_name first rest Hc Hd) as [tail E].
  set (primary := primary_name document_name first) in *.
  exists (client_props document_name primary items).
  assert (Hn : props_name (client_props document_name primary items) = primary)
    by now apply client_props_nameless.
  repeat split.
  - rewrite E. apply in_or_app. right. apply in_or_app. left.
    unfold clients_part. apply in_flat_map. exists (JDict items). split; [exact Hin |].
    rewrite upsert_client_script. cbn [fst]. left. now rewrite Hn.
  - apply client_props_source.
  - unfold client_props, dict_mem.
    rewrite lookup_dict_set_other by discriminate.
    rewrite lookup_filter_none.
    + apply lookup_dict_set_same.
    + intros v Hv. now rewrite (Hnone v Hv).
  - intros H0. unfold primary, primary_name, field. now rewrite H0.
  - intros v H0. unfold primary, primary_name, field. now rewrite H0.
Qed.

(** ** The batch loop, one document at a time *)

(** *** On a standard output that takes every line *)

Lemma mbind_ok {A B} (m : M A) (f : A -> M B) w w' a :
  m w = (w', Ok a) -> mbind m f w = f a w'.
Proof. intros E. unfold mbind. now rewrite E. Qed.

Lemma print_ok e w : reliable -> print e w = record e w.
Proof. intros H. unfold print. now rewrite H. Qed.

Lemma mbind_print {B} e (f : unit -> M B) w :
  reliable ->
  mbind (print e) f w = f tt (mkWorld (neo4j_store w) (log w ++ [e])).
Proof. intros H. unfold mbind. now rewrite print_ok. Qed.

Lemma read_docx_eq path w :
  reliable ->
  read_docx path w =
  (mkWorld (neo4j_store w) (log w ++ read_events path), Ok (text_of path)).
Proof.
  intros H. unfold read_docx, read_events, text_of.
  destruct (docx_text path) as [text | e].
  - destruct w. unfold mret. cbn. now rewrite app_nil_r.
  - now rewrite mbind_print.
Qed.

Lemma extract_entities_with_groq_eq text w :
  reliable ->
  extract_entities_with_groq text w =
  (mkWorld (neo4j_store w) (log w ++ extract_events text), Ok (record_of text)).
Proof.
  intros H. unfold extract_entities_with_groq, extract_events, record_of.
  destruct (groq_json text) as [j | e].
  - destruct w. unfold mret. cbn. now rewrite app_nil_r.
  - destruct e; repeat (rewrite mbind_print by exact H; cbv beta);
      unfold mret; cbn [neo4j_store log]; rewrite <- ?app_assoc; reflexivity.
Qed.

Lemma reliable_steady : reliable -> steady.
Proof. intros H lg e _. apply H. Qed.

Lemma pause_eq {A} total i (a : A) w :
  steady ->
  mbind (if Nat.ltb i total
         then mbind (print (Sleeping DELAY_BETWEEN_DOCS_SECONDS)) (fun _ =>
              sleep DELAY_BETWEEN_DOCS_SECONDS)
         else mret tt) (fun _ => mret a) w =
  (mkWorld (neo4j_store w) (log w ++ delay total i), Ok a).
Proof.
  intros H. unfold delay. destruct (Nat.ltb i total); unfold mbind at 1.
  - unfold mbind, print. rewrite H by reflexivity. unfold sleep, record, mret.
    cbn [neo4j_store log]. now rewrite <- app_assoc.
  - destruct w. unfold mret. cbn. now rewrite app_nil_r.
Qed.

Lemma iteration_eq total i f counts w :
  reliable ->
  iteration total i f counts w =
  (mkWorld (turn_store f (neo4j_store w))
           (log w ++ turn_events total i f (neo4j_store w)),
   Ok (if succeeds f (neo4j_store w)
       then (S (fst counts), snd counts)
       else (fst counts, S (snd counts)))).
Proof.
  intros H. destruct w as [st lg].
  unfold iteration, turn_events, succeeds, turn_store.
  rewrite mbind_print by exact H. cbn [neo4j_store log].
  unfold mbind at 1, try_except, try_block.
  rewrite (mbind_ok _ _ _ _ _ (read_docx_eq _ _ H)). cbn [neo4j_store log].
  destruct (String.eqb (text_of (filepath f)) "") eqn:Et;
    cbn [negb andb fst snd neo4j_store log].
  - rewrite mbind_print by exact H. unfold mret. cbn [fst snd neo4j_store log].
    rewrite <- !app_assoc. reflexivity.
  - repeat (rewrite mbind_print by exact H; cbv beta). cbn [neo4j_store log].
    rewrite (mbind_ok _ _ _ _ _ (extract_entities_with_groq_eq _ _ H)).
    cbn [neo4j_store log].
    destruct (truthy (record_of (text_of (filepath f)))) eqn:Ee;
      cbn [negb andb fst snd neo4j_store log].
    + unfold mbind at 1, with_session, build. cbn [neo4j_store log].
      destruct (run_session _ st) as [st' [[] | e]];
        cbn [fst snd is_ok neo4j_store log].
      * rewrite mbind_print by exact H. unfold mret at 1. cbn [fst snd neo4j_store log].
        rewrite pause_eq by exact (reliable_steady H). cbn [neo4j_store log].
        rewrite <- !app_assoc. reflexivity.
      * unfold except_block. rewrite mbind_print by exact H. unfold mret at 1.
        cbn [fst snd neo4j_store log].
        rewrite pause_eq by exact (reliable_steady H). cbn [neo4j_store log].
        rewrite <- !app_assoc. reflexivity.
    + rewrite mbind_print by exact H. unfold mret at 1. cbn [fst snd neo4j_store log].
      rewrite pause_eq by exact (reliable_steady H). cbn [neo4j_store log].
      rewrite <- !app_assoc. reflexivity.
Qed.

Lemma successes_le files st : successes files st <= List.length files.
Proof.
  revert st. induction files as [| f rest IH]; intros st; simpl; [lia |].
  specialize (IH (turn_store f st)). destruct (succeeds f st); lia.
Qed.

Lemma documents_loop_eq total files : forall i counts w,
  reliable ->
  documents_loop total i files counts w =
  (mkWorld (stores_after files (neo4j_store w))
           (log w ++ batch_events total i files (neo4j_store w)),
   Ok (fst counts + successes files (neo4j_store w),
       snd counts + (List.length files - successes files (neo4j_store w)))).
Proof.
  induction files as [| f rest IH]; intros i counts w H.
  - destruct w, counts. simpl. unfold mret. now rewrite app_nil_r, !Nat.add_0_r.
  - cbn [documents_loop]. unfold mbind at 1. rewrite iteration_eq, IH by exact H.
    cbn [neo4j_store log stores_after batch_events successes List.length fst snd].
    rewrite <- app_assoc.
    pose proof (successes_le rest (turn_store f (neo4j_store w))) as Hle.
    destruct (succeeds f (neo4j_store w)); cbn [fst snd];
      f_equal; f_equal; f_equal; lia.
Qed.

(** The constraint statements are run one by one with every error
    swallowed. *)
Lemma run_ignoring_eq ss : forall w,
  Forall (fun s => forall g, exec s g = Ok g) ss ->
  run_ignoring ss w =
  (mkWorld (mkStore (db (neo4j_store w))
                    (Nat.iter (List.length ss) attempt (faults (neo4j_store w))))
           (log w), Ok tt).
Proof.
  induction ss as [| s ss IH]; intros w Hs.
  - now destruct w as [[g fs] lg].
  - inversion Hs as [| ? ? Hx Hss]; subst.
    cbn [run_ignoring List.length]. rewrite Nat.iter_succ_r.
    unfold mbind at 1, try_except, with_session, run_session, session_run.
    cbn [fst snd exec_all]. unfold run_stmt. rewrite Hx.
    destruct w as [[g fs] lg]. cbn [neo4j_store db faults log].
    destruct fs as [| [| n] fs]; cbn [tick attempt]; unfold mret;
      rewrite IH by exact Hss; reflexivity.
Qed.

Lemma constraints_accepted : Forall (fun s => forall g, exec s g = Ok g) constraints.
Proof. unfold constraints. repeat constructor. Qed.

Lemma process_all_documents_eq docx_files w :
  reliable ->
  process_all_documents docx_files w =
  (mkWorld (stores_after docx_files (constrained (neo4j_store w)))
     (log w ++ header (List.length docx_files) ++
      batch_events (List.length docx_files) 1 docx_files (constrained (neo4j_store w)) ++
      footer (successes docx_files (constrained (neo4j_store w)))
             (List.length docx_files - successes docx_files (constrained (neo4j_store w)))),
   Ok (successes docx_files (constrained (neo4j_store w)),
       List.length docx_files - successes docx_files (constrained (neo4j_store w)))).
Proof.
  intros H. unfold process_all_documents, create_constraints.
  repeat (rewrite mbind_print by exact H; cbv beta).
  unfold mbind at 1. rewrite run_ignoring_eq by exact constraints_accepted.
  unfold mbind at 1. rewrite documents_loop_eq by exact H.
  cbn [neo4j_store log fst snd].
  repeat (rewrite mbind_print by exact H; cbv beta).
  unfold mret, header, footer, constrained. cbn [neo4j_store log].
  rewrite <- !app_assoc. reflexivity.
Qed.

Lemma started_app evs evs' : started (evs ++ evs') = started evs ++ started evs'.
Proof. unfold started. apply flat_map_app. Qed.

Lemma pace_app evs evs' : pace (evs ++ evs') = pace evs ++ pace evs'.
Proof. unfold pace. apply filter_app. Qed.

Lemma started_read path : started (read_events path) = [].
Proof. unfold read_events. now destruct (docx_text path). Qed.

Lemma started_extract text : started (extract_events text) = [].
Proof. unfold extract_events. now destruct (groq_json text) as [| []]. Qed.

Lemma pace_read path : pace (read_events path) = [].
Proof. unfold read_events. now destruct (docx_text path). Qed.

Lemma pace_extract text : pace (extract_events text) = [].
Proof. unfold extract_events. now destruct (groq_json text) as [| []]. Qed.

Lemma started_turn total i f st : started (turn_events total i f st) = [f].
Proof.
  unfold turn_events, delay.
  change (Processing i total f :: ?l) with ([Processing i total f] ++ l).
  rewrite !started_app, started_read.
  destruct (String.eqb _ ""); [reflexivity |].
  rewrite !started_app, started_extract.
  destruct (truthy _); [destruct (snd (build _ _ _)) |];
    destruct (Nat.ltb i total); reflexivity.
Qed.

Lemma pace_turn total i f st :
  pace (turn_events total i f st) = Processing i total f :: delay_after total i f.
Proof.
  unfold turn_events, delay, delay_after.
  change (Processing i total f :: ?l) with ([Processing i total f] ++ l) at 1.
  rewrite !pace_app, pace_read.
  destruct (String.eqb _ ""); [now rewrite andb_false_r |].
  rewrite andb_true_r, !pace_app, pace_extract.
  destruct (truthy _); [destruct (snd (build _ _ _)) |];
    destruct (Nat.ltb i total); reflexivity.
Qed.

Lemma started_batch total files : forall i st,
  started (batch_events total i files st) = files.
Proof.
  induction files as [| f rest IH]; intros i st; [reflexivity |].
  cbn [batch_events]. now rewrite started_app, started_turn, IH.
Qed.

Lemma pace_batch total files : forall i st,
  pace (batch_events total i files st) =
  flat_map (fun item => Processing (fst item) total (snd item) ::
                        delay_after total (fst item) (snd item))
           (combine (seq i (List.length files)) files).
Proof.
  induction files as [| f rest IH]; intros i st; [reflexivity |].
  cbn [batch_events List.length seq combine flat_map fst snd].
  now rewrite pace_app, pace_turn, IH.
Qed.

(** *** On any standard output *)

(** A calculus of postconditions for the code of the orchestrator. *)

Lemma wp_mret {A} (a : A) (Q : world -> result A -> Prop) w :
  Q w (Ok a) -> wp (mret a) Q w.
Proof. exact (fun H => H). Qed.

Lemma wp_mbind {A B} (m : M A) (f : A -> M B) (Q : world -> result B -> Prop) w :
  wp m (fun w' r => match r with
                    | Ok a => wp (f a) Q w'
                    | Raise e => Q w' (Raise e)
                    end) w ->
  wp (mbind m f) Q w.
Proof. unfold wp, mbind. now destruct (m w) as [w' [a | e]]. Qed.

Lemma wp_try_except {A} (m : M A) (h : exn -> M A) (Q : world -> result A -> Prop) w :
  wp m (fun w' r => match r with
                    | Ok a => Q w' (Ok a)
                    | Raise e => wp (h e) Q w'
                    end) w ->
  wp (try_except m h) Q w.
Proof. unfold wp, try_except. now destruct (m w) as [w' [a | e]]. Qed.

Lemma wp_try_finally {A} (m : M A) (fin : M unit) (Q : world -> result A -> Prop) w :
  wp m (fun w' r =>
          wp fin (fun w'' r' => match r' with
                                | Ok _ => Q w'' r
                                | Raise e => Q w'' (Raise e)
                                end) w') w ->
  wp (try_finally m fin) Q w.
Proof.
  unfold wp, try_finally. destruct (m w) as [w' r]. cbn [fst snd].
  now destruct (fin w') as [w'' [[] | e]].
Qed.

Lemma wp_conseq {A} (m : M A) (Q Q' : world -> result A -> Prop) w :
  (forall w' r, Q w' r -> Q' w' r) -> wp m Q w -> wp m Q' w.
Proof. intros H. apply H. Qed.

Lemma wp_record e (Q : world -> result unit -> Prop) w :
  Q (mkWorld (neo4j_store w) (log w ++ [e])) (Ok tt) -> wp (record e) Q w.
Proof. exact (fun H => H). Qed.

Lemma wp_print e (Q : world -> result unit -> Prop) w :
  Q (mkWorld (neo4j_store w) (log w ++ [e])) (Ok tt) ->
  (forall x, Q w (Raise x)) ->
  wp (print e) Q w.
Proof.
  intros Hok Hx. unfold wp, print.
  destruct (stdout_write (log w) e) as [[] | x]; [exact Hok | apply Hx].
Qed.

Lemma wp_print_steady e (Q : world -> result unit -> Prop) w :
  steady -> guarded e = false ->
  Q (mkWorld (neo4j_store w) (log w ++ [e])) (Ok tt) ->
  wp (print e) Q w.
Proof. intros Hs He Hok. unfold wp, print. now rewrite (Hs _ _ He). Qed.

Lemma wp_with_session {A} (body : W A) (Q : world -> result A -> Prop) w :
  Q (mkWorld (fst (run_session body (neo4j_store w))) (log w))
    (snd (run_session body (neo4j_store w))) ->
  wp (with_session body) Q w.
Proof.
  unfold wp, with_session. now destruct (run_session body (neo4j_store w)).
Qed.

(** The two helpers: what they return when they return, with guarded
    lines only and no access to the store. *)
Lemma wp_read_docx path (Q : world -> result string -> Prop) w :
  (forall evs r,
     Forall (fun e => guarded e = true) evs ->
     (r = Ok (text_of path) \/ exists x, r = Raise x) ->
     Q (mkWorld (neo4j_store w) (log w ++ evs)) r) ->
  wp (read_docx path) Q w.
Proof.
  intros H. unfold read_docx. unfold text_of in H.
  destruct (docx_text path) as [text | e].
  - apply wp_mret. specialize (H [] (Ok text)). rewrite app_nil_r in H.
    destruct w. apply H; [constructor | now left].
  - apply wp_mbind, wp_print.
    + apply (H [ReadError path e]); [now repeat constructor | now left].
    + intros x. specialize (H [] (Raise x)). rewrite app_nil_r in H.
      destruct w. apply H; [constructor | right; now exists x].
Qed.

Lemma wp_extract_entities_with_groq text (Q : world -> result json -> Prop) w :
  (forall evs r,
     Forall (fun e => guarded e = true) evs ->
     (r = Ok (record_of text) \/ exists x, r = Raise x) ->
     Q (mkWorld (neo4j_store w) (log w ++ evs)) r) ->
  wp (extract_entities_with_groq text) Q w.
Proof.
  intros H. unfold extract_entities_with_groq, record_of.
  assert (H0 : forall r, (r = Ok (record_of text) \/ exists x, r = Raise x) -> Q w r).
  { intros r Hr. specialize (H [] r). rewrite app_nil_r in H.
    destruct w. apply H; [constructor | exact Hr]. }
  unfold record_of in *.
  destruct (groq_json text) as [j | e].
  - apply wp_mret, H0. now left.
  - destruct e.
    all: try (apply wp_mbind, wp_print;
              [ apply (H [ExtractError _]); [now repeat constructor | now left]
              | intros x; apply H0; right; now exists x ]).
    apply wp_mbind, wp_print; [| intros x; apply H0; right; now exists x].
    apply wp_mbind, wp_print.
    + cbn [neo4j_store log]. rewrite <- app_assoc.
      apply (H [RateLimitHit RateLimitError; RateLimitHint]);
        [now repeat constructor | now left].
    + intros x. apply (H [RateLimitHit RateLimitError]);
        [now repeat constructor | right; now exists x].
Qed.

Lemma guarded_started evs :
  Forall (fun e => guarded e = true) evs -> started evs = [].
Proof.
  induction 1 as [| e evs He _ IH]; [reflexivity |].
  unfold started in *. cbn [flat_map]. rewrite IH. now destruct e.
Qed.

(** The [try] block on any standard output: it prints guarded lines only,
    leaves the store as it was or as the upsert call left it, and counts
    the document once when it returns: as a success when its text and its
    record were not empty (the upsert call has returned then), as a
    failure otherwise. *)
Lemma try_block_any f counts w :
  wp (try_block f counts)
     (fun w' r =>
        (exists evs, log w' = log w ++ evs /\ Forall (fun e => guarded e = true) evs) /\
        (neo4j_store w' = neo4j_store w \/
         neo4j_store w' = turn_store f (neo4j_store w)) /\
        match r with
        | Ok (_, c) =>
            (c = (fst counts, S (snd counts)) /\
             negb (String.eqb (text_of (filepath f)) "") &&
             truthy (record_of (text_of (filepath f))) = false) \/
            (c = (S (fst counts), snd counts) /\ succeeds f (neo4j_store w) = true)
        | Raise _ => True
        end) w.
Proof.
  assert (Hlog : forall evs,
             Forall (fun e => guarded e = true) evs ->
             exists evs', log w ++ evs = log w ++ evs' /\
                          Forall (fun e => guarded e = true) evs').
  { intros evs H. now exists evs. }
  unfold try_block. apply wp_mbind, wp_read_docx. intros evs r Hevs [-> | [x ->]].
  2: { cbn [neo4j_store log]. split; [now apply Hlog | split; [now left | exact I]]. }
  destruct (String.eqb (text_of (filepath f)) "") eqn:Et.
  - apply wp_mbind, wp_print; cbn [neo4j_store log].
    + apply wp_mret. cbn [neo4j_store log]. rewrite <- app_assoc.
      split; [apply Hlog, Forall_app; split; [exact Hevs | now repeat constructor] |].
      split; [now left |]. now left.
    + intros x. split; [now apply Hlog | split; [now left | exact I]].
  - apply wp_mbind, wp_print; cbn [neo4j_store log].
    2: { intros x. split; [now apply Hlog | split; [now left | exact I]]. }
    assert (H1 : Forall (fun e => guarded e = true)
                   (evs ++ [TextLength (String.length (text_of (filepath f)))]))
      by (apply Forall_app; split; [exact Hevs | now repeat constructor]).
    rewrite <- app_assoc. revert H1.
    generalize (evs ++ [TextLength (String.length (text_of (filepath f)))]).
    clear evs Hevs. intros evs Hevs.
    apply wp_mbind, wp_print; cbn [neo4j_store log].
    2: { intros x. split; [now apply Hlog | split; [now left | exact I]]. }
    assert (H1 : Forall (fun e => guarded e = true) (evs ++ [Extracting]))
      by (apply Forall_app; split; [exact Hevs | now repeat constructor]).
    rewrite <- app_assoc. revert H1. generalize (evs ++ [Extracting]).
    clear evs Hevs. intros evs Hevs.
    apply wp_mbind, wp_extract_entities_with_groq. cbn [neo4j_store log].
    intros evs2 r Hevs2 Hr. rewrite <- app_assoc.
    assert (H1 : Forall (fun e => guarded e = true) (evs ++ evs2))
      by (apply Forall_app; now split).
    revert H1. generalize (evs ++ evs2). clear evs Hevs evs2 Hevs2. intros evs Hevs.
    destruct Hr as [-> | [x ->]].
    2: { split; [now apply Hlog | split; [now left | exact I]]. }
    destruct (truthy (record_of (text_of (filepath f)))) eqn:Ee.
    + apply wp_mbind, wp_with_session. cbn [neo4j_store log].
      fold (build (record_of (text_of (filepath f))) (stem f) (neo4j_store w)).
      assert (Est : turn_store f (neo4j_store w) =
                    fst (build (record_of (text_of (filepath f))) (stem f) (neo4j_store w)))
        by (unfold turn_store; now rewrite Et, Ee).
      destruct (snd (build _ _ _)) as [[] | x] eqn:Eb.
      * apply wp_mbind, wp_print; cbn [neo4j_store log].
        -- apply wp_mret. cbn [neo4j_store log]. rewrite <- app_assoc.
           split; [apply Hlog, Forall_app; split; [exact Hevs | now repeat constructor] |].
           split; [now right |]. right. split; [reflexivity |].
           unfold succeeds. now rewrite Et, Ee, Eb.
        -- intros x. split; [now apply Hlog | split; [now right | exact I]].
      * split; [now apply Hlog | split; [now right | exact I]].
    + apply wp_mbind, wp_print; cbn [neo4j_store log].
      * apply wp_mret. cbn [neo4j_store log]. rewrite <- app_assoc.
        split; [apply Hlog, Forall_app; split; [exact Hevs | now repeat constructor] |].
        split; [now left |]. now left.
      * intros x. split; [now apply Hlog | split; [now left | exact I]].
Qed.

Lemma print_steady e w : steady -> guarded e = false -> print e w = record e w.
Proof. intros Hs He. unfold print. now rewrite (Hs _ _ He). Qed.

Lemma mbind_print_steady {B} e (k : unit -> M B) w :
  steady -> guarded e = false ->
  mbind (print e) k w = k tt (mkWorld (neo4j_store w) (log w ++ [e])).
Proof. intros Hs He. unfold mbind. now rewrite print_steady. Qed.

(** One turn when the lines printed outside the [try] block are taken:
    whatever is raised inside the block is caught, the turn returns and
    counts its document once. *)
Lemma iteration_steady total i f counts w :
  steady ->
  exists w' evs (ok : bool),
    iteration total i f counts w =
    (w', Ok (if ok then (S (fst counts), snd counts)
             else (fst counts, S (snd counts)))) /\
    log w' = log w ++ evs /\
    started evs = [f] /\
    (ok = true ->
     succeeds f (neo4j_store w) = true /\
     is_ok (snd (try_block f counts (fst (print (Processing i total f) w)))) = true).
Proof.
  intros Hs. unfold iteration.
  rewrite mbind_print_steady, print_steady by first [exact Hs | reflexivity].
  unfold record. cbn [fst].
  set (w1 := mkWorld (neo4j_store w) (log w ++ [Processing i total f])).
  pose proof (try_block_any f counts w1) as Ht. unfold wp in Ht.
  unfold mbind at 1, try_except.
  destruct (try_block f counts w1) as [w2 [[fl c] | x]]; cbn [fst snd] in Ht.
  - destruct Ht as ((evs & Hl & Hg) & _ & Hc). subst w1. cbn [log neo4j_store] in *.
    assert (Hok : exists ok : bool,
               c = (if ok then (S (fst counts), snd counts)
                    else (fst counts, S (snd counts))) /\
               (ok = true -> succeeds f (neo4j_store w) = true)).
    { destruct Hc as [[-> _] | [-> Hsu]]; [exists false | exists true]; split; auto.
      discriminate. }
    destruct Hok as (ok & -> & Hsu).
    destruct fl; cbn [fst snd].
    + exists w2, (Processing i total f :: evs), ok. unfold mret.
      split; [reflexivity |]. split; [now rewrite Hl, <- app_assoc |].
      split; [| now split; [apply Hsu |]].
      change (started ([Processing i total f] ++ evs) = [f]).
      now rewrite started_app, (guarded_started evs Hg).
    + rewrite pause_eq by exact Hs.
      exists (mkWorld (neo4j_store w2) (log w2 ++ delay total i)),
             (Processing i total f :: evs ++ delay total i), ok.
      split; [reflexivity |]. cbn [log].
      split; [now rewrite Hl, <- !app_assoc |].
      split; [| now split; [apply Hsu |]].
      change (started ([Processing i total f] ++ evs ++ delay total i) = [f]).
      rewrite !started_app, (guarded_started evs Hg).
      unfold delay. now destruct (Nat.ltb i total).
  - destruct Ht as ((evs & Hl & Hg) & _ & _). subst w1. cbn [log neo4j_store] in *.
    unfold except_block. rewrite mbind_print_steady by first [exact Hs | reflexivity].
    unfold mret at 1. cbn [fst snd neo4j_store log].
    rewrite pause_eq by exact Hs. cbn [neo4j_store log].
    do 2 eexists. exists false. split; [reflexivity |]. cbn [log].
    split; [rewrite Hl, <- !app_assoc; reflexivity |].
    split; [| discriminate].
    change (started ([Processing i total f] ++ evs ++ [CriticalError x] ++
                     delay total i) = [f]).
    rewrite !started_app, (guarded_started evs Hg).
    unfold delay. now destruct (Nat.ltb i total).
Qed.

(** One turn on any standard output: when it returns, it has counted its
    document as a success exactly when the text and the record were not
    empty and nothing was raised inside the [try] block. *)
Lemma iteration_counts total i f counts w w' c :
  iteration total i f counts w = (w', Ok c) ->
  c = (if negb (String.eqb (text_of (filepath f)) "") &&
          truthy (record_of (text_of (filepath f))) &&
          is_ok (snd (try_block f counts (fst (print (Processing i total f) w))))
       then (S (fst counts), snd counts)
       else (fst counts, S (snd counts))).
Proof.
  unfold iteration. unfold mbind at 1.
  destruct (print (Processing i total f) w) as [w1 [[] | x]]; [| discriminate].
  cbn [fst]. pose proof (try_block_any f counts w1) as Ht. unfold wp in Ht.
  unfold mbind at 1, try_except.
  assert (Hrest : forall (r : flow * (nat * nat)) w2,
             match fst r with
             | Continue => mret (snd r)
             | Fallthrough =>
                 mbind (if Nat.ltb i total
                        then mbind (print (Sleeping DELAY_BETWEEN_DOCS_SECONDS)) (fun _ =>
                             sleep DELAY_BETWEEN_DOCS_SECONDS)
                        else mret tt) (fun _ => mret (snd r))
             end w2 = (w', Ok c) -> c = snd r).
  { intros [fl c0] w2. cbn [fst snd]. destruct fl; unfold mret.
    - now intros [= _ <-].
    - unfold mbind at 1.
      match goal with
      | |- context [match ?m w2 with _ => _ end] => destruct (m w2) as [w3 [[] | x]]
      end; [now intros [= _ <-] | discriminate]. }
  destruct (try_block f counts w1) as [w2 [[fl c0] | x]]; cbn [fst snd is_ok] in *.
  - intros H. apply (Hrest (fl, c0)) in H. cbn [snd] in H. subst c0.
    destruct Ht as (_ & _ & [[-> Hf] | [-> Hs]]).
    + now rewrite Hf.
    + unfold succeeds in Hs. apply andb_prop in Hs as [-> _]. reflexivity.
  - rewrite andb_false_r. unfold except_block. unfold mbind at 1.
    destruct (print (CriticalError x) w2) as [w3 [[] | y]]; [| discriminate].
    unfold mret at 1. intros H.
    apply (Hrest (Fallthrough, (fst counts, S (snd counts)))) in H. exact H.
Qed.

Lemma documents_loop_steady total files : forall i counts w,
  steady ->
  exists w' evs successful,
    documents_loop total i files counts w =
    (w', Ok (fst counts + successful, snd counts + (List.length files - successful))) /\
    successful <= List.length files /\
    log w' = log w ++ evs /\
    started evs = files.
Proof.
  induction files as [| f rest IH]; intros i counts w Hs.
  - exists w, [], 0. destruct counts. cbn. unfold mret.
    rewrite !Nat.add_0_r, app_nil_r. auto.
  - destruct (iteration_steady total i f counts w Hs) as (w1 & evs1 & ok & E1 & Hl1 & Hst1 & _).
    cbn [documents_loop]. unfold mbind at 1. rewrite E1.
    destruct (IH (S i) (if ok then (S (fst counts), snd counts)
                        else (fst counts, S (snd counts))) w1 Hs)
      as (w2 & evs2 & s & E2 & Hle & Hl2 & Hst2).
    rewrite E2. exists w2, (evs1 ++ evs2), ((if ok then 1 else 0) + s).
    split; [| split; [| split]].
    + destruct ok; cbn [fst snd List.length]; f_equal; f_equal; f_equal; lia.
    + destruct ok; cbn [List.length]; lia.
    + now rewrite Hl2, Hl1, app_assoc.
    + now rewrite started_app, Hst1, Hst2.
Qed.

Lemma process_all_documents_steady docx_files w :
  steady ->
  exists w' successful failed evs,
    process_all_documents docx_files w = (w', Ok (successful, failed)) /\
    successful + failed = List.length docx_files /\
    log w' = log w ++ evs /\
    started evs = docx_files.
Proof.
  intros Hs. unfold process_all_documents, create_constraints.
  repeat (rewrite mbind_print_steady by first [exact Hs | reflexivity]; cbv beta).
  cbn [neo4j_store log].
  unfold mbind at 1. rewrite run_ignoring_eq by exact constraints_accepted.
  cbn [neo4j_store log].
  match goal with
  | |- context [mbind (documents_loop ?t ?i ?fs ?c) _ ?w0] =>
      destruct (documents_loop_steady t fs i c w0 Hs) as (w1 & evs & s & E & Hle & Hl & Hst)
  end.
  unfold mbind at 1. rewrite E. cbn [fst snd].
  repeat (rewrite mbind_print_steady by first [exact Hs | reflexivity]; cbv beta).
  cbn [neo4j_store log].
  unfold mret. do 4 eexists. split; [reflexivity |]. cbn [log] in *.
  split; [lia |]. rewrite Hl, <- !app_assoc.
  split; [reflexivity |].
  rewrite !started_app, Hst. cbn. apply app_nil_r.
Qed.

Lemma text_of_raise path : is_ok (docx_text path) = false -> text_of path = "".
Proof. unfold text_of. now destruct (docx_text path). Qed.

Lemma record_of_raise text : is_ok (groq_json text) = false -> truthy (record_of text) = false.
Proof. unfold record_of. now destruct (groq_json text). Qed.

Lemma succeeds_inv f st :
  succeeds f st = true ->
  text_of (filepath f) <> "" /\
  is_ok (docx_text (filepath f)) = true /\
  is_ok (groq_json (text_of (filepath f))) = true /\
  truthy (record_of (text_of (filepath f))) = true /\
  is_ok (snd (build (record_of (text_of (filepath f))) (stem f) st)) = true.
Proof.
  unfold succeeds. intros H.
  apply andb_prop in H as [H Hb]. apply andb_prop in H as [Ht Hr].
  apply negb_true_iff, String.eqb_neq in Ht.
  split; [exact Ht |]. split; [| split; [| split; [exact Hr | exact Hb]]].
  - destruct (is_ok (docx_text (filepath f))) eqn:E; [reflexivity |].
    now apply text_of_raise in E.
  - destruct (is_ok (groq_json (text_of (filepath f)))) eqn:E; [reflexivity |].
    apply record_of_raise in E. congruence.
Qed.

(** *** C6 *)

(** C6 (as the code has it): provided standard output takes the lines
    printed outside the [try] block (the header, the announcement of a
    document, the line of the [except] handler, the announcement of the
    sleep and the summary), the batch returns normally whatever the
    files, the two services, the store and the lines printed inside the
    block do; every file is announced, in order, and is counted exactly
    once; and a turn whose read raised, whose text is empty, whose
    extraction raised or gave an empty record, or whose [try] block
    raised (a graph write or a refused line among others) returns
    normally with the failure counter advanced by one. *)
Theorem batch_survives_every_failure (docx_files : list docx_file) (w : world) :
  steady ->
  (exists w' successful failed evs,
     process_all_documents docx_files w = (w', Ok (successful, failed)) /\
     successful + failed = List.length docx_files /\
     log w' = log w ++ evs /\
     started evs = docx_files) /\
  (forall total i f counts w0,
     exists w1 counts',
       iteration total i f counts w0 = (w1, Ok counts') /\
       (is_ok (docx_text (filepath f)) = false \/
        text_of (filepath f) = "" \/
        is_ok (groq_json (text_of (filepath f))) = false \/
        truthy (record_of (text_of (filepath f))) = false \/
        is_ok (snd (try_block f counts (fst (print (Processing i total f) w0)))) = false ->
        counts' = (fst counts, S (snd counts)))).
Proof.
  intros Hs. split; [now apply process_all_documents_steady |].
  intros total i f counts w0.
  destruct (iteration_steady total i f counts w0 Hs) as (w1 & evs & ok & E & _ & _ & Hok).
  exists w1. eexists. split; [exact E |]. intros H.
  destruct ok; [| reflexivity].
  destruct (Hok eq_refl) as [Hsu Hb].
  apply succeeds_inv in Hsu as (Ht & Hd & Hg & Hr & _).
  destruct H as [H | [H | [H | [H | H]]]]; congruence.
Qed.

(** *** C8 *)

(** C8 (as the code has it): on a standard output that takes every line,
    the batch announces the files in order and sleeps the fixed delay
    after a document exactly when it is not the last one and its text was
    not empty: [continue] on an empty text goes straight to the next
    file. *)
Theorem delay_between_documents (docx_files : list docx_file) (w : world) :
  reliable ->
  exists w' counts evs,
    process_all_documents docx_files w = (w', Ok counts) /\
    log w' = log w ++ evs /\
    pace evs =
    flat_map (fun item =>
                Processing (fst item) (List.length docx_files) (snd item) ::
                delay_after (List.length docx_files) (fst item) (snd item))
             (combine (seq 1 (List.length docx_files)) docx_files).
Proof.
  intros H. rewrite process_all_documents_eq by exact H.
  do 3 eexists. split; [reflexivity |]. cbn [log]. split; [reflexivity |].
  rewrite !pace_app, pace_batch. cbn. apply app_nil_r.
Qed.

(** *** C10 *)

(** C10: a turn that returns has counted its document as a success
    exactly when the text is not empty, the extracted record is not empty
    and nothing is raised inside the [try] block (by the upsert call or
    by a line standard output refuses); otherwise as a failure.  On a
    standard output that takes every line the turn does return, and what
    can raise is the upsert call alone.  A non-empty record with neither
    clients nor an adviser is therefore a success although the store is
    left untouched. *)
Theorem nonempty_record_counts_as_success
    (total i : nat) (f : docx_file) (counts : nat * nat) (w : world) :
  (forall w' c,
     iteration total i f counts w = (w', Ok c) ->
     c = (if negb (String.eqb (text_of (filepath f)) "") &&
             truthy (record_of (text_of (filepath f))) &&
             is_ok (snd (try_block f counts (fst (print (Processing i total f) w))))
          then (S (fst counts), snd counts)
          else (fst counts, S (snd counts)))) /\
  (reliable ->
   (exists w',
      iteration total i f counts w =
      (w', Ok (if negb (String.eqb (text_of (filepath f)) "") &&
                  truthy (record_of (text_of (filepath f))) &&
                  is_ok (snd (build (record_of (text_of (filepath f)))
                                (stem f) (neo4j_store w)))
               then (S (fst counts), snd counts)
               else (fst counts, S (snd counts))))) /\
   (forall d,
      text_of (filepath f) <> "" ->
      record_of (text_of (filepath f)) = JDict d ->
      d <> [] ->
      truthy (field d "clients" (JList [])) = false ->
      truthy (field d "adviser" JNull) = false ->
      iteration total i f counts w =
      (mkWorld (neo4j_store w)
         (log w ++ [Processing i total f;
                    TextLength (String.length (text_of (filepath f)));
                    Extracting;
                    GraphUpdated] ++ delay total i),
       Ok (S (fst counts), snd counts)))).
Proof.
  split; [intros w' c; apply iteration_counts |].
  intros H. split.
  - rewrite iteration_eq by exact H. eexists. reflexivity.
  - intros d Ht Hd Hne Hc Ha. rewrite iteration_eq by exact H.
    assert (Etxt : String.eqb (text_of (filepath f)) "" = false)
      by (apply String.eqb_neq; exact Ht).
    assert (Etr : truthy (JDict d) = true) by (destruct d; [contradiction | reflexivity]).
    assert (Er : read_events (filepath f) = []).
    { unfold read_events. unfold text_of in Ht.
      destruct (docx_text (filepath f)); [reflexivity | contradiction]. }
    assert (Ee : extract_events (text_of (filepath f)) = []).
    { unfold extract_events. unfold record_of in Hd.
      destruct (groq_json (text_of (filepath f))); [reflexivity |].
      injection Hd as <-. contradiction. }
    unfold succeeds, turn_store, turn_events. rewrite Er, Ee, Hd.
    rewrite (no_clients_no_adviser d (stem f) (neo4j_store w) Hc Ha).
    rewrite Etxt, Etr. cbn [negb andb fst snd is_ok app]. reflexivity.
Qed.

(** *** C7 *)

(** C7 (as the code has it): with [GROQ_API_KEY] unset or empty, [main]
    does nothing but print the error: no driver is built, no store session
    is opened, no file is read and no document is processed.  When the
    line is taken [main] returns; it raises what standard output raises
    otherwise, with nothing printed. *)
Theorem missing_api_key_aborts
    (env : environ) (documents_dir : option (list docx_file)) (w : world) :
  unset (GROQ_API_KEY env) = true ->
  main env documents_dir w = print MissingApiKey w /\
  neo4j_store (fst (main env documents_dir w)) = neo4j_store w /\
  (stdout_write (log w) MissingApiKey = Ok tt ->
   main env documents_dir w =
   (mkWorld (neo4j_store w) (log w ++ [MissingApiKey]), Ok tt)) /\
  (forall x, stdout_write (log w) MissingApiKey = Raise x ->
             main env documents_dir w = (w, Raise x)).
Proof.
  intros H. unfold main. rewrite H. unfold print.
  split; [reflexivity |].
  destruct (stdout_write (log w) MissingApiKey) as [[] | x].
  - split; [reflexivity |]. split; [reflexivity | discriminate].
  - split; [reflexivity |]. split; [discriminate | now intros ? [= ->]].
Qed.

(** ** Store theory: how a statement changes the nodes of one label *)

Lemma keys_of_app c c' : keys_of (c ++ c') = keys_of c ++ keys_of c'.
Proof.
  induction c as [| [v |] c IH]; simpl; [reflexivity | now rewrite IH | exact IH].
Qed.

Lemma label_eqb_refl l : label_eqb l l = true.
Proof. unfold label_eqb. destruct (label_eq_dec l l); congruence. Qed.

Lemma label_eqb_eq l l' : label_eqb l l' = true <-> l = l'.
Proof. unfold label_eqb. destruct (label_eq_dec l l'); split; congruence. Qed.

Lemma label_eqb_neq l l' : l <> l' -> label_eqb l l' = false.
Proof. unfold label_eqb. destruct (label_eq_dec l l'); congruence. Qed.

Lemma pval_eqb_eq p q : pval_eqb p q = true <-> p = q.
Proof. unfold pval_eqb. destruct (pval_eq_dec p q); split; congruence. Qed.

Lemma has_cell l p n : has l (key_of l) p n = true <-> cell l n = Some (Some p).
Proof.
  unfold has, cell. destruct (label_eqb (n_label n) l); simpl.
  - destruct (lookup (key_of l) (n_props n)) as [q |].
    + rewrite pval_eqb_eq. split; congruence.
    + split; discriminate.
  - split; discriminate.
Qed.

Lemma has_label l k p n : has l k p n = true -> n_label n = l.
Proof.
  unfold has. intros H. apply andb_true_iff in H as [H _]. now apply label_eqb_eq.
Qed.

Lemma in_keys_of v c : In v (keys_of c) <-> In (Some v) c.
Proof.
  induction c as [| [w |] c IH]; simpl.
  - tauto.
  - rewrite IH. split; intros [H | H]; auto; left; congruence.
  - rewrite IH. split; [auto | intros [H | H]; [discriminate | exact H]].
Qed.

Lemma existsb_has l p g :
  existsb (has l (key_of l) p) (nodes g) = true <-> In (Some p) (table l g).
Proof.
  unfold table, column. rewrite in_keys_of, existsb_exists, in_map_iff.
  split; intros [n [H1 H2]]; exists n.
  - split; [now apply has_cell | exact H1].
  - split; [exact H2 | now apply has_cell].
Qed.

Lemma cell_fresh_same l p : cell l (mkNode l [(key_of l, p)]) = Some (Some p).
Proof.
  unfold cell. cbn [n_label n_props lookup].
  now rewrite label_eqb_refl, String.eqb_refl.
Qed.

Lemma cell_other l l0 m : l0 <> l -> cell l (mkNode l0 m) = None.
Proof. intros H. unfold cell. cbn [n_label]. now rewrite label_eqb_neq. Qed.

(** [MERGE] on the label looked at: the node is appended when its key is
    new. *)
Lemma column_merge_same l p g :
  column l (merge_node l (key_of l) p g) =
  column l g ++
  (if existsb (has l (key_of l) p) (nodes g) then [] else [Some (Some p)]).
Proof.
  unfold merge_node, column.
  destruct (existsb _ _); [now rewrite app_nil_r |].
  cbn [nodes]. rewrite map_app. cbn [map]. now rewrite cell_fresh_same.
Qed.

(** [MERGE] on another label adds at most a node of that other label. *)
Lemma column_merge_other l l0 k0 p0 g :
  l0 <> l ->
  column l (merge_node l0 k0 p0 g) =
  column l g ++ (if existsb (has l0 k0 p0) (nodes g) then [] else [None]).
Proof.
  intros Hne. unfold merge_node, column.
  destruct (existsb _ _); [now rewrite app_nil_r |].
  cbn [nodes]. rewrite map_app. cbn [map]. now rewrite cell_other.
Qed.

(** [SET] leaves the column alone when it keeps the key of what it
    touches. *)
Lemma column_set_where l l0 k0 p0 f g :
  (forall n, has l0 k0 p0 n = true ->
             cell l (mkNode (n_label n) (f (n_props n))) = cell l n) ->
  column l (set_where l0 k0 p0 f g) = column l g.
Proof.
  intros H. unfold column, set_where. cbn [nodes]. rewrite map_map.
  apply map_ext_in. intros n _.
  destruct (has l0 k0 p0 n) eqn:E; [now apply H | reflexivity].
Qed.

Lemma nodes_merge_rels rs : forall g, nodes (merge_rels rs g) = nodes g.
Proof.
  unfold merge_rels. induction rs as [| r rs IH]; intros g; simpl; [reflexivity |].
  rewrite IH. unfold merge_rel. now destruct (in_dec rel_eq_dec r (rels g)).
Qed.

Lemma column_merge_rels l rs g : column l (merge_rels rs g) = column l g.
Proof. unfold column. now rewrite nodes_merge_rels. Qed.

(** *** Property maps under [SET +=] *)

Lemma lookup_remove_same k (m : pmap) : lookup k (pmap_remove k m) = None.
Proof.
  unfold pmap_remove. induction m as [| [k' v] m IH]; simpl; [reflexivity |].
  destruct (String.eqb k k') eqn:E; simpl; [exact IH | now rewrite E].
Qed.

Lemma lookup_remove_other k k' (m : pmap) :
  k' <> k -> lookup k' (pmap_remove k m) = lookup k' m.
Proof.
  intros Hne. unfold pmap_remove. induction m as [| [k0 v] m IH]; simpl; [reflexivity |].
  destruct (String.eqb k k0) eqn:E; simpl.
  - apply String.eqb_eq in E. subst k0.
    destruct (String.eqb k' k) eqn:E'; [apply String.eqb_eq in E'; contradiction | exact IH].
  - destruct (String.eqb k' k0); [reflexivity | exact IH].
Qed.

Lemma lookup_apply_updates k us m :
  lookup k (apply_updates us m) =
  match lookup k us with
  | Some u => u
  | None => lookup k m
  end.
Proof.
  induction us as [| [k' u] us IH]; simpl; [reflexivity |].
  unfold apply_update. cbn [fst snd].
  destruct (String.eqb k k') eqn:E.
  - apply String.eqb_eq in E. subst k'.
    destruct u as [p |]; [apply lookup_dict_set_same | apply lookup_remove_same].
  - assert (Hne : k <> k') by (intros ->; rewrite String.eqb_refl in E; discriminate).
    destruct u as [p |];
      [rewrite lookup_dict_set_other by exact Hne
      | rewrite lookup_remove_other by exact Hne]; exact IH.
Qed.

Lemma lookup_to_updates k d us :
  to_updates d = Some us ->
  lookup k us =
  match lookup k d with
  | Some v => to_update v
  | None => None
  end.
Proof.
  revert us. induction d as [| [k' v] d IH]; intros us H; simpl in *.
  - inversion H. reflexivity.
  - destruct (to_update v) as [u |] eqn:Eu; [| discriminate].
    destruct (to_updates d) as [us' |]; [| discriminate].
    inversion H; subst. simpl.
    destruct (String.eqb k k'); [now rewrite Eu | now apply IH].
Qed.

Lemma to_update_value v u : to_update v = Some u -> u = to_pval v.
Proof.
  destruct v; cbn; intros H; try (now inversion H).
  destruct (to_scalars l) as [xs |]; [| discriminate].
  cbn in *. destruct (homogeneous xs); cbn in *; now inversion H.
Qed.

(** Under [SET n += $props] a key of the map ends with the value the map
    gives it (none for [null]); the other keys keep theirs. *)
Lemma lookup_updates_value k d us :
  to_updates d = Some us -> lookup k us = option_map to_pval (lookup k d).
Proof.
  revert us. induction d as [| [k' v] d IH]; intros us H; cbn in *.
  - inversion H. reflexivity.
  - destruct (to_update v) as [u |] eqn:Eu; [| discriminate].
    destruct (to_updates d) as [us' |]; [| discriminate].
    inversion H; subst. cbn.
    destruct (String.eqb k k'); [| now apply IH].
    cbn. now rewrite (to_update_value v u Eu).
Qed.

Lemma lookup_after_set k d us pm :
  to_updates d = Some us ->
  lookup k (apply_updates us pm) =
  match lookup k d with
  | Some v => to_pval v
  | None => lookup k pm
  end.
Proof.
  intros H. rewrite lookup_apply_updates, (lookup_updates_value k d us H).
  now destruct (lookup k d).
Qed.

Lemma to_update_of_pval x p : to_pval x = Some p -> to_update x = Some (Some p).
Proof.
  intros H. destruct x; simpl in *; try discriminate; unfold to_update;
    try (now rewrite H); now inversion H.
Qed.

Lemma kept_lookup k x m pre us p pm :
  kept k x m ->
  to_pval x = Some p ->
  props_param m = Some us ->
  (forall pm', lookup k (pre pm') = lookup k pm') ->
  lookup k pm = Some p ->
  lookup k (apply_updates us (pre pm)) = Some p.
Proof.
  intros Hk Hx Hus Hpre Hpm. rewrite lookup_apply_updates.
  destruct m; try discriminate. simpl in Hus.
  rewrite (lookup_to_updates k _ _ Hus).
  destruct (lookup k d) as [v |] eqn:E.
  - rewrite (Hk d v eq_refl E). now rewrite (to_update_of_pval _ _ Hx).
  - now rewrite Hpre.
Qed.

(** *** One statement *)

Lemma grows_refl x c : grows x c c.
Proof. exists []. split; [now rewrite app_nil_r | now left]. Qed.

Lemma grows_none_trans x c1 c2 c3 :
  grows None c1 c2 -> grows x c2 c3 -> grows x c1 c3.
Proof.
  intros (e1 & -> & H1) (e2 & -> & H2).
  destruct H1 as [H1 | (y & p & Hy & _)]; [| discriminate].
  exists (e1 ++ e2). split; [now rewrite app_assoc |].
  rewrite keys_of_app, H1. cbn [app].
  destruct H2 as [H2 | (y & p & Hy & Hp & Hk & Hn)]; [now left | right].
  exists y, p. repeat split; auto. intros Hin. apply Hn. apply in_or_app. now left.
Qed.

Lemma grows_trans_none x c1 c2 c3 :
  grows x c1 c2 -> grows None c2 c3 -> grows x c1 c3.
Proof.
  intros (e1 & -> & H1) (e2 & -> & H2).
  destruct H2 as [H2 | (y & p & Hy & _)]; [| discriminate].
  exists (e1 ++ e2). split; [now rewrite app_assoc |].
  rewrite keys_of_app, H2, app_nil_r. exact H1.
Qed.

Lemma merge_grows_same l x p g :
  to_pval x = Some p ->
  grows (Some x) (column l g) (column l (merge_node l (key_of l) p g)) /\
  In (Some (Some p)) (column l (merge_node l (key_of l) p g)).
Proof.
  intros Hx. rewrite column_merge_same.
  destruct (existsb (has l (key_of l) p) (nodes g)) eqn:E.
  - rewrite app_nil_r. split; [apply grows_refl |].
    apply existsb_has in E. now apply in_keys_of.
  - split.
    + exists [Some (Some p)]. split; [reflexivity | right].
      exists x, p. repeat split; auto.
      intros Hin. apply in_keys_of in Hin. apply existsb_has in Hin. congruence.
    + apply in_or_app. right. now left.
Qed.

Lemma merge_grows_other l l0 k0 p0 g :
  l0 <> l -> grows None (column l g) (column l (merge_node l0 k0 p0 g)).
Proof.
  intros Hne. rewrite column_merge_other by exact Hne.
  destruct (existsb _ _); [rewrite app_nil_r; apply grows_refl |].
  exists [None]. split; [reflexivity | now left].
Qed.

(** The [SET] of a merged node, for a column it cannot disturb. *)
Lemma set_column l l0 x p m us pre g :
  (l0 = l -> kept (key_of l0) x m) ->
  to_pval x = Some p ->
  props_param m = Some us ->
  (forall pm, lookup (key_of l0) (pre pm) = lookup (key_of l0) pm) ->
  column l (set_where l0 (key_of l0) p (fun pm => apply_updates us (pre pm)) g) =
  column l g.
Proof.
  intros Hk Hx Hus Hpre. apply column_set_where. intros n Hn.
  destruct (label_eq_dec l0 l) as [<- | Hne].
  - apply has_cell in Hn. unfold cell in *. cbn [n_label n_props].
    destruct (label_eqb (n_label n) l0); [| reflexivity].
    inversion Hn as [Hl]. f_equal. rewrite Hl.
    apply (kept_lookup _ x m pre us p); auto.
  - apply has_label in Hn. unfold cell. cbn [n_label]. rewrite Hn.
    now rewrite label_eqb_neq.
Qed.

Lemma upsert_linked_grows l cs l0 t pre id m g g' :
  key_of l0 = "id" ->
  (l0 = l -> kept "id" id m) ->
  (forall pm, lookup "id" (pre pm) = lookup "id" pm) ->
  upsert_linked cs l0 t pre id m g = Ok g' ->
  grows (if label_eq_dec l0 l then Some id else None) (column l g) (column l g') /\
  (cs <> [] -> l0 = l ->
   exists p, to_pval id = Some p /\ In (Some (Some p)) (column l g')).
Proof.
  intros Hkey Hk Hpre H. unfold upsert_linked in H.
  destruct cs as [| c cs].
  { inversion H; subst. split; [apply grows_refl | intros Hc; now elim Hc]. }
  destruct (to_pval id) as [p |] eqn:Hp; [| discriminate].
  destruct (props_param m) as [us |] eqn:Hus; [| discriminate].
  inversion H; subst; clear H.
  rewrite column_merge_rels. rewrite <- Hkey in *.
  rewrite (set_column l l0 id p m us pre); auto.
  destruct (label_eq_dec l0 l) as [<- | Hne].
  - destruct (merge_grows_same l0 id p g Hp) as [Hg Hin].
    split; [exact Hg |]. intros _ _. now exists p.
  - split; [now apply merge_grows_other | intros _ E; contradiction].
Qed.

(** The change a statement makes to the column of [l]. *)
Lemma exec_grows l s g g' :
  keeps l s ->
  exec s g = Ok g' ->
  grows (merged s l) (column l g) (column l g').
Proof.
  intros Hk H. destruct s; simpl in H, Hk.
  - inversion H; subst. apply grows_refl.
  - destruct (to_pval name) as [p |] eqn:Hp; [| discriminate]. inversion H; subst.
    destruct (label_eq_dec Adviser l) as [<- | Hne].
    + apply (merge_grows_same Adviser name p g Hp).
    + replace (merged (MergeAdviser name) l) with (@None json)
        by (destruct l; try reflexivity; congruence).
      now apply merge_grows_other.
  - destruct (to_pval name) as [p |] eqn:Hp; [| discriminate].
    destruct (props_param props) as [us |] eqn:Hus; [| discriminate].
    inversion H; subst; clear H.
    change "name" with (key_of Client).
    rewrite (set_column l Client name p props us (fun pm => pm)); auto.
    destruct (label_eq_dec Client l) as [<- | Hne].
    + apply (merge_grows_same Client name p g Hp).
    + replace (merged (UpsertClient name props) l) with (@None json)
        by (destruct l; try reflexivity; congruence).
      now apply merge_grows_other.
  - inversion H; subst. rewrite column_merge_rels.
    replace (merged (LinkAdviser c_name a_name) l) with (@None json)
      by (now destruct l).
    apply grows_refl.
  - apply (upsert_linked_grows l) in H as [H _]; auto.
    destruct (label_eq_dec Dependant l) as [<- | Hne]; [exact H |].
    replace (merged (UpsertDependant p_name id props) l) with (@None json)
      by (destruct l; try reflexivity; congruence). exact H.
  - apply (upsert_linked_grows l) in H as [H _]; auto.
    destruct (label_eq_dec Property l) as [<- | Hne]; [exact H |].
    replace (merged (UpsertProperty c_name id props) l) with (@None json)
      by (destruct l; try reflexivity; congruence). exact H.
  - destruct (to_pval owner) as [p |] eqn:Hp; [| discriminate].
    apply (upsert_linked_grows l) in H as [H _]; auto.
    destruct (label_eq_dec Client l) as [<- | Hc].
    + cbn in H. cbn [merged].
      eapply grows_trans_none; [apply (merge_grows_same Client owner p g Hp) | exact H].
    + eapply grows_none_trans; [apply merge_grows_other; exact Hc |].
      destruct (label_eq_dec Pension l) as [<- | Hne]; [exact H |].
      replace (merged (UpsertPension owner id props) l) with (@None json)
        by (destruct l; try reflexivity; congruence). exact H.
  - destruct (to_pval owner) as [p |] eqn:Hp; [| discriminate].
    apply (upsert_linked_grows l) in H as [H _]; auto.
    destruct (label_eq_dec Client l) as [<- | Hc].
    + cbn in H. cbn [merged].
      eapply grows_trans_none; [apply (merge_grows_same Client owner p g Hp) | exact H].
    + eapply grows_none_trans; [apply merge_grows_other; exact Hc |].
      destruct (label_eq_dec Investment l) as [<- | Hne]; [exact H |].
      replace (merged (UpsertInvestment owner id props) l) with (@None json)
        by (destruct l; try reflexivity; congruence). exact H.
  - apply (upsert_linked_grows l) in H as [H _]; auto.
    + destruct (label_eq_dec Goal l) as [<- | Hne]; [exact H |].
      replace (merged (UpsertGoal name id props) l) with (@None json)
        by (destruct l; try reflexivity; congruence). exact H.
    + intros pm. now rewrite lookup_dict_set_other.
Qed.

(** *** Counting and locating the nodes with a given key *)

Lemma has_is_key l p n : has l (key_of l) p n = is_key p (cell l n).
Proof.
  unfold has, cell, is_key. destruct (label_eqb (n_label n) l); simpl; [| reflexivity].
  now destruct (lookup (key_of l) (n_props n)).
Qed.

Lemma find_hits l p g : find l (key_of l) p g = hits 0 p (column l g).
Proof.
  unfold find, column. generalize 0. induction (nodes g) as [| n ns IH]; intros i; simpl.
  - reflexivity.
  - rewrite has_is_key, IH. reflexivity.
Qed.

Lemma hits_app p c e : forall i,
  hits i p (c ++ e) = hits i p c ++ hits (i + List.length c) p e.
Proof.
  induction c as [| x c IH]; intros i; simpl.
  - now rewrite Nat.add_0_r.
  - rewrite IH. replace (S i + List.length c) with (i + S (List.length c)) by lia.
    now destruct (is_key p x).
Qed.

Lemma is_key_true p e : is_key p e = true <-> e = Some (Some p).
Proof.
  unfold is_key. destruct e as [[q |] |]; try (split; discriminate).
  rewrite pval_eqb_eq. split; congruence.
Qed.

Lemma hits_none p c : forall i, ~ In (Some (Some p)) c -> hits i p c = [].
Proof.
  induction c as [| e c IH]; intros i H; simpl; [reflexivity |].
  destruct (is_key p e) eqn:E.
  - apply is_key_true in E. elim H. now left.
  - apply IH. intros Hin. apply H. now right.
Qed.

Lemma hits_some p c : forall i, In (Some (Some p)) c -> 1 <= List.length (hits i p c).
Proof.
  induction c as [| e c IH]; intros i H; simpl; [destruct H |].
  destruct (is_key p e) eqn:E; simpl; [lia |].
  destruct H as [H | H]; [| now apply IH].
  apply is_key_true in H. congruence.
Qed.

Lemma hits_in p c : forall i, 1 <= List.length (hits i p c) -> In (Some (Some p)) c.
Proof.
  induction c as [| e c IH]; intros i H; simpl in *; [lia |].
  destruct (is_key p e) eqn:E.
  - left. now apply is_key_true.
  - right. now apply (IH (S i)).
Qed.

Lemma hits_shift p c : forall i j, List.length (hits i p c) = List.length (hits j p c).
Proof.
  induction c as [| e c IH]; intros i j; simpl; [reflexivity |].
  destruct (is_key p e); simpl; now rewrite (IH (S i) (S j)).
Qed.

Lemma hits_keys_nil p e i : keys_of e = [] -> hits i p e = [].
Proof.
  intros H. apply hits_none. intros Hin. apply in_keys_of in Hin.
  rewrite H in Hin. destruct Hin.
Qed.

Lemma hits_keys_one p p0 e : forall i,
  keys_of e = [Some p0] ->
  List.length (hits i p e) = if pval_eq_dec p0 p then 1 else 0.
Proof.
  induction e as [| [v |] e IH]; intros i H; simpl in *; [discriminate | |].
  - inversion H as [[Hv He]]. rewrite (hits_keys_nil p e (S i) He).
    unfold pval_eqb. destruct (pval_eq_dec p0 p); reflexivity.
  - now apply IH.
Qed.

Lemma count_in l p g : 1 <= count l p g <-> In (Some (Some p)) (column l g).
Proof.
  unfold count. rewrite find_hits. split; [apply hits_in | apply hits_some].
Qed.

Lemma evolves_refl l g : evolves l g g.
Proof.
  constructor; auto. exists []. now rewrite app_nil_r.
Qed.

Lemma evolves_trans l g1 g2 g3 : evolves l g1 g2 -> evolves l g2 g3 -> evolves l g1 g3.
Proof.
  intros [[e1 P1] M1 U1 S1] [[e2 P2] M2 U2 S2]. constructor.
  - exists (e1 ++ e2). now rewrite P2, P1, app_assoc.
  - intros p. specialize (M1 p). specialize (M2 p). lia.
  - auto.
  - intros p H. rewrite S2, S1; auto. specialize (M1 p). lia.
Qed.

Lemma grows_evolves l x g g' :
  grows x (column l g) (column l g') -> evolves l g g'.
Proof.
  intros (extra & E & H).
  assert (Hc : forall p, count l p g' =
                         count l p g + List.length (hits 0 p extra)).
  { intros p. unfold count. rewrite !find_hits, E, hits_app, length_app.
    f_equal. apply hits_shift. }
  assert (Hf : forall p, find l (key_of l) p g' =
                         find l (key_of l) p g ++ hits (List.length (column l g)) p extra).
  { intros p. now rewrite !find_hits, E, hits_app. }
  destruct H as [H | (y & p0 & _ & _ & H & Hn)].
  - assert (H0 : forall p i, hits i p extra = []) by (intros; now apply hits_keys_nil).
    constructor.
    + now exists extra.
    + intros p. rewrite Hc, H0. simpl. lia.
    + intros p Hu. rewrite Hc, H0. simpl. lia.
    + intros p _. now rewrite Hf, H0, app_nil_r.
  - assert (H0 : count l p0 g = 0).
    { destruct (count l p0 g) eqn:Ec; [reflexivity |].
      elim Hn. apply count_in. lia. }
    constructor.
    + now exists extra.
    + intros p. rewrite Hc. lia.
    + intros p Hu. rewrite Hc, (hits_keys_one p p0 extra 0 H).
      destruct (pval_eq_dec p0 p) as [<- | _]; lia.
    + intros p Hp. rewrite Hf.
      assert (Hl : List.length (hits (List.length (column l g)) p extra) = 0).
      { rewrite (hits_keys_one p p0 extra _ H).
        destruct (pval_eq_dec p0 p) as [<- | _]; [lia | reflexivity]. }
      destruct (hits _ p extra); [now rewrite app_nil_r | discriminate].
Qed.

Lemma run_stmt_evolves l s st st' r :
  keeps l s -> run_stmt s st = (st', r) -> evolves l (db st) (db st').
Proof.
  intros Hk H. unfold run_stmt in H.
  destruct (faults st) as [| [| n] fs].
  - destruct (exec s (db st)) as [g |] eqn:E; inversion H; subst; cbn [db].
    + eapply grows_evolves, exec_grows; eauto.
    + apply evolves_refl.
  - inversion H; subst. apply evolves_refl.
  - destruct (exec s (db st)) as [g |] eqn:E; inversion H; subst; cbn [db].
    + eapply grows_evolves, exec_grows; eauto.
    + apply evolves_refl.
Qed.

Lemma exec_all_evolves l ss : forall st st' r,
  Forall (keeps l) ss -> exec_all ss st = (st', r) -> evolves l (db st) (db st').
Proof.
  induction ss as [| s ss IH]; intros st st' r Hk H; simpl in H.
  - inversion H; subst. apply evolves_refl.
  - inversion Hk as [| ? ? Hs Hss]; subst.
    destruct (run_stmt s st) as [st1 [[] | e]] eqn:E.
    + eapply evolves_trans; [eapply run_stmt_evolves; eauto | eapply IH; eauto].
    + inversion H; subst. eapply run_stmt_evolves; eauto.
Qed.

(** *** The statements of a call that returns normally *)

Lemma lift_inv {A} (r : result A) ss a : lift r = (ss, Ok a) -> r = Ok a /\ ss = [].
Proof. unfold lift. intros H. inversion H. auto. Qed.

Lemma py_get_inv v k default x :
  py_get v k default = Ok x -> exists d, v = JDict d /\ x = field d k default.
Proof. destruct v; try discriminate. intros H. inversion H. now exists d. Qed.

Lemma upsert_client_ok_dict doc primary adviser c :
  snd (upsert_client doc primary adviser c) = Ok tt -> is_dict c = true.
Proof. destruct c; try discriminate. reflexivity. Qed.

Lemma session_each_script {A} (l : list A) (mk : A -> stmt) :
  for_each l (fun x => session_run (mk x)) = (map mk l, Ok tt).
Proof.
  induction l as [| x l IH]; simpl; [reflexivity | now rewrite IH].
Qed.

(** A call on a record with clients that returns normally has issued, in
    this order: the adviser merge, every client, every dependant, every
    property, every pension, every investment and the retirement goal. *)
Lemma build_ok_inv d doc ss first rest :
  lookup "clients" d = Some (JList (JDict first :: rest)) ->
  build_graph_from_entities (JDict d) doc = (ss, Ok tt) ->
  exists deps props pens invs assets goals,
    forallb is_dict rest = true /\
    py_iter (field d "dependants" (JList [])) = Ok deps /\
    field d "assets" (JDict []) = JDict assets /\
    py_iter (field assets "properties" (JList [])) = Ok props /\
    py_iter (field assets "pensions" (JList [])) = Ok pens /\
    py_iter (field assets "investments" (JList [])) = Ok invs /\
    field d "goals" (JDict []) = JDict goals /\
    ss = adviser_part (field d "adviser" JNull) ++
         clients_part doc (primary_name doc first) (field d "adviser" JNull)
           (JDict first :: rest) ++
         dependants_part (primary_name doc first) deps ++
         properties_part (primary_name doc first) props ++
         accounts_part UpsertPension "pen" (primary_name doc first) pens ++
         accounts_part UpsertInvestment "inv" (primary_name doc first) invs ++
         goal_part (primary_name doc first) (field goals "retirement" JNull).
Proof.
  intros Hc H. unfold build_graph_from_entities in H.
  rewrite (lookup_some_truthy _ _ _ Hc) in H. cbn [negb] in H.
  assert (Hf : field d "clients" (JList []) = JList (JDict first :: rest))
    by (unfold field; now rewrite Hc).
  rewrite !py_get_dict, bind_lift_ok, adviser_stmt_eq in H.
  apply bind_inv in H as (s1 & [] & s2 & E1 & H & ->). inversion E1; subst s1; clear E1.
  rewrite bind_lift_ok, Hf in H. cbn [truthy negb py_getitem0 py_iter] in H.
  rewrite bind_lift_ok, py_get_dict in H. fold (primary_name doc first) in H.
  rewrite !bind_lift_ok in H.
  apply bind_inv in H as (s1 & [] & s3 & E1 & H & ->).
  apply for_each_inv in E1 as [-> Hall].
  rewrite ?bind_lift_ok in H.
  apply bind_inv in H as (s1 & deps & s4 & E1 & H & ->).
  apply lift_inv in E1 as [Edeps ->]. cbn [app] in *.
  rewrite session_each_script in H.
  apply bind_inv in H as (s1 & [] & s5 & E1 & H & ->). inversion E1; subst s1; clear E1.
  rewrite ?bind_lift_ok in H.
  apply bind_inv in H as (s1 & properties & s6 & E1 & H & ->).
  apply lift_inv in E1 as [Eprops ->]. cbn [app] in *.
  apply py_get_inv in Eprops as (assets & Eassets & ->).
  apply bind_inv in H as (s1 & props & s7 & E1 & H & ->).
  apply lift_inv in E1 as [Eprops ->]. cbn [app] in *.
  rewrite session_each_script in H.
  apply bind_inv in H as (s1 & [] & s8 & E1 & H & ->). inversion E1; subst s1; clear E1.
  rewrite Eassets, !py_get_dict, ?bind_lift_ok in H.
  apply bind_inv in H as (s1 & pens & s9 & E1 & H & ->).
  apply lift_inv in E1 as [Epens ->]. cbn [app] in *.
  apply bind_inv in H as (s1 & [] & s10 & E1 & H & ->).
  apply for_each_inv in E1 as [-> Hpens].
  rewrite ?bind_lift_ok in H.
  apply bind_inv in H as (s1 & invs & s11 & E1 & H & ->).
  apply lift_inv in E1 as [Einvs ->]. cbn [app] in *.
  apply bind_inv in H as (s1 & [] & s12 & E1 & H & ->).
  apply for_each_inv in E1 as [-> Hinvs].
  rewrite ?bind_lift_ok in H.
  apply bind_inv in H as (s1 & retirement & s13 & E1 & H & ->).
  apply lift_inv in E1 as [Eret ->]. cbn [app] in *.
  apply py_get_inv in Eret as (goals & Egoals & ->).
  exists deps, props, pens, invs, assets, goals.
  repeat split; auto.
  - apply forallb_forall. intros c Hin.
    apply (upsert_client_ok_dict doc (primary_name doc first) (field d "adviser" JNull)).
    apply Hall. now right.
  - unfold goal_part, clients_part, dependants_part, properties_part, accounts_part.
    repeat f_equal.
    destruct (truthy (field goals "retirement" JNull)); inversion H; reflexivity.
Qed.

(** *** Runs of statements *)

Lemma run_stmt_ok s st st' :
  run_stmt s st = (st', Ok tt) -> exec s (db st) = Ok (db st').
Proof.
  unfold run_stmt. destruct (faults st) as [| [| n] fs]; try discriminate;
    destruct (exec s (db st)); intros H; inversion H; reflexivity.
Qed.

Lemma exec_all_app s1 : forall s2 st st',
  exec_all (s1 ++ s2) st = (st', Ok tt) ->
  exists st1, exec_all s1 st = (st1, Ok tt) /\ exec_all s2 st1 = (st', Ok tt).
Proof.
  induction s1 as [| s s1 IH]; intros s2 st st' H; simpl in *.
  - now exists st.
  - destruct (run_stmt s st) as [st0 [[] | e]]; [| discriminate].
    now apply IH.
Qed.

Lemma build_ok e doc st st' :
  build e doc st = (st', Ok tt) ->
  exists ss, build_graph_from_entities e doc = (ss, Ok tt) /\
             exec_all ss st = (st', Ok tt).
Proof.
  unfold build, run_session. intros H.
  destruct (build_graph_from_entities e doc) as [ss r]. cbn [fst snd] in H.
  destruct (exec_all ss st) as [st1 [[] | x]] eqn:E; inversion H; subst.
  now exists ss.
Qed.

Lemma table_count l p g : In (Some p) (table l g) <-> 1 <= count l p g.
Proof. unfold table. now rewrite in_keys_of, count_in. Qed.

(** A statement that merges a Client leaves one behind. *)
Lemma exec_present_client s g g' x :
  keeps Client s ->
  exec s g = Ok g' ->
  merged s Client = Some x ->
  exists p, to_pval x = Some p /\ 1 <= count Client p g'.
Proof.
  intros Hk H Hm. destruct s; simpl in Hm; try discriminate; inversion Hm; subst;
    simpl in H, Hk.
  - destruct (to_pval x) as [p |] eqn:Hp; [| discriminate].
    destruct (props_param props) as [us |] eqn:Hus; [| discriminate].
    inversion H; subst; clear H. exists p. split; [reflexivity |].
    apply count_in. change "name" with (key_of Client).
    rewrite (set_column Client Client x p props us (fun pm => pm)); auto.
    apply (merge_grows_same Client x p g Hp).
  - destruct (to_pval x) as [p |] eqn:Hp; [| discriminate].
    exists p. split; [reflexivity |].
    apply (upsert_linked_grows Client) in H as [(extra & E & _) _]; auto;
      try (intros; discriminate).
    apply count_in. rewrite E. apply in_or_app. left.
    apply (merge_grows_same Client x p g Hp).
  - destruct (to_pval x) as [p |] eqn:Hp; [| discriminate].
    exists p. split; [reflexivity |].
    apply (upsert_linked_grows Client) in H as [(extra & E & _) _]; auto;
      try (intros; discriminate).
    apply count_in. rewrite E. apply in_or_app. left.
    apply (merge_grows_same Client x p g Hp).
Qed.

Lemma exec_all_present ss : forall st st' s x,
  Forall (keeps Client) ss ->
  exec_all ss st = (st', Ok tt) ->
  In s ss ->
  merged s Client = Some x ->
  exists p, to_pval x = Some p /\ 1 <= count Client p (db st').
Proof.
  induction ss as [| s0 ss IH]; intros st st' s x Hk H Hin Hm; [destruct Hin |].
  inversion Hk as [| ? ? Hs Hss]; subst. simpl in H.
  destruct (run_stmt s0 st) as [st1 [[] | e]] eqn:E; [| discriminate].
  destruct Hin as [-> | Hin].
  - destruct (exec_present_client s (db st) (db st1) x Hs) as (p & Hp & Hc); auto.
    { now apply run_stmt_ok. }
    exists p. split; [exact Hp |].
    pose proof (ev_mono _ _ _ (exec_all_evolves Client ss st1 st' _ Hss H) p). lia.
  - eapply IH; eauto.
Qed.

(** Once every Client a run merges is in the store, the run adds no
    Client node. *)
Lemma exec_all_table_stable ss : forall st st' r,
  Forall (keeps Client) ss ->
  (forall s x p, In s ss -> merged s Client = Some x -> to_pval x = Some p ->
                 In (Some p) (table Client (db st))) ->
  exec_all ss st = (st', r) ->
  table Client (db st') = table Client (db st).
Proof.
  induction ss as [| s ss IH]; intros st st' r Hk Hp H; simpl in H.
  - now inversion H.
  - inversion Hk as [| ? ? Hs Hss]; subst.
    assert (Hstep : forall st1 r1, run_stmt s st = (st1, r1) ->
                                   table Client (db st1) = table Client (db st)).
    { intros st1 r1 E. unfold run_stmt in E.
      assert (Hx : forall g, exec s (db st) = Ok g ->
                             table Client g = table Client (db st)).
      { intros g Eg. destruct (exec_grows Client s _ _ Hs Eg) as (extra & Ec & Hex).
        unfold table. rewrite Ec, keys_of_app.
        destruct Hex as [-> | (y & p & Hy & Hyp & _ & Hn)]; [apply app_nil_r |].
        elim Hn. apply in_keys_of. apply (Hp s y p); auto. now left. }
      destruct (faults st) as [| [| n] fs];
        try (destruct (exec s (db st)) eqn:Eg; inversion E; subst; cbn [db]; auto);
        inversion E; reflexivity. }
    destruct (run_stmt s st) as [st1 [[] | e]] eqn:E.
    + rewrite (IH st1 st' r); auto; [now apply (Hstep st1 (Ok tt)) |].
      intros s0 x p Hin Hm Hx. rewrite (Hstep st1 (Ok tt)) by reflexivity.
      apply (Hp s0 x p); auto. now right.
    + inversion H; subst. now apply (Hstep st' (Raise e)).
Qed.

(** *** The statements of a call never re-key a Client *)

Lemma lacks_id_kept id m : lacks_id m -> kept "id" id m.
Proof. intros H d v -> Hv. rewrite (H d eq_refl) in Hv. discriminate. Qed.

Lemma in_enumerate {A} (l : list A) item : In item (enumerate l) -> In (snd item) l.
Proof.
  unfold enumerate. destruct item as [i x]. intros H.
  now apply in_combine_r in H.
Qed.

Lemma adviser_part_keeps l a : Forall (keeps l) (adviser_part a).
Proof. unfold adviser_part. destruct (truthy a); repeat constructor. Qed.

Lemma clients_part_keeps l doc primary adviser cs :
  Forall (keeps l) (clients_part doc primary adviser cs).
Proof.
  unfold clients_part. apply Forall_flat_map, Forall_forall. intros c _.
  destruct c; try (cbn; constructor).
  rewrite upsert_client_script. cbn [fst].
  constructor.
  - intros _ d0 v E Hv. inversion E; subst. unfold props_name. now rewrite Hv.
  - destruct (truthy adviser); repeat constructor.
Qed.

Lemma dependants_part_keeps l primary deps :
  (l = Dependant -> Forall lacks_id deps) ->
  Forall (keeps l) (dependants_part primary deps).
Proof.
  intros H. unfold dependants_part. apply Forall_map, Forall_forall.
  intros item Hin Hl. apply lacks_id_kept.
  specialize (H Hl). rewrite Forall_forall in H. apply H. now apply in_enumerate.
Qed.

Lemma properties_part_keeps l primary props :
  (l = Property -> Forall lacks_id props) ->
  Forall (keeps l) (properties_part primary props).
Proof.
  intros H. unfold properties_part. apply Forall_map, Forall_forall.
  intros item Hin Hl. apply lacks_id_kept.
  specialize (H Hl). rewrite Forall_forall in H. apply H. now apply in_enumerate.
Qed.

Lemma pensions_part_keeps l primary pens :
  l <> Pension -> Forall (keeps l) (accounts_part UpsertPension "pen" primary pens).
Proof.
  intros H. unfold accounts_part. apply Forall_flat_map, Forall_forall.
  intros item _. unfold upsert_account.
  destruct (py_get (snd item) "owner" primary); cbn; repeat constructor.
  intros E. congruence.
Qed.

Lemma investments_part_keeps l primary invs :
  l <> Investment -> Forall (keeps l) (accounts_part UpsertInvestment "inv" primary invs).
Proof.
  intros H. unfold accounts_part. apply Forall_flat_map, Forall_forall.
  intros item _. unfold upsert_account.
  destruct (py_get (snd item) "owner" primary); cbn; repeat constructor.
  intros E. congruence.
Qed.

Lemma goal_part_keeps l primary retirement :
  l <> Goal -> Forall (keeps l) (goal_part primary retirement).
Proof.
  intros H. unfold goal_part. destruct (truthy retirement); repeat constructor.
  intros E. congruence.
Qed.

Lemma build_keeps_client d doc ss first rest :
  lookup "clients" d = Some (JList (JDict first :: rest)) ->
  build_graph_from_entities (JDict d) doc = (ss, Ok tt) ->
  Forall (keeps Client) ss.
Proof.
  intros Hc H.
  destruct (build_ok_inv d doc ss first rest Hc H)
    as (deps & props & pens & invs & assets & goals & _ & _ & _ & _ & _ & _ & _ & ->).
  apply Forall_app; split; [apply adviser_part_keeps |].
  apply Forall_app; split; [apply clients_part_keeps |].
  apply Forall_app; split; [apply dependants_part_keeps; discriminate |].
  apply Forall_app; split; [apply properties_part_keeps; discriminate |].
  apply Forall_app; split; [apply pensions_part_keeps; discriminate |].
  apply Forall_app; split; [apply investments_part_keeps; discriminate |].
  apply goal_part_keeps. discriminate.
Qed.

Lemma in_clients_part doc primary adviser cs items :
  In (JDict items) cs ->
  In (UpsertClient (props_name (client_props doc primary items))
        (JDict (client_props doc primary items)))
     (clients_part doc primary adviser cs).
Proof.
  intros H. unfold clients_part. apply in_flat_map. exists (JDict items).
  split; [exact H |]. rewrite upsert_client_script. now left.
Qed.

(** What one call that returns normally does to the Client nodes. *)
Lemma build_client_facts d doc first rest st st1 :
  lookup "clients" d = Some (JList (JDict first :: rest)) ->
  build (JDict d) doc st = (st1, Ok tt) ->
  evolves Client (db st) (db st1) /\
  (forall items, In (JDict items) (JDict first :: rest) ->
     exists p, to_pval (client_name doc first items) = Some p /\
               1 <= count Client p (db st1)) /\
  (forall st0 st2 r,
     table Client (db st0) = table Client (db st1) ->
     build (JDict d) doc st0 = (st2, r) ->
     table Client (db st2) = table Client (db st1)).
Proof.
  intros Hc H. apply build_ok in H as (ss & Hs & He).
  pose proof (build_keeps_client d doc ss first rest Hc Hs) as Hk.
  split; [eapply exec_all_evolves; eauto |]. split.
  - intros items Hin.
    destruct (build_ok_inv d doc ss first rest Hc Hs)
      as (deps & props & pens & invs & assets & goals & _ & _ & _ & _ & _ & _ & _ & E).
    apply (exec_all_present ss st st1
             (UpsertClient (client_name doc first items)
                (JDict (client_props doc (primary_name doc first) items)))); auto.
    rewrite E. apply in_or_app. right. apply in_or_app. left.
    now apply in_clients_part.
  - intros st0 st2 r Ht H2. unfold build, run_session in H2. rewrite Hs in H2.
    cbn [fst snd] in H2.
    destruct (exec_all ss st0) as [st2' r'] eqn:E2.
    assert (st2' = st2) by (destruct r' as [[] |]; now inversion H2). subst st2'.
    rewrite <- Ht. apply (exec_all_table_stable ss st0 st2 r'); auto.
    intros s x p Hin Hm Hp. rewrite Ht.
    destruct (exec_all_present ss st st1 s x Hk He Hin Hm) as (q & Hq & Hcount).
    apply table_count. congruence.
Qed.



(** *** C2 *)


(** *** Properties of the Client nodes *)

Lemma Forall_merge_node (P : node -> Prop) l k p g :
  Forall P (nodes g) ->
  (existsb (has l k p) (nodes g) = false -> P (mkNode l [(k, p)])) ->
  Forall P (nodes (merge_node l k p g)).
Proof.
  intros H Hn. unfold merge_node. destruct (existsb _ _); [exact H |].
  cbn [nodes]. apply Forall_app. split; [exact H | constructor; auto].
Qed.

Lemma Forall_set_where (P : node -> Prop) l k p f g :
  Forall P (nodes g) ->
  (forall n, P n -> has l k p n = true -> P (mkNode (n_label n) (f (n_props n)))) ->
  Forall P (nodes (set_where l k p f g)).
Proof.
  intros H Hf. unfold set_where. cbn [nodes]. apply Forall_map.
  eapply Forall_impl; [| exact H]. intros n Hn. cbv beta.
  destruct (has l k p n) eqn:E; auto.
Qed.

Lemma not_exists_count l p g :
  existsb (has l (key_of l) p) (nodes g) = false -> count l p g = 0.
Proof.
  intros H. destruct (count l p g) eqn:E; [reflexivity |].
  assert (Hin : In (Some p) (table l g)) by (apply table_count; lia).
  apply existsb_has in Hin. congruence.
Qed.

Lemma upsert_linked_client_inv Q cs l0 t pre id m g g' :
  l0 <> Client ->
  upsert_linked cs l0 t pre id m g = Ok g' ->
  Forall (client_inv Q) (nodes g) ->
  Forall (client_inv Q) (nodes g').
Proof.
  intros Hne H HQ. unfold upsert_linked in H.
  destruct cs as [| c cs]; [now inversion H; subst |].
  destruct (to_pval id) as [p |]; [| discriminate].
  destruct (props_param m) as [us |]; [| discriminate].
  inversion H; subst; clear H. rewrite nodes_merge_rels.
  apply Forall_set_where.
  - apply Forall_merge_node; [exact HQ |]. intros _ E. cbn in E. congruence.
  - intros n _ Hn E. cbn in E. apply has_label in Hn. congruence.
Qed.

(** A property of the Client nodes survives a statement when it holds of
    the bare node a merge may create and is kept by the one [SET] that
    writes Client properties. *)
Lemma exec_client_inv (Q : pmap -> Prop) s g g' :
  exec s g = Ok g' ->
  Forall (client_inv Q) (nodes g) ->
  (forall x p, merged s Client = Some x -> to_pval x = Some p ->
               count Client p g = 0 -> Q [("name", p)]) ->
  (forall x m p us pm, s = UpsertClient x m -> to_pval x = Some p ->
                       props_param m = Some us -> lookup "name" pm = Some p ->
                       Q pm -> Q (apply_updates us pm)) ->
  Forall (client_inv Q) (nodes g').
Proof.
  intros H HQ Hnew Hset. destruct s; simpl in H.
  - now inversion H; subst.
  - destruct (to_pval name) as [p |]; [| discriminate]. inversion H; subst.
    apply Forall_merge_node; [exact HQ |]. intros _ E. discriminate.
  - destruct (to_pval name) as [p |] eqn:Hp; [| discriminate].
    destruct (props_param props) as [us |] eqn:Hus; [| discriminate].
    inversion H; subst; clear H.
    apply Forall_set_where.
    + apply Forall_merge_node; [exact HQ |]. intros E _. cbn [n_props].
      apply (Hnew name p); auto. now apply (not_exists_count Client).
    + intros n Hn Hh _. cbn [n_props].
      apply (Hset name props p us); auto.
      * apply (has_cell Client) in Hh. unfold cell in Hh.
        destruct (label_eqb (n_label n) Client); [| discriminate].
        now inversion Hh.
      * apply Hn. now apply has_label in Hh.
  - inversion H; subst. now rewrite nodes_merge_rels.
  - eapply upsert_linked_client_inv; eauto. discriminate.
  - eapply upsert_linked_client_inv; eauto. discriminate.
  - destruct (to_pval owner) as [p |] eqn:Hp; [| discriminate].
    eapply upsert_linked_client_inv; eauto; [discriminate |].
    apply Forall_merge_node; [exact HQ |]. intros E _. cbn [n_props].
    apply (Hnew owner p); auto. now apply (not_exists_count Client).
  - destruct (to_pval owner) as [p |] eqn:Hp; [| discriminate].
    eapply upsert_linked_client_inv; eauto; [discriminate |].
    apply Forall_merge_node; [exact HQ |]. intros E _. cbn [n_props].
    apply (Hnew owner p); auto. now apply (not_exists_count Client).
  - eapply upsert_linked_client_inv; eauto. discriminate.
Qed.

Lemma tags_keeps doc s : tags doc s -> keeps Client s.
Proof.
  destruct s; simpl; auto; try (intros; discriminate).
  intros (props0 & -> & _ & Hn) _ d v E Hv. inversion E; subst. congruence.
Qed.

Lemma client_props_name doc primary items :
  lookup "name" (client_props doc primary items) =
  Some (props_name (client_props doc primary items)).
Proof.
  unfold props_name, client_props, dict_mem.
  destruct (lookup "name" (dict_set "source_document" (JStr doc) _)) eqn:E.
  - now rewrite E.
  - now rewrite lookup_dict_set_same.
Qed.

Lemma clients_part_tags doc primary adviser cs :
  Forall (tags doc) (clients_part doc primary adviser cs).
Proof.
  unfold clients_part. apply Forall_flat_map, Forall_forall. intros c _.
  destruct c; try (cbn; constructor).
  rewrite upsert_client_script. cbn [fst]. constructor.
  - eexists. split; [reflexivity |].
    split; [apply client_props_source | apply client_props_name].
  - destruct (truthy adviser); repeat constructor.
Qed.

Lemma build_tags d doc ss first rest :
  lookup "clients" d = Some (JList (JDict first :: rest)) ->
  build_graph_from_entities (JDict d) doc = (ss, Ok tt) ->
  Forall (tags doc) ss.
Proof.
  intros Hc H.
  destruct (build_ok_inv d doc ss first rest Hc H)
    as (deps & props & pens & invs & assets & goals & _ & _ & _ & _ & _ & _ & _ & ->).
  apply Forall_app; split;
    [unfold adviser_part; destruct (truthy _); repeat constructor |].
  apply Forall_app; split; [apply clients_part_tags |].
  apply Forall_app; split;
    [unfold dependants_part; apply Forall_map, Forall_forall; intros; exact I |].
  apply Forall_app; split;
    [unfold properties_part; apply Forall_map, Forall_forall; intros; exact I |].
  apply Forall_app; split.
  { unfold accounts_part. apply Forall_flat_map, Forall_forall. intros item _.
    unfold upsert_account. destruct (py_get _ _ _); cbn; repeat constructor. }
  apply Forall_app; split.
  { unfold accounts_part. apply Forall_flat_map, Forall_forall. intros item _.
    unfold upsert_account. destruct (py_get _ _ _); cbn; repeat constructor. }
  unfold goal_part. destruct (truthy _); repeat constructor.
Qed.

Lemma run_stmt_cases s st st' r :
  run_stmt s st = (st', r) ->
  db st' = db st \/ exec s (db st) = Ok (db st').
Proof.
  unfold run_stmt. intros H.
  destruct (faults st) as [| [| n] fs];
    try (destruct (exec s (db st)) eqn:E; inversion H; subst; cbn [db]; auto);
    inversion H; subst; auto.
Qed.

Lemma exec_all_client_inv (Q : pmap -> Prop) (J : graph -> Prop) ss :
  (forall s g g', In s ss -> J g -> exec s g = Ok g' -> J g') ->
  (forall s x p g, In s ss -> J g -> merged s Client = Some x -> to_pval x = Some p ->
                   count Client p g = 0 -> Q [("name", p)]) ->
  (forall s x m p us pm, In s ss -> s = UpsertClient x m -> to_pval x = Some p ->
                         props_param m = Some us -> lookup "name" pm = Some p ->
                         Q pm -> Q (apply_updates us pm)) ->
  forall st st' r,
    J (db st) ->
    Forall (client_inv Q) (nodes (db st)) ->
    exec_all ss st = (st', r) ->
    Forall (client_inv Q) (nodes (db st')) /\ J (db st').
Proof.
  induction ss as [| s ss IH]; intros HJ Hnew Hset st st' r Hj HQ H; simpl in H.
  - inversion H; subst. auto.
  - assert (Hstep : forall st1 r1, run_stmt s st = (st1, r1) ->
                      Forall (client_inv Q) (nodes (db st1)) /\ J (db st1)).
    { intros st1 r1 E. apply run_stmt_cases in E as [-> | E]; [auto |].
      split.
      - apply (exec_client_inv Q s (db st)); auto.
        + intros x p Hm Hp Hc. apply (Hnew s x p (db st)); auto. now left.
        + intros x m p us pm -> Hp Hus Hn Hq.
          apply (Hset (UpsertClient x m) x m p us pm); auto. now left.
      - apply (HJ s (db st)); auto. now left. }
    destruct (run_stmt s st) as [st1 [[] | e]] eqn:E.
    + destruct (Hstep st1 (Ok tt) eq_refl) as [HQ1 Hj1].
      apply (IH (fun s0 g g' Hin => HJ s0 g g' (or_intror Hin))
                (fun s0 x p g Hin => Hnew s0 x p g (or_intror Hin))
                (fun s0 x m p us pm Hin => Hset s0 x m p us pm (or_intror Hin))
                st1 st' r); auto.
    + inversion H; subst. apply (Hstep st' (Raise e) eq_refl).
Qed.

Lemma set_source_document doc props us pm :
  lookup "source_document" props = Some (JStr doc) ->
  props_param (JDict props) = Some us ->
  lookup "source_document" (apply_updates us pm) = Some (PS (SStr doc)).
Proof.
  intros Hs Hus. rewrite lookup_apply_updates. simpl in Hus.
  now rewrite (lookup_to_updates _ _ _ Hus), Hs.
Qed.

Lemma set_name x p props us pm :
  lookup "name" props = Some x ->
  to_pval x = Some p ->
  props_param (JDict props) = Some us ->
  lookup "name" (apply_updates us pm) = Some p.
Proof.
  intros Hn Hp Hus. rewrite lookup_apply_updates. simpl in Hus.
  now rewrite (lookup_to_updates _ _ _ Hus), Hn, (to_update_of_pval _ _ Hp).
Qed.

Lemma client_has p n :
  n_label n = Client -> lookup "name" (n_props n) = Some p ->
  has Client "name" p n = true.
Proof.
  intros Hl Hn. apply (has_cell Client). unfold cell. rewrite Hl.
  cbn [key_of]. now rewrite Hn, label_eqb_refl.
Qed.

(** A Client upsert on [p] tags every Client node named [p]. *)
Lemma exec_upsert_tags doc x m p g g' :
  tags doc (UpsertClient x m) ->
  to_pval x = Some p ->
  exec (UpsertClient x m) g = Ok g' ->
  Forall (client_inv (tagged p doc)) (nodes g').
Proof.
  intros (props & -> & Hs & Hn) Hp H. simpl in H. rewrite Hp in H.
  destruct (to_updates props) as [us |] eqn:Hus; [| discriminate].
  inversion H; subst; clear H. unfold set_where. cbn [nodes].
  apply Forall_map, Forall_forall. intros n _. cbv beta.
  destruct (has Client "name" p n) eqn:E.
  - intros _ _. cbn [n_props]. now apply (set_source_document doc props).
  - intros Hl Hname. rewrite (client_has p n Hl Hname) in E. discriminate.
Qed.

Lemma tagged_preserved doc p ss st st' r :
  Forall (tags doc) ss ->
  1 <= count Client p (db st) ->
  Forall (client_inv (tagged p doc)) (nodes (db st)) ->
  exec_all ss st = (st', r) ->
  Forall (client_inv (tagged p doc)) (nodes (db st')).
Proof.
  intros Ht Hc HQ H. rewrite Forall_forall in Ht.
  apply (exec_all_client_inv (tagged p doc) (fun g => 1 <= count Client p g) ss)
    with (st := st) (st' := st') (r := r); auto.
  - intros s g g' Hin Hj E.
    pose proof (ev_mono _ _ _
      (grows_evolves Client _ g g' (exec_grows Client s g g' (tags_keeps doc s (Ht s Hin)) E)) p).
    lia.
  - intros s x q g Hin Hj _ _ Hq Hname. cbn in Hname.
    inversion Hname; subst. lia.
  - intros s x m q us pm Hin -> Hq Hus Hname _ Hname'.
    destruct (Ht _ Hin) as (props & -> & Hs & Hn).
    now apply (set_source_document doc props).
Qed.

Lemma tagged_established doc p x m ss : forall st st',
  Forall (tags doc) ss ->
  1 <= count Client p (db st) ->
  exec_all ss st = (st', Ok tt) ->
  In (UpsertClient x m) ss ->
  to_pval x = Some p ->
  Forall (client_inv (tagged p doc)) (nodes (db st')).
Proof.
  induction ss as [| s ss IH]; intros st st' Ht Hc H Hin Hp; [destruct Hin |].
  inversion Ht as [| ? ? Hs Hss]; subst. simpl in H.
  destruct (run_stmt s st) as [st1 [[] | e]] eqn:E; [| discriminate].
  assert (Hc1 : 1 <= count Client p (db st1)).
  { pose proof (ev_mono _ _ _ (run_stmt_evolves Client s st st1 _ (tags_keeps doc s Hs) E) p).
    lia. }
  destruct Hin as [-> | Hin].
  - apply (tagged_preserved doc p ss st1 st' (Ok tt)); auto.
    apply (exec_upsert_tags doc x m p (db st)); auto. now apply run_stmt_ok.
  - now apply (IH st1 st').
Qed.

Lemma find_from_nth f ns : forall i j,
  In j (find_from i f ns) ->
  exists n, nth_error ns (j - i) = Some n /\ f n = true /\ i <= j.
Proof.
  induction ns as [| n ns IH]; intros i j H; simpl in H; [destruct H |].
  assert (Hrec : In j (find_from (S i) f ns) ->
                 exists n0, nth_error (n :: ns) (j - i) = Some n0 /\ f n0 = true /\ i <= j).
  { intros Hj. destruct (IH (S i) j Hj) as (n0 & Hn & Hf & Hle).
    exists n0. replace (j - i) with (S (j - S i)) by lia. simpl. auto with arith. }
  destruct (f n) eqn:E; [| auto].
  destruct H as [<- | H]; [| auto].
  exists n. rewrite Nat.sub_diag. simpl. auto.
Qed.

Lemma find_nth l k p g i :
  In i (find l k p g) ->
  exists n, nth_error (nodes g) i = Some n /\ has l k p n = true.
Proof.
  intros H. apply find_from_nth in H as (n & Hn & Hf & _).
  rewrite Nat.sub_0_r in Hn. now exists n.
Qed.

Lemma lookup_filter_some {A} k (v : A) (keep : string * A -> bool) d :
  lookup k d = Some v -> keep (k, v) = true -> lookup k (filter keep d) = Some v.
Proof.
  induction d as [| [k' v'] d IH]; intros H Hk; simpl in *; [discriminate |].
  destruct (String.eqb k k') eqn:E.
  - apply String.eqb_eq in E. subst k'. inversion H; subst.
    rewrite Hk. simpl. now rewrite String.eqb_refl.
  - destruct (keep (k', v')); simpl; [rewrite E |]; now apply IH.
Qed.

(** An entry that has a name is upserted under it. *)
Lemma client_name_named doc first items x :
  lookup "name" items = Some x -> is_null x = false ->
  client_name doc first items = x.
Proof.
  intros H Hx. unfold client_name, props_name, client_props, dict_mem.
  assert (E : lookup "name"
                (dict_set "source_document" (JStr doc)
                   (filter (fun kv => negb (is_null (snd kv))) items)) = Some x).
  { rewrite lookup_dict_set_other by discriminate.
    apply lookup_filter_some; [exact H | cbn; now rewrite Hx]. }
  now rewrite E, E.
Qed.

Lemma upsert_client_in_script doc primary adviser cs deps props pens invs retirement x m :
  In (UpsertClient x m)
     (adviser_part adviser ++ clients_part doc primary adviser cs ++
      dependants_part primary deps ++ properties_part primary props ++
      accounts_part UpsertPension "pen" primary pens ++
      accounts_part UpsertInvestment "inv" primary invs ++
      goal_part primary retirement) ->
  exists items, In (JDict items) cs /\
                x = props_name (client_props doc primary items) /\
                m = JDict (client_props doc primary items).
Proof.
  intros H. repeat (apply in_app_or in H as [H | H]).
  - unfold adviser_part in H. destruct (truthy adviser); [| destruct H].
    destruct H as [H | []]. discriminate.
  - unfold clients_part in H. apply in_flat_map in H as (c & Hc & H).
    destruct c; try (cbn in H; contradiction).
    rewrite upsert_client_script in H. cbn [fst] in H.
    destruct H as [H | H].
    + inversion H; subst. now exists d.
    + destruct (truthy adviser); [destruct H as [H | []]; discriminate | destruct H].
  - unfold dependants_part in H. apply in_map_iff in H as (item & H & _). discriminate.
  - unfold properties_part in H. apply in_map_iff in H as (item & H & _). discriminate.
  - unfold accounts_part in H. apply in_flat_map in H as (item & _ & H).
    unfold upsert_account in H. destruct (py_get _ _ _); cbn in H;
      [destruct H as [H | []]; discriminate | contradiction].
  - unfold accounts_part in H. apply in_flat_map in H as (item & _ & H).
    unfold upsert_account in H. destruct (py_get _ _ _); cbn in H;
      [destruct H as [H | []]; discriminate | contradiction].
  - unfold goal_part in H. destruct (truthy retirement); [| destruct H].
    destruct H as [H | []]. discriminate.
Qed.

Lemma to_pval_str x s : to_pval x = Some (PS (SStr s)) -> x = JStr s.
Proof.
  destruct x; simpl; try discriminate; try (intros H; inversion H; reflexivity).
  destruct (to_scalars l); [destruct (homogeneous l0) |]; discriminate.
Qed.

(** What the map of a Client upsert gives for a key other than the two
    the code sets itself: a value of the entry that is not [null]. *)
Lemma lookup_filter_in {A} k (v : A) (keep : string * A -> bool) d :
  lookup k (filter keep d) = Some v -> In (k, v) d /\ keep (k, v) = true.
Proof.
  induction d as [| [k' v'] d IH]; intros H; cbn in *; [discriminate |].
  destruct (keep (k', v')) eqn:Ek.
  - cbn in H. destruct (String.eqb k k') eqn:E.
    + apply String.eqb_eq in E. subst k'. inversion H; subst. auto.
    + destruct (IH H) as [Hin Hk]. auto.
  - destruct (IH H) as [Hin Hk]. auto.
Qed.

Lemma client_props_other doc primary items k :
  k <> "source_document" -> k <> "name" ->
  lookup k (client_props doc primary items) =
  lookup k (filter (fun kv => negb (is_null (snd kv))) items).
Proof.
  intros Hs Hn. unfold client_props.
  destruct (dict_mem "name" _); rewrite ?(lookup_dict_set_other "name") by exact Hn;
    now rewrite lookup_dict_set_other by exact Hs.
Qed.

(** A Client upsert that gives [k] leaves it on every Client node of the
    name it merges on. *)
Lemma exec_upsert_values doc x props p k v g g' :
  tags doc (UpsertClient x (JDict props)) ->
  to_pval x = Some p ->
  lookup k props = Some v ->
  exec (UpsertClient x (JDict props)) g = Ok g' ->
  Forall (client_inv (valued p k (to_pval v))) (nodes g').
Proof.
  intros _ Hp Hk H. simpl in H. rewrite Hp in H.
  destruct (to_updates props) as [us |] eqn:Hus; [| discriminate].
  inversion H; subst; clear H. unfold set_where. cbn [nodes].
  apply Forall_map, Forall_forall. intros n _. cbv beta.
  destruct (has Client "name" p n) eqn:E.
  - intros _ _. cbn [n_props]. now rewrite (lookup_after_set k props us _ Hus), Hk.
  - intros Hl Hname. rewrite (client_has p n Hl Hname) in E. discriminate.
Qed.

Lemma valued_preserved doc p k v ss st st' r :
  Forall (tags doc) ss ->
  Forall (agrees p k v) ss ->
  1 <= count Client p (db st) ->
  Forall (client_inv (valued p k (to_pval v))) (nodes (db st)) ->
  exec_all ss st = (st', r) ->
  Forall (client_inv (valued p k (to_pval v))) (nodes (db st')).
Proof.
  intros Ht Ha Hc HQ H. rewrite Forall_forall in Ht, Ha.
  apply (exec_all_client_inv (valued p k (to_pval v))
           (fun g => 1 <= count Client p g) ss)
    with (st := st) (st' := st') (r := r); auto.
  - intros s g g' Hin Hj E.
    pose proof (ev_mono _ _ _
      (grows_evolves Client _ g g' (exec_grows Client s g g' (tags_keeps doc s (Ht s Hin)) E)) p).
    lia.
  - intros s x q g Hin Hj _ _ Hq Hname. cbn in Hname.
    inversion Hname; subst. lia.
  - intros s x m q us pm Hin -> Hq Hus Hname HQpm Hname'.
    destruct (Ht _ Hin) as (props & -> & Hs & Hn).
    rewrite (set_name x q props us pm Hn Hq Hus) in Hname'.
    inversion Hname'; subst q.
    cbn [props_param] in Hus. rewrite (lookup_after_set k props us pm Hus).
    destruct (lookup k props) as [v' |] eqn:Ek.
    + now rewrite (Ha _ Hin x props v' eq_refl Hq Ek).
    + now apply HQpm.
Qed.

Lemma valued_established doc p k v x props ss : forall st st',
  Forall (tags doc) ss ->
  Forall (agrees p k v) ss ->
  1 <= count Client p (db st) ->
  exec_all ss st = (st', Ok tt) ->
  In (UpsertClient x (JDict props)) ss ->
  to_pval x = Some p ->
  lookup k props = Some v ->
  Forall (client_inv (valued p k (to_pval v))) (nodes (db st')).
Proof.
  induction ss as [| s ss IH]; intros st st' Ht Ha Hc H Hin Hp Hk; [destruct Hin |].
  inversion Ht as [| ? ? Hs Hss]; subst.
  inversion Ha as [| ? ? Has Hass]; subst. simpl in H.
  destruct (run_stmt s st) as [st1 [[] | e]] eqn:E; [| discriminate].
  assert (Hc1 : 1 <= count Client p (db st1)).
  { pose proof (ev_mono _ _ _ (run_stmt_evolves Client s st st1 _ (tags_keeps doc s Hs) E) p).
    lia. }
  destruct Hin as [-> | Hin].
  - apply (valued_preserved doc p k v ss st1 st' (Ok tt)); auto.
    apply (exec_upsert_values doc x props p k v (db st)); auto. now apply run_stmt_ok.
  - now apply (IH st1 st').
Qed.

(** *** C3 *)

(** C3: two records are upserted one after the other, both calls
    returning normally, on a store with at most one Client node named
    [name]; both list a client of that name.  Then after each call exactly
    one Client node has that name, it is the same node both times, and
    after the second call it carries the second document as its
    [source_document] and the second record's attributes: every attribute
    the second record's entry gives with a value other than [null] has
    that value on the node, whatever the first record gave it, as long as
    the entries of the second record that go by that name do not give it
    different values (there is usually one such entry). *)
Theorem second_document_overwrites_same_client
    (d1 d2 : list (string * json)) (doc1 doc2 : string)
    (first1 first2 : list (string * json)) (rest1 rest2 : list json)
    (items1 items2 : list (string * json)) (name : string) (st st1 st2 : store) :
  lookup "clients" d1 = Some (JList (JDict first1 :: rest1)) ->
  In (JDict items1) (JDict first1 :: rest1) ->
  lookup "name" items1 = Some (JStr name) ->
  lookup "clients" d2 = Some (JList (JDict first2 :: rest2)) ->
  In (JDict items2) (JDict first2 :: rest2) ->
  lookup "name" items2 = Some (JStr name) ->
  count Client (PS (SStr name)) (db st) <= 1 ->
  build (JDict d1) doc1 st = (st1, Ok tt) ->
  build (JDict d2) doc2 st1 = (st2, Ok tt) ->
  exists i n,
    find Client "name" (PS (SStr name)) (db st1) = [i] /\
    find Client "name" (PS (SStr name)) (db st2) = [i] /\
    nth_error (nodes (db st2)) i = Some n /\
    n_label n = Client /\
    lookup "name" (n_props n) = Some (PS (SStr name)) /\
    lookup "source_document" (n_props n) = Some (PS (SStr doc2)) /\
    (forall k v,
       k <> "source_document" ->
       lookup k items2 = Some v ->
       is_null v = false ->
       (forall items' v',
          In (JDict items') (JDict first2 :: rest2) ->
          client_name doc2 first2 items' = JStr name ->
          In (k, v') items' -> is_null v' = false -> v' = v) ->
       lookup k (n_props n) = to_pval v).
Proof.
  intros Hc1 Hin1 Hn1 Hc2 Hin2 Hn2 Hu B1 B2.
  set (p := PS (SStr name)) in *.
  destruct (build_client_facts d1 doc1 first1 rest1 st st1 Hc1 B1) as (Hev1 & Hp1 & _).
  destruct (build_client_facts d2 doc2 first2 rest2 st1 st2 Hc2 B2) as (Hev2 & _ & _).
  destruct (Hp1 items1 Hin1) as (q & Hq & Hcount).
  rewrite (client_name_named doc1 first1 items1 (JStr name) Hn1 eq_refl) in Hq.
  cbn in Hq. inversion Hq; subst q. fold p in Hcount.
  pose proof (ev_unique _ _ _ Hev1 p Hu) as Hle.
  assert (Hone : count Client p (db st1) = 1) by lia.
  assert (Hge : 1 <= count Client p (db st1)) by lia.
  unfold count in Hone. cbn [key_of] in Hone.
  destruct (find Client "name" p (db st1)) as [| i [| j l]] eqn:Ef; try discriminate.
  assert (Ef2 : find Client "name" p (db st2) = [i]).
  { rewrite <- Ef. apply (ev_same _ _ _ Hev2 p). exact Hge. }
  assert (Hi : In i (find Client "name" p (db st2))) by (rewrite Ef2; now left).
  apply find_nth in Hi as (n & Hnth & Hhas).
  assert (Hlabel : n_label n = Client) by now apply has_label in Hhas.
  assert (Hname : lookup "name" (n_props n) = Some p).
  { apply (has_cell Client) in Hhas. unfold cell in Hhas.
    destruct (label_eqb (n_label n) Client); [now inversion Hhas | discriminate]. }
  apply build_ok in B2 as (ss & Hs & He).
  pose proof (build_tags d2 doc2 ss first2 rest2 Hc2 Hs) as Ht.
  destruct (build_ok_inv d2 doc2 ss first2 rest2 Hc2 Hs)
    as (deps & props & pens & invs & assets & goals & _ & _ & _ & _ & _ & _ & _ & E).
  assert (Hx : client_name doc2 first2 items2 = JStr name)
    by exact (client_name_named doc2 first2 items2 (JStr name) Hn2 eq_refl).
  assert (Hstmt : In (UpsertClient (client_name doc2 first2 items2)
                        (JDict (client_props doc2 (primary_name doc2 first2) items2))) ss).
  { rewrite E. apply in_or_app. right. apply in_or_app. left.
    now apply in_clients_part. }
  exists i, n. repeat split; auto.
  - assert (HQ : Forall (client_inv (tagged p doc2)) (nodes (db st2))).
    { apply (tagged_established doc2 p (client_name doc2 first2 items2)
               (JDict (client_props doc2 (primary_name doc2 first2) items2)) ss st1 st2);
        auto.
      now rewrite Hx. }
    rewrite Forall_forall in HQ.
    now apply (HQ n (nth_error_In _ _ Hnth)).
  - intros k v Hk Hv Hnull Hagree.
    destruct (string_dec k "name") as [-> | Hkn].
    { rewrite Hn2 in Hv. inversion Hv; subst v. exact Hname. }
    assert (Hprops : lookup k (client_props doc2 (primary_name doc2 first2) items2) = Some v).
    { rewrite client_props_other by assumption.
      apply lookup_filter_some; [exact Hv | cbn; now rewrite Hnull]. }
    assert (Ha : Forall (agrees p k v) ss).
    { apply Forall_forall. intros s Hin x props0 v' -> Hp Hk'.
      rewrite E in Hin.
      apply upsert_client_in_script in Hin as (items' & Hitems & -> & Hm).
      inversion Hm; subst props0; clear Hm.
      apply to_pval_str in Hp.
      rewrite client_props_other in Hk' by assumption.
      apply lookup_filter_in in Hk' as [Hin' Hkeep]. cbn in Hkeep.
      apply (Hagree items' v' Hitems Hp Hin').
      now apply negb_true_iff in Hkeep. }
    assert (HQ : Forall (client_inv (valued p k (to_pval v))) (nodes (db st2))).
    { apply (valued_established doc2 p k v (client_name doc2 first2 items2)
               (client_props doc2 (primary_name doc2 first2) items2) ss st1 st2);
        auto.
      now rewrite Hx. }
    rewrite Forall_forall in HQ.
    now apply (HQ n (nth_error_In _ _ Hnth)).
Qed.

(** *** Account owners *)

Lemma in_enumerate_exists {A} (l : list A) x : In x l -> exists i, In (i, x) (enumerate l).
Proof.
  unfold enumerate. generalize 0. induction l as [| y l IH]; intros i H; [destruct H |].
  simpl. destruct H as [-> | H].
  - exists i. now left.
  - destruct (IH (S i) H) as [j Hj]. exists j. now right.
Qed.

Lemma in_accounts_part mk kind primary accounts account owner :
  In (JDict account) accounts ->
  lookup "owner" account = Some owner ->
  exists id, In (mk owner id (JDict account)) (accounts_part mk kind primary accounts).
Proof.
  intros Hin Ho. destruct (in_enumerate_exists accounts _ Hin) as [i Hi].
  exists (synthetic_id owner kind i). unfold accounts_part. apply in_flat_map.
  exists (i, JDict account). split; [exact Hi |].
  unfold upsert_account. cbn [fst snd py_get]. rewrite Ho. now left.
Qed.

(** The Client upserts of a call are those of its [clients]. *)
Lemma has_count l p g n :
  In n (nodes g) -> has l (key_of l) p n = true -> 1 <= count l p g.
Proof.
  intros Hin Hh. apply table_count, existsb_has, existsb_exists. now exists n.
Qed.

(** A statement that only matches its client adds no Client node. *)
Lemma match_never_creates_client s g g' :
  merged s Client = None ->
  keeps Client s ->
  exec s g = Ok g' ->
  table Client g' = table Client g.
Proof.
  intros Hm Hk H. destruct (exec_grows Client s g g' Hk H) as (extra & E & Hex).
  unfold table. rewrite E, keys_of_app.
  destruct Hex as [-> | (y & p & Hy & _)]; [apply app_nil_r | congruence].
Qed.

(** *** C9 *)

(** C9 (as the code has it): a record that lists at least one client
    lists, under [pensions] or [investments], an account
    whose owner is a string that no entry of [clients] is upserted under,
    and the store has no Client node of that name.  After a call that
    returns normally exactly one Client node has that name, and the name
    is its only property: it carries no [source_document].  The
    statements of a dependant or of a property, which match their client,
    never add a Client node. *)
Theorem unlisted_account_owner_becomes_client
    (d : list (string * json)) (document_name : string)
    (first : list (string * json)) (rest : list json)
    (assets : list (string * json)) (accounts : list json)
    (account : list (string * json)) (owner : string) (st st' : store) :
  lookup "clients" d = Some (JList (JDict first :: rest)) ->
  lookup "assets" d = Some (JDict assets) ->
  lookup "pensions" assets = Some (JList accounts) \/
  lookup "investments" assets = Some (JList accounts) ->
  In (JDict account) accounts ->
  lookup "owner" account = Some (JStr owner) ->
  (forall items, In (JDict items) (JDict first :: rest) ->
                 client_name document_name first items <> JStr owner) ->
  count Client (PS (SStr owner)) (db st) = 0 ->
  build (JDict d) document_name st = (st', Ok tt) ->
  (exists i,
     find Client "name" (PS (SStr owner)) (db st') = [i] /\
     nth_error (nodes (db st')) i = Some (mkNode Client [("name", PS (SStr owner))])) /\
  (forall c id m g g',
     exec (UpsertDependant c id m) g = Ok g' \/ exec (UpsertProperty c id m) g = Ok g' ->
     table Client g' = table Client g).
Proof.
  intros Hc Ha Hacc Hin Ho Hdiff H0 B.
  split.
  2: { intros c id m g g' [H | H];
         (eapply match_never_creates_client; [| | exact H];
          [reflexivity | intros E; discriminate E]). }
  set (o := PS (SStr owner)) in *.
  destruct (build_client_facts d document_name first rest st st' Hc B) as (Hev & _ & _).
  apply build_ok in B as (ss & Hs & He).
  pose proof (build_keeps_client d document_name ss first rest Hc Hs) as Hk.
  pose proof (build_tags d document_name ss first rest Hc Hs) as Ht.
  destruct (build_ok_inv d document_name ss first rest Hc Hs)
    as (deps & props & pens & invs & assets0 & goals & _ & _ & Ea & _ & Ep & Ei & _ & E).
  assert (assets0 = assets) by (unfold field in Ea; rewrite Ha in Ea; congruence).
  subst assets0.
  (* the owner is merged by some statement of the call *)
  assert (Hstmt : exists s, In s ss /\ merged s Client = Some (JStr owner)).
  { destruct Hacc as [Hl | Hl].
    - unfold field in Ep. rewrite Hl in Ep. cbn in Ep. inversion Ep; subst pens.
      destruct (in_accounts_part UpsertPension "pen" (primary_name document_name first)
                  accounts account (JStr owner) Hin Ho) as [id Hid].
      exists (UpsertPension (JStr owner) id (JDict account)). split; [| reflexivity].
      rewrite E. do 4 (apply in_or_app; right). apply in_or_app. now left.
    - unfold field in Ei. rewrite Hl in Ei. cbn in Ei. inversion Ei; subst invs.
      destruct (in_accounts_part UpsertInvestment "inv" (primary_name document_name first)
                  accounts account (JStr owner) Hin Ho) as [id Hid].
      exists (UpsertInvestment (JStr owner) id (JDict account)). split; [| reflexivity].
      rewrite E. do 5 (apply in_or_app; right). apply in_or_app. now left. }
  destruct Hstmt as (s & Hsin & Hm).
  destruct (exec_all_present ss st st' s (JStr owner) Hk He Hsin Hm) as (q & Hq & Hge).
  cbn in Hq. inversion Hq; subst q. fold o in Hge.
  assert (Hle : count Client o (db st') <= 1) by (apply (ev_unique _ _ _ Hev o); lia).
  assert (Hone : count Client o (db st') = 1) by lia.
  unfold count in Hone. cbn [key_of] in Hone.
  destruct (find Client "name" o (db st')) as [| i [| j l]] eqn:Ef; try discriminate.
  exists i. split; [reflexivity |].
  assert (Hi : In i (find Client "name" o (db st'))) by (rewrite Ef; now left).
  apply find_nth in Hi as (n & Hnth & Hhas). rewrite Hnth. f_equal.
  (* the node is bare *)
  assert (HQ : Forall (client_inv (bare o)) (nodes (db st'))).
  { rewrite Forall_forall in Ht.
    apply (exec_all_client_inv (bare o) (fun _ => True) ss) with (st := st) (r := Ok tt);
      auto.
    - intros s0 x p g _ _ _ _ _ Hname. cbn in Hname. now inversion Hname.
    - intros s0 x m p us pm Hin0 -> Hp Hus Hname _ Hname'.
      destruct (Ht _ Hin0) as (props0 & -> & _ & Hn).
      rewrite (set_name x p props0 us pm Hn Hp Hus) in Hname'.
      inversion Hname'; subst p. apply to_pval_str in Hp. subst x.
      rewrite E in Hin0.
      apply upsert_client_in_script in Hin0 as (items & Hitems & Hx & _).
      elim (Hdiff items Hitems). now rewrite Hx.
    - apply Forall_forall. intros n0 Hn0 Hl Hname.
      pose proof (has_count Client o (db st) n0 Hn0 (client_has o n0 Hl Hname)). lia. }
  rewrite Forall_forall in HQ.
  pose proof (has_label _ _ _ _ Hhas) as Hl.
  assert (Hname : lookup "name" (n_props n) = Some o).
  { apply (has_cell Client) in Hhas. unfold cell in Hhas.
    destruct (label_eqb (n_label n) Client); [now inversion Hhas | discriminate]. }
  pose proof (HQ n (nth_error_In _ _ Hnth) Hl Hname) as Hb.
  destruct n as [nl np]. cbn in *. now subst.
Qed.

(** *** Synthetic ids *)





(** *** Relationships *)

Lemma rels_merge_rels_mono rs : forall g r,
  In r (rels g) -> In r (rels (merge_rels rs g)).
Proof.
  unfold merge_rels. induction rs as [| r0 rs IH]; intros g r H; simpl; [exact H |].
  apply IH. unfold merge_rel. destruct (in_dec rel_eq_dec r0 (rels g)); [exact H |].
  cbn [rels]. apply in_or_app. now left.
Qed.

Lemma rels_merge_rels_in rs : forall g r,
  In r rs -> In r (rels (merge_rels rs g)).
Proof.
  unfold merge_rels. induction rs as [| r0 rs IH]; intros g r H; [destruct H |].
  simpl. destruct H as [-> | H]; [| now apply IH].
  apply (rels_merge_rels_mono rs). unfold merge_rel.
  destruct (in_dec rel_eq_dec r (rels g)); [assumption |].
  cbn [rels]. apply in_or_app. right. now left.
Qed.

Lemma in_pairs t cs ds c dn : In c cs -> In dn ds -> In (mkRel c t dn) (pairs t cs ds).
Proof.
  intros Hc Hd. unfold pairs. apply in_flat_map. exists c. split; [exact Hc |].
  now apply in_map.
Qed.

Lemma rels_merge_node l k p g : rels (merge_node l k p g) = rels g.
Proof. unfold merge_node. now destruct (existsb _ _). Qed.

Lemma upsert_linked_rels_mono cs l t pre id m g g' r :
  upsert_linked cs l t pre id m g = Ok g' -> In r (rels g) -> In r (rels g').
Proof.
  unfold upsert_linked. destruct cs as [| c cs]; [intros H; now inversion H; subst |].
  destruct (to_pval id); [| discriminate]. destruct (props_param m); [| discriminate].
  intros H Hr. inversion H; subst. apply rels_merge_rels_mono.
  unfold set_where. cbn [rels]. now rewrite rels_merge_node.
Qed.

Lemma exec_rels_mono s g g' r : exec s g = Ok g' -> In r (rels g) -> In r (rels g').
Proof.
  intros H Hr. destruct s; simpl in H.
  - now inversion H; subst.
  - destruct (to_pval name); [| discriminate]. inversion H; subst.
    now rewrite rels_merge_node.
  - destruct (to_pval name); [| discriminate].
    destruct (props_param props); [| discriminate]. inversion H; subst.
    unfold set_where. cbn [rels]. now rewrite rels_merge_node.
  - inversion H; subst. now apply rels_merge_rels_mono.
  - eapply upsert_linked_rels_mono; eauto.
  - eapply upsert_linked_rels_mono; eauto.
  - destruct (to_pval owner); [| discriminate].
    eapply upsert_linked_rels_mono; eauto. now rewrite rels_merge_node.
  - destruct (to_pval owner); [| discriminate].
    eapply upsert_linked_rels_mono; eauto. now rewrite rels_merge_node.
  - eapply upsert_linked_rels_mono; eauto.
Qed.

Lemma exec_all_rels_mono ss : forall st st' r0 r,
  exec_all ss st = (st', r0) -> In r (rels (db st)) -> In r (rels (db st')).
Proof.
  induction ss as [| s ss IH]; intros st st' r0 r H Hr; simpl in H.
  - now inversion H; subst.
  - assert (Hstep : forall st1 r1, run_stmt s st = (st1, r1) -> In r (rels (db st1))).
    { intros st1 r1 E. apply run_stmt_cases in E as [-> | E]; [exact Hr |].
      eapply exec_rels_mono; eauto. }
    destruct (run_stmt s st) as [st1 [[] | e]] eqn:E.
    + eapply IH; eauto.
    + inversion H; subst. eapply Hstep; eauto.
Qed.

Lemma in_find_count l p g i : In i (find l (key_of l) p g) -> 1 <= count l p g.
Proof.
  unfold count. destruct (find l (key_of l) p g); [intros [] | simpl; lia].
Qed.



(** *** The dependant and property loops *)


Section LinkedLoop.

(** One of the two loops that [MATCH] the primary client: the statement
    it issues, the label it merges, the relationship it adds and the kind
    in its ids. *)
Variable mk : json -> json -> json -> stmt.
Variable l : label.
Variable t : reltype.
Variable kind : string.
Hypothesis mk_exec : forall c id m g,
  exec (mk c id m) g =
  upsert_linked (match_ids Client "name" c g) l t (fun pm => pm) id m g.
Hypothesis mk_keeps : forall l' c id m, (l' = l -> kept "id" id m) -> keeps l' (mk c id m).
Hypothesis l_key : key_of l = "id".
Hypothesis l_not_client : l <> Client.

Variable primary : json.
Variable pp : pval.
Hypothesis primary_value : to_pval primary = Some pp.



End LinkedLoop.


Lemma lookup_none_not_in {A} k (d : list (string * A)) v :
  lookup k d = None -> ~ In (k, v) d.
Proof.
  induction d as [| [k' v'] d IH]; intros H Hin; [destruct Hin |].
  simpl in H. destruct (String.eqb k k') eqn:E; [discriminate |].
  destruct Hin as [Hin | Hin]; [| now apply IH].
  inversion Hin; subst. now rewrite String.eqb_refl in E.
Qed.

(** The first entry of [clients] is upserted under the primary name. *)
Lemma first_client_name doc first pp :
  to_pval (primary_name doc first) = Some pp ->
  client_name doc first first = primary_name doc first.
Proof.
  intros Hp. unfold primary_name, field in *.
  destruct (lookup "name" first) as [v |] eqn:E.
  - apply client_name_named; [exact E |]. now destruct v.
  - unfold client_name, primary_name, field. rewrite E.
    apply client_props_nameless. intros v Hin.
    now apply (lookup_none_not_in _ _ v) in E.
Qed.









(** *** C4 *)


(** ** Further properties of the upsert engine *)

(** *** Records that are not objects *)

(** X1: a record that is not a dict issues no statement: a false one
    ([None], [[]], [0], ...) makes the call return at once, a true one (a
    list, a string, a number) makes its first [.get] raise
    [AttributeError]; either way the store is left as it was. *)
Theorem non_object_record_no_write (entities : json) (document_name : string) :
  is_dict entities = false ->
  build_graph_from_entities entities document_name =
    ([], if truthy entities then Raise AttributeError else Ok tt) /\
  forall st, fst (build entities document_name st) = st.
Proof.
  intros H.
  assert (E : build_graph_from_entities entities document_name =
              ([], if truthy entities then Raise AttributeError else Ok tt)).
  { unfold build_graph_from_entities.
    destruct entities as [| b | n | s | l | d]; try discriminate H; cbn [truthy].
    - reflexivity.
    - destruct b; reflexivity.
    - destruct (Z.eqb n 0); reflexivity.
    - destruct (String.eqb s ""); reflexivity.
    - destruct l; reflexivity. }
  split; [exact E |].
  intros st. unfold build, run_session. rewrite E. cbn.
  destruct (truthy entities); reflexivity.
Qed.

(** *** Clients that the loop cannot start on *)

(** X2: when [clients] is true but is not a list that starts with a dict
    (a string, a number, a dict, a list of strings), the call raises
    before the client loop: apart from the adviser merge it issues
    nothing. *)
Theorem malformed_clients_raise (d : list (string * json)) (document_name : string) :
  truthy (field d "clients" (JList [])) = true ->
  starts_with_dict (field d "clients" (JList [])) = false ->
  exists e,
    build_graph_from_entities (JDict d) document_name =
    (adviser_part (field d "adviser" JNull), Raise e).
Proof.
  intros Ht Hs. unfold build_graph_from_entities.
  assert (Hd : truthy (JDict d) = true).
  { destruct d; [discriminate Ht | reflexivity]. }
  rewrite Hd. cbn [negb].
  rewrite !py_get_dict, bind_lift_ok, adviser_stmt_eq.
  unfold bind at 1. rewrite bind_lift_ok, Ht. cbn [negb].
  destruct (field d "clients" (JList [])) as [| b | n | s | l | c];
    try discriminate Ht.
  - eexists. cbn. now rewrite app_nil_r.
  - eexists. cbn. now rewrite app_nil_r.
  - destruct s as [| a s]; [discriminate Ht |].
    eexists. cbn. now rewrite app_nil_r.
  - destruct l as [| x l]; [discriminate Ht |].
    destruct x; try discriminate Hs; eexists; cbn; now rewrite app_nil_r.
  - eexists. cbn. now rewrite app_nil_r.
Qed.

(** ** The statements of a record of the schema's shape *)

Lemma all_accounts_ok mk kind primary items :
  forallb is_dict items = true ->
  forall item, In item (enumerate items) ->
    snd (upsert_account mk kind primary item) = Ok tt.
Proof.
  intros H item Hin. rewrite forallb_forall in H.
  specialize (H (snd item) (in_enumerate items item Hin)).
  unfold upsert_account. destruct (snd item); try discriminate. reflexivity.
Qed.

Lemma length_enumerate {A} (l : list A) : List.length (enumerate l) = List.length l.
Proof. unfold enumerate. rewrite length_combine, length_seq. apply Nat.min_id. Qed.

Lemma length_clients_part doc primary adviser cs :
  forallb is_dict cs = true ->
  List.length (clients_part doc primary adviser cs) =
  (if truthy adviser then 2 else 1) * List.length cs.
Proof.
  unfold clients_part. induction cs as [| c cs IH]; intros H; [now rewrite Nat.mul_0_r |].
  cbn [forallb] in H. apply andb_true_iff in H as [Hc H].
  cbn [flat_map List.length]. rewrite length_app, (IH H).
  destruct c; try discriminate. rewrite upsert_client_script. cbn [fst].
  destruct (truthy adviser); cbn [List.length]; lia.
Qed.

Lemma length_accounts_part mk kind primary items :
  forallb is_dict items = true ->
  List.length (accounts_part mk kind primary items) = List.length items.
Proof.
  intros H. unfold accounts_part. rewrite <- (length_enumerate items).
  assert (Hall : forall item, In item (enumerate items) -> is_dict (snd item) = true).
  { intros item Hin. rewrite forallb_forall in H. apply H. now apply in_enumerate. }
  induction (enumerate items) as [| item l IH]; [reflexivity |].
  cbn [flat_map List.length]. rewrite length_app, IH by (intros; apply Hall; now right).
  specialize (Hall item (or_introl eq_refl)). unfold upsert_account.
  destruct (snd item); try discriminate. reflexivity.
Qed.

Lemma bind_ok {A B} ss (a : A) (f : A -> W B) :
  bind (ss, Ok a) f = (ss ++ fst (f a), snd (f a)).
Proof. unfold bind. now destruct (f a). Qed.

(** X3: on a record of the shape the prompt asks for (a non-empty list
    of client objects, lists under [dependants], [properties], [pensions]
    and [investments], the accounts being objects, objects under [assets]
    and [goals]) the Python code itself never raises, and it issues, in
    this order: the adviser merge, the statements of each client, one
    statement per dependant, per property, per pension and per
    investment, and the retirement goal; each client takes two statements
    when the record names an adviser and one otherwise. *)
Theorem schema_shaped_record_script
    (d : list (string * json)) (document_name : string)
    (first : list (string * json)) (rest deps props pens invs : list json)
    (assets goals : list (string * json)) :
  lookup "clients" d = Some (JList (JDict first :: rest)) ->
  forallb is_dict rest = true ->
  field d "dependants" (JList []) = JList deps ->
  field d "assets" (JDict []) = JDict assets ->
  field assets "properties" (JList []) = JList props ->
  field assets "pensions" (JList []) = JList pens ->
  forallb is_dict pens = true ->
  field assets "investments" (JList []) = JList invs ->
  forallb is_dict invs = true ->
  field d "goals" (JDict []) = JDict goals ->
  let primary := primary_name document_name first in
  let adviser := field d "adviser" JNull in
  let retirement := field goals "retirement" JNull in
  build_graph_from_entities (JDict d) document_name =
    (adviser_part adviser ++
     clients_part document_name primary adviser (JDict first :: rest) ++
     dependants_part primary deps ++
     properties_part primary props ++
     accounts_part UpsertPension "pen" primary pens ++
     accounts_part UpsertInvestment "inv" primary invs ++
     goal_part primary retirement, Ok tt) /\
  List.length (fst (build_graph_from_entities (JDict d) document_name)) =
    (if truthy adviser then 1 else 0) +
    (if truthy adviser then 2 else 1) * S (List.length rest) +
    List.length deps + List.length props + List.length pens + List.length invs +
    (if truthy retirement then 1 else 0).
Proof.
  intros Hc Hrest Hdeps Hassets Hprops Hpens Hpd Hinvs Hid Hgoals primary adviser retirement.
  assert (E : build_graph_from_entities (JDict d) document_name =
    (adviser_part adviser ++
     clients_part document_name primary adviser (JDict first :: rest) ++
     dependants_part primary deps ++
     properties_part primary props ++
     accounts_part UpsertPension "pen" primary pens ++
     accounts_part UpsertInvestment "inv" primary invs ++
     goal_part primary retirement, Ok tt)).
  { unfold build_graph_from_entities.
    rewrite (lookup_some_truthy _ _ _ Hc). cbn [negb].
    assert (Hf : field d "clients" (JList []) = JList (JDict first :: rest))
      by (unfold field; now rewrite Hc).
    repeat (first [ rewrite py_get_dict | rewrite bind_lift_ok | rewrite bind_ok
                  | rewrite Hf | rewrite Hdeps | rewrite Hassets | rewrite Hgoals
                  | rewrite Hprops | rewrite Hpens | rewrite Hinvs
                  | rewrite adviser_stmt_eq | rewrite session_each_script
                  | rewrite for_each_all_ok
                      by first [ apply all_dicts_ok; cbn [forallb is_dict andb]; exact Hrest
                               | apply all_accounts_ok; assumption ] ];
            cbn [truthy negb py_getitem0 py_iter fst snd]).
    fold (primary_name document_name first). fold primary adviser retirement.
    fold (clients_part document_name primary adviser (JDict first :: rest)).
    fold (dependants_part primary deps) (properties_part primary props).
    fold (accounts_part UpsertPension "pen" primary pens).
    fold (accounts_part UpsertInvestment "inv" primary invs).
    unfold goal_part. destruct (truthy retirement); reflexivity. }
  split; [exact E |].
  rewrite E. cbn [fst]. rewrite !length_app.
  rewrite length_clients_part by (cbn [forallb is_dict andb]; exact Hrest).
  rewrite !length_accounts_part by assumption.
  unfold dependants_part, properties_part. rewrite !length_map, !length_enumerate.
  unfold adviser_part, goal_part. cbn [List.length].
  destruct (truthy adviser), (truthy retirement); cbn [List.length]; lia.
Qed.

(** ** Statements the store refuses *)

Lemma exec_all_refused s ss2 ss1 : forall st,
  (forall g, exists e, exec s g = Raise e) ->
  exists st1 r1 st' e,
    exec_all ss1 st = (st1, r1) /\
    exec_all (ss1 ++ s :: ss2) st = (st', Raise e) /\
    db st' = db st1.
Proof.
  induction ss1 as [| s0 ss1 IH]; intros st Hs.
  - exists st, (Ok tt). cbn [app exec_all]. unfold run_stmt.
    destruct (Hs (db st)) as [e0 E]. rewrite E.
    destruct (faults st) as [| [| n] fs]; do 2 eexists; repeat split.
  - cbn [app exec_all]. destruct (run_stmt s0 st) as [st0 [[] | e]].
    + apply IH. exact Hs.
    + exists st0, (Raise e), st0, e. repeat split.
Qed.

Lemma run_session_refused {A} (w : W A) s ss1 ss2 st :
  fst w = ss1 ++ s :: ss2 ->
  (forall g, exists e, exec s g = Raise e) ->
  exists st1 r1 st' e,
    exec_all ss1 st = (st1, r1) /\
    run_session w st = (st', Raise e) /\
    db st' = db st1.
Proof.
  intros Hw Hs. destruct (exec_all_refused s ss2 ss1 st Hs) as (st1 & r1 & st' & e & H1 & H2 & H3).
  exists st1, r1, st', e. unfold run_session. rewrite Hw, H2. auto.
Qed.

Lemma adviser_part_db a st st1 r1 :
  exec_all (adviser_part a) st = (st1, r1) ->
  db st1 = db st \/
  exists p, to_pval a = Some p /\ db st1 = merge_node Adviser "name" p (db st).
Proof.
  unfold adviser_part. destruct (truthy a); cbn [exec_all].
  - destruct (run_stmt (MergeAdviser a) st) as [st0 r0] eqn:E.
    intros H. assert (st1 = st0) by (destruct r0 as [[] |]; now inversion H). subst st0.
    apply run_stmt_cases in E as [E | E]; [now left | right].
    cbn [exec] in E. destruct (to_pval a) as [p |]; [| discriminate].
    exists p. split; [reflexivity | now inversion E].
  - intros H. inversion H. now left.
Qed.

Lemma first_statement_adviser d doc :
  truthy (field d "adviser" JNull) = true ->
  exists tail,
    fst (build_graph_from_entities (JDict d) doc) =
    MergeAdviser (field d "adviser" JNull) :: tail.
Proof.
  intros Ha. unfold build_graph_from_entities.
  assert (Hd : truthy (JDict d) = true).
  { destruct d; [discriminate Ha | reflexivity]. }
  rewrite Hd. cbn [negb]. rewrite py_get_dict, bind_lift_ok, Ha.
  rewrite bind_fst. cbn [fst snd session_run app]. eexists. reflexivity.
Qed.

Lemma first_client_statement d doc first rest :
  lookup "clients" d = Some (JList (JDict first :: rest)) ->
  exists tail,
    fst (build_graph_from_entities (JDict d) doc) =
    adviser_part (field d "adviser" JNull) ++
    UpsertClient (client_name doc first first)
      (JDict (client_props doc (primary_name doc first) first)) :: tail.
Proof.
  intros Hc. unfold build_graph_from_entities.
  rewrite (lookup_some_truthy _ _ _ Hc). cbn [negb].
  assert (Hf : field d "clients" (JList []) = JList (JDict first :: rest))
    by (unfold field; now rewrite Hc).
  rewrite !py_get_dict, bind_lift_ok, adviser_stmt_eq.
  rewrite bind_fst. cbn [fst snd]. rewrite bind_lift_ok, Hf.
  cbn [truthy negb py_getitem0 py_iter].
  rewrite bind_lift_ok, py_get_dict. fold (primary_name doc first).
  rewrite !bind_lift_ok, bind_fst. cbn [for_each].
  rewrite bind_fst, upsert_client_script. cbn [fst snd app].
  eexists. reflexivity.
Qed.

(** X4: an adviser that is true but is no value the store can hold (an
    object such as [{"name": ...}], a list of mixed kinds) makes every call
    raise on its first statement: the graph is left exactly as it was and
    no client of the record is written. *)
Theorem unstorable_adviser_fails
    (d : list (string * json)) (document_name : string) (st : store) :
  truthy (field d "adviser" JNull) = true ->
  to_pval (field d "adviser" JNull) = None ->
  exists st' e,
    build (JDict d) document_name st = (st', Raise e) /\ db st' = db st.
Proof.
  intros Ht Hp. destruct (first_statement_adviser d document_name Ht) as [tail E].
  destruct (run_session_refused (build_graph_from_entities (JDict d) document_name)
              (MergeAdviser (field d "adviser" JNull)) [] tail st E)
    as (st1 & r1 & st' & e & H1 & H2 & H3).
  { intros g. exists Neo4jError. cbn [exec]. now rewrite Hp. }
  cbn [exec_all] in H1. inversion H1; subst st1.
  exists st', e. split; [exact H2 | exact H3].
Qed.

(** X5: when the name the first client is upserted under is no value the
    store can merge on (the first entry's [name] is [null], or an object),
    every call raises at the first client upsert, whatever else the record
    holds: no client, dependant, asset or goal is written, and the graph
    holds what it held, with at most the Adviser node merged before. *)
Theorem unstorable_primary_name_fails
    (d : list (string * json)) (document_name : string)
    (first : list (string * json)) (rest : list json) (st : store) :
  lookup "clients" d = Some (JList (JDict first :: rest)) ->
  to_pval (client_name document_name first first) = None ->
  exists st' e,
    build (JDict d) document_name st = (st', Raise e) /\
    (db st' = db st \/
     exists p, to_pval (field d "adviser" JNull) = Some p /\
               db st' = merge_node Adviser "name" p (db st)).
Proof.
  intros Hc Hp. destruct (first_client_statement d document_name first rest Hc) as [tail E].
  destruct (run_session_refused (build_graph_from_entities (JDict d) document_name)
              _ _ tail st E)
    as (st1 & r1 & st' & e & H1 & H2 & H3).
  { intros g. exists Neo4jError. cbn [exec]. now rewrite Hp. }
  exists st', e. split; [exact H2 |]. rewrite H3.
  now apply (adviser_part_db _ st st1 r1).
Qed.

(** ** Further properties of the batch *)

(** *** Documents that give nothing to write *)

Lemma wp_pause {A} total i (a : A) (Q : world -> result A -> Prop) w :
  (forall evs r, Q (mkWorld (neo4j_store w) (log w ++ evs)) r) ->
  wp (mbind (if Nat.ltb i total
             then mbind (print (Sleeping DELAY_BETWEEN_DOCS_SECONDS)) (fun _ =>
                  sleep DELAY_BETWEEN_DOCS_SECONDS)
             else mret tt) (fun _ => mret a)) Q w.
Proof.
  intros H.
  assert (H0 : forall r, Q w r).
  { intros r. specialize (H [] r). rewrite app_nil_r in H. now destruct w. }
  apply wp_mbind. destruct (Nat.ltb i total).
  - apply wp_mbind, wp_print; [| intros x; apply H0].
    unfold sleep. apply wp_record. cbn [neo4j_store log]. rewrite <- app_assoc.
    apply wp_mret, H.
  - apply wp_mret, wp_mret, H0.
Qed.

(** On any standard output, a turn leaves the store as it was or as the
    upsert call left it. *)
Lemma iteration_store total i f counts w :
  neo4j_store (fst (iteration total i f counts w)) = neo4j_store w \/
  neo4j_store (fst (iteration total i f counts w)) = turn_store f (neo4j_store w).
Proof.
  change (wp (iteration total i f counts)
            (fun w' _ => neo4j_store w' = neo4j_store w \/
                         neo4j_store w' = turn_store f (neo4j_store w)) w).
  unfold iteration. apply wp_mbind, wp_print; [| intros x; now left].
  apply wp_mbind, wp_try_except.
  eapply wp_conseq; [| apply try_block_any]. cbn [neo4j_store log].
  intros w' r (_ & Hst & _). destruct r as [[fl c] | x].
  - cbn [fst snd]. destruct fl; [apply wp_mret; exact Hst |].
    apply wp_pause. intros evs r. exact Hst.
  - unfold except_block. apply wp_mbind, wp_print; [| intros y; exact Hst].
    apply wp_mret. cbn [fst snd]. apply wp_pause. intros evs r. exact Hst.
Qed.

Lemma turn_store_failed f st :
  text_of (filepath f) = "" \/ truthy (record_of (text_of (filepath f))) = false ->
  turn_store f st = st.
Proof.
  unfold turn_store. intros [-> | ->]; [reflexivity |]. now rewrite andb_false_r.
Qed.

(** X6: a document that cannot be read, whose text is empty, whose
    extraction raises or whose record is empty never reaches the store:
    whatever standard output does, the turn leaves the store as it found
    it; and when every line is taken, the turn prints no [GraphUpdated]
    line and counts the document as failed. *)
Theorem failed_document_leaves_store
    (total i : nat) (f : docx_file) (counts : nat * nat) (w : world) :
  is_ok (docx_text (filepath f)) = false \/
  text_of (filepath f) = "" \/
  is_ok (groq_json (text_of (filepath f))) = false \/
  truthy (record_of (text_of (filepath f))) = false ->
  neo4j_store (fst (iteration total i f counts w)) = neo4j_store w /\
  (reliable ->
   exists evs,
     iteration total i f counts w =
       (mkWorld (neo4j_store w) (log w ++ evs), Ok (fst counts, S (snd counts))) /\
     updated evs = 0).
Proof.
  intros H.
  assert (Hcase : text_of (filepath f) = "" \/
                  truthy (record_of (text_of (filepath f))) = false).
  { destruct H as [H | [H | [H | H]]].
    - left. now apply text_of_raise.
    - now left.
    - right. now apply record_of_raise.
    - now right. }
  pose proof (turn_store_failed f (neo4j_store w) Hcase) as Est.
  split.
  - destruct (iteration_store total i f counts w) as [E | E]; congruence.
  - intros Hr. rewrite iteration_eq by exact Hr. rewrite Est.
    exists (turn_events total i f (neo4j_store w)).
    assert (Hs : succeeds f (neo4j_store w) = false).
    { unfold succeeds. destruct Hcase as [-> | ->]; [reflexivity |].
      now rewrite andb_false_r. }
    rewrite Hs. split; [reflexivity |].
    unfold turn_events, updated, delay.
    change (Processing i total f :: ?l) with ([Processing i total f] ++ l).
    rewrite !filter_app, !length_app.
    assert (Er : List.length (filter (fun e => match e with GraphUpdated => true | _ => false end)
                                (read_events (filepath f))) = 0)
      by (unfold read_events; now destruct (docx_text (filepath f))).
    rewrite Er.
    destruct Hcase as [-> | E]; [reflexivity |].
    destruct (String.eqb (text_of (filepath f)) ""); [reflexivity |].
    rewrite E, !filter_app, !length_app.
    assert (Ee : List.length (filter (fun e => match e with GraphUpdated => true | _ => false end)
                                (extract_events (text_of (filepath f)))) = 0)
      by (unfold extract_events; now destruct (groq_json _) as [| []]).
    rewrite Ee. now destruct (Nat.ltb i total).
Qed.

(** *** The constraints *)

(** X7: [create_constraints] never raises and never prints.  Each of its
    six statements is attempted once, whatever the store refused before:
    the faults to come are those of six attempts later, and the graph is
    left as it was.  A store with no fault to come is left exactly as it
    was. *)
Theorem constraints_never_fail (w : world) :
  List.length constraints = 6 /\
  create_constraints w =
  (mkWorld (mkStore (db (neo4j_store w))
                    (attempt (attempt (attempt (attempt (attempt (attempt
                       (faults (neo4j_store w))))))))) (log w), Ok tt) /\
  (faults (neo4j_store w) = [] -> create_constraints w = (w, Ok tt)).
Proof.
  split; [reflexivity |].
  assert (E : create_constraints w =
              (mkWorld (constrained (neo4j_store w)) (log w), Ok tt))
    by (apply run_ignoring_eq, constraints_accepted).
  rewrite E. unfold constrained. cbn [List.length constraints Nat.iter nat_rect].
  split.
  - reflexivity.
  - destruct w as [[g fs] lg]. cbn [neo4j_store faults db log]. now intros ->.
Qed.

(** *** The closing summary *)

Lemma updated_app evs evs' : updated (evs ++ evs') = updated evs + updated evs'.
Proof. unfold updated. now rewrite filter_app, length_app. Qed.

Lemma not_updated_app evs evs' :
  not_updated (evs ++ evs') = not_updated evs + not_updated evs'.
Proof. unfold not_updated. now rewrite filter_app, length_app. Qed.

Lemma outcome_read path :
  updated (read_events path) = 0 /\ not_updated (read_events path) = 0.
Proof. unfold read_events. now destruct (docx_text path). Qed.

Lemma outcome_extract text :
  updated (extract_events text) = 0 /\ not_updated (extract_events text) = 0.
Proof. unfold extract_events. now destruct (groq_json text) as [| []]. Qed.

Lemma outcome_turn total i f st :
  updated (turn_events total i f st) = (if succeeds f st then 1 else 0) /\
  not_updated (turn_events total i f st) = (if succeeds f st then 0 else 1).
Proof.
  unfold turn_events, succeeds, delay.
  change (Processing i total f :: ?l) with ([Processing i total f] ++ l).
  rewrite !updated_app, !not_updated_app.
  destruct (outcome_read (filepath f)) as [-> ->].
  destruct (String.eqb (text_of (filepath f)) ""); [split; reflexivity |].
  rewrite !updated_app, !not_updated_app.
  destruct (outcome_extract (text_of (filepath f))) as [-> ->].
  destruct (truthy (record_of (text_of (filepath f))));
    cbn [negb andb].
  - destruct (snd (build _ _ _)); destruct (Nat.ltb i total); split; reflexivity.
  - destruct (Nat.ltb i total); split; reflexivity.
Qed.

Lemma outcome_batch total files : forall i st,
  updated (batch_events total i files st) = successes files st /\
  not_updated (batch_events total i files st) = List.length files - successes files st.
Proof.
  induction files as [| f rest IH]; intros i st; [split; reflexivity |].
  cbn [batch_events successes List.length].
  rewrite updated_app, not_updated_app.
  destruct (outcome_turn total i f st) as [-> ->].
  destruct (IH (S i) (turn_store f st)) as [-> ->].
  pose proof (successes_le rest (turn_store f st)).
  destruct (succeeds f st); split; lia.
Qed.

(** X8: on a standard output that takes every line, the batch prints its
    three header lines, the lines of its documents, and the summary
    between two rules; it returns the two counters of the summary,
    [successful] being the number of [GraphUpdated] lines the batch
    printed and [failed] the number of its failure lines (empty document,
    failed extraction, critical error).  With no file at all the header
    and the summary [Complete 0 0] are all there is. *)
Theorem summary_matches_log (docx_files : list docx_file) (w : world) :
  reliable ->
  exists w' successful failed evs,
    process_all_documents docx_files w = (w', Ok (successful, failed)) /\
    log w' = log w ++
             [Found (List.length docx_files); UsingModel;
              RateLimiting DELAY_BETWEEN_DOCS_SECONDS] ++
             evs ++ [Rule; Complete successful failed; Rule] /\
    updated evs = successful /\
    not_updated evs = failed /\
    (docx_files = [] -> evs = [] /\ successful = 0 /\ failed = 0).
Proof.
  intros H.
  set (st := constrained (neo4j_store w)).
  destruct (outcome_batch (List.length docx_files) docx_files 1 st) as [Hu Hn].
  exists (fst (process_all_documents docx_files w)),
         (successes docx_files st),
         (List.length docx_files - successes docx_files st),
         (batch_events (List.length docx_files) 1 docx_files st).
  rewrite process_all_documents_eq by exact H. cbn [fst log]. fold st.
  split; [reflexivity |]. split; [reflexivity |].
  split; [exact Hu |]. split; [exact Hn |].
  intros ->. repeat split.
Qed.

(** *** The entry point *)

(** X9: with the API key set, [main] stops on a missing documents
    directory before the driver is built.  Otherwise it builds the driver
    and then the extraction client, and raises what either raises with
    nothing printed; the driver is not closed when the client cannot be
    built.  Once both are built, the driver is closed however the batch
    ends: [main] returns what the batch returned or raises what it raised,
    unless closing raises, which takes precedence.  The batch itself
    returns when standard output takes the lines printed outside the [try]
    block.  The address and the user default to [bolt://localhost:7687]
    and [neo4j]. *)
Theorem main_closes_the_driver
    (env : environ) (documents_dir : option (list docx_file)) (w : world) :
  unset (GROQ_API_KEY env) = false ->
  match documents_dir with
  | None => main env documents_dir w = print MissingDirectory w
  | Some docx_files =>
      match graph_driver (getenv (NEO4J_URI env) "bolt://localhost:7687")
                         (getenv (NEO4J_USER env) "neo4j") (NEO4J_PASSWORD env) with
      | Raise e => main env documents_dir w = (w, Raise e)
      | Ok _ =>
          match groq_client (GROQ_API_KEY env) with
          | Raise e => main env documents_dir w = (w, Raise e)
          | Ok _ =>
              exists w' r,
                process_all_documents docx_files w = (w', r) /\
                main env documents_dir w =
                match driver_close (neo4j_store w') with
                | Ok _ =>
                    (mkWorld (neo4j_store w') (log w' ++ [Closed]),
                     match r with Ok _ => Ok tt | Raise e => Raise e end)
                | Raise e => (w', Raise e)
                end /\
                (steady ->
                 exists successful failed,
                   r = Ok (successful, failed) /\
                   successful + failed = List.length docx_files)
          end
      end
  end.
Proof.
  intros Hk. unfold main. rewrite Hk.
  destruct documents_dir as [docx_files |]; [| reflexivity].
  unfold Neo4jGraphBuilder_init. rewrite Hk.
  destruct (graph_driver _ _ _) as [[] | e]; [| reflexivity].
  destruct (groq_client _) as [[] | e]; [| reflexivity].
  unfold mbind at 1, mret at 1, try_finally, close.
  exists (fst (process_all_documents docx_files w)),
         (snd (process_all_documents docx_files w)).
  split; [now destruct (process_all_documents docx_files w) |].
  split.
  - unfold mbind, mret.
    destruct (process_all_documents docx_files w) as [w' [c | e]];
      cbn [fst snd]; now destruct (driver_close (neo4j_store w')) as [[] | x].
  - intros Hs.
    destruct (process_all_documents_steady docx_files w Hs)
      as (w' & s & fl & evs & E & Hsum & _).
    rewrite E. now exists s, fl.
Qed.

(** ** What a statement is made of *)

Lemma effect_upsert_linked s cs l t pre id m g g' :
  merged s l = Some id ->
  set_of s = Some (l, id, m, pre) ->
  key_of l = "id" ->
  upsert_linked cs l t pre id m g = Ok g' ->
  effect s g g'.
Proof.
  intros Hm Hs Hk H. unfold upsert_linked in H.
  destruct cs as [| c cs]; [inversion H; subst; constructor |].
  destruct (to_pval id) as [p |] eqn:Hp; [| discriminate].
  destruct (props_param m) as [us |] eqn:Hus; [| discriminate].
  cbv zeta in H. injection H as <-. rewrite <- Hk.
  apply (effect_merge s l id p); auto.
  apply (effect_set s l id m pre p us); auto.
  eapply effect_rels. constructor.
Qed.

Lemma exec_effect s g g' : exec s g = Ok g' -> effect s g g'.
Proof.
  intros H. destruct s; cbn [exec] in H.
  - inversion H; subst. constructor.
  - destruct (to_pval name) as [p |] eqn:Hp; [| discriminate]. inversion H; subst.
    apply (effect_merge _ Adviser name p); auto. constructor.
  - destruct (to_pval name) as [p |] eqn:Hp; [| discriminate].
    destruct (props_param props) as [us |] eqn:Hus; [| discriminate].
    inversion H; subst.
    apply (effect_merge _ Client name p); auto.
    apply (effect_set _ Client name props (fun pm => pm) p us); auto.
    constructor.
  - inversion H; subst. eapply effect_rels. constructor.
  - eapply effect_upsert_linked; eauto; reflexivity.
  - eapply effect_upsert_linked; eauto; reflexivity.
  - destruct (to_pval owner) as [p |] eqn:Hp; [| discriminate].
    apply (effect_merge _ Client owner p); auto.
    eapply effect_upsert_linked; eauto; reflexivity.
  - destruct (to_pval owner) as [p |] eqn:Hp; [| discriminate].
    apply (effect_merge _ Client owner p); auto.
    eapply effect_upsert_linked; eauto; reflexivity.
  - eapply effect_upsert_linked; eauto; reflexivity.
Qed.

(** A relation between graphs that every statement of a run respects is
    respected by the run, however it ends. *)
Lemma exec_all_rel (T : graph -> graph -> Prop) (Q : stmt -> Prop) ss :
  (forall g, T g g) ->
  (forall g1 g2 g3, T g1 g2 -> T g2 g3 -> T g1 g3) ->
  (forall s g g', Q s -> exec s g = Ok g' -> T g g') ->
  Forall Q ss ->
  forall st st' r, exec_all ss st = (st', r) -> T (db st) (db st').
Proof.
  intros Hrefl Htrans Hstep. induction ss as [| s ss IH]; intros HQ st st' r H.
  - cbn in H. inversion H; subst. apply Hrefl.
  - inversion HQ as [| ? ? Hs Hss]; subst. cbn [exec_all] in H.
    destruct (run_stmt s st) as [st1 r1] eqn:E.
    assert (H1 : T (db st) (db st1)).
    { apply run_stmt_cases in E as [-> | E]; [apply Hrefl | now apply (Hstep s)]. }
    destruct r1 as [[] | e].
    + apply (Htrans _ (db st1)); [exact H1 | now apply (IH Hss st1 st' r)].
    + now inversion H; subst.
Qed.

Lemma build_store e doc st :
  fst (build e doc st) = fst (exec_all (fst (build_graph_from_entities e doc)) st).
Proof.
  unfold build, run_session.
  now destruct (exec_all (fst (build_graph_from_entities e doc)) st) as [st' [[] | x]].
Qed.

(** *** Nothing is deleted *)

Lemma preserves_refl g : preserves g g.
Proof. split; [exists []; now rewrite app_nil_r | apply incl_refl]. Qed.

Lemma preserves_trans g1 g2 g3 : preserves g1 g2 -> preserves g2 g3 -> preserves g1 g3.
Proof.
  intros [[e1 H1] R1] [[e2 H2] R2]. split.
  - exists (e1 ++ e2). now rewrite H2, H1, app_assoc.
  - eapply incl_tran; eauto.
Qed.

Lemma effect_labels s g g' :
  effect s g g' -> exists extra, map n_label (nodes g') = map n_label (nodes g) ++ extra.
Proof.
  induction 1 as [g | l x p g g' _ _ _ [e IH] | l x m pre p us g g' _ _ _ _ [e IH]
                  | rs g g' _ [e IH]].
  - exists []. now rewrite app_nil_r.
  - rewrite IH. unfold merge_node. destruct (existsb _ _); [now exists e |].
    cbn [nodes]. rewrite map_app, <- app_assoc. eexists. reflexivity.
  - rewrite IH. unfold set_where. cbn [nodes]. rewrite map_map.
    exists e. f_equal. apply map_ext. intros n. now destruct (has _ _ _ n).
  - rewrite IH, nodes_merge_rels. now exists e.
Qed.

Lemma exec_preserves s g g' : exec s g = Ok g' -> preserves g g'.
Proof.
  intros H. split.
  - now apply (effect_labels s), exec_effect.
  - intros r. now apply (exec_rels_mono s).
Qed.

Lemma exec_all_preserves ss st st' r :
  exec_all ss st = (st', r) -> preserves (db st) (db st').
Proof.
  apply (exec_all_rel preserves (fun _ => True) ss).
  - apply preserves_refl.
  - apply preserves_trans.
  - intros s g g' _. apply exec_preserves.
  - apply Forall_forall. auto.
Qed.

Lemma build_preserves e doc st : preserves (db st) (db (fst (build e doc st))).
Proof.
  rewrite build_store.
  destruct (exec_all (fst (build_graph_from_entities e doc)) st) as [st' r] eqn:E.
  exact (exec_all_preserves _ st st' r E).
Qed.

Lemma turn_store_preserves f st : preserves (db st) (db (turn_store f st)).
Proof.
  unfold turn_store. destruct (_ && _); [apply build_preserves | apply preserves_refl].
Qed.

(** The loop and the batch on any standard output, however they end. *)
Lemma documents_loop_preserves total files : forall i counts w,
  preserves (db (neo4j_store w))
            (db (neo4j_store (fst (documents_loop total i files counts w)))).
Proof.
  induction files as [| f rest IH]; intros i counts w; [apply preserves_refl |].
  cbn [documents_loop]. unfold mbind.
  assert (H : preserves (db (neo4j_store w))
                (db (neo4j_store (fst (iteration total i f counts w))))).
  { destruct (iteration_store total i f counts w) as [-> | ->];
      [apply preserves_refl | apply turn_store_preserves]. }
  destruct (iteration total i f counts w) as [w1 [c | e]]; cbn [fst] in *; [| exact H].
  eapply preserves_trans; [exact H | apply IH].
Qed.

Lemma process_all_documents_preserves docx_files w :
  preserves (db (neo4j_store w))
            (db (neo4j_store (fst (process_all_documents docx_files w)))).
Proof.
  change (wp (process_all_documents docx_files)
            (fun w' _ => preserves (db (neo4j_store w)) (db (neo4j_store w'))) w).
  unfold process_all_documents.
  apply wp_mbind, wp_print; [| intros x; apply preserves_refl].
  apply wp_mbind, wp_print; [| intros x; apply preserves_refl].
  apply wp_mbind, wp_print; [| intros x; apply preserves_refl].
  apply wp_mbind. unfold wp at 1, create_constraints.
  rewrite run_ignoring_eq by exact constraints_accepted. cbn [fst snd neo4j_store log].
  apply wp_mbind.
  match goal with
  | |- wp (documents_loop ?t ?i ?fs ?c) _ ?w0 =>
      pose proof (documents_loop_preserves t fs i c w0) as H;
      unfold wp at 1; destruct (documents_loop t i fs c w0) as [w1 [c1 | e]]
  end; cbn [fst snd neo4j_store db] in *; [| exact H].
  apply wp_mbind, wp_print; [| intros x; exact H].
  apply wp_mbind, wp_print; [| intros x; exact H].
  apply wp_mbind, wp_print; [| intros x; exact H].
  apply wp_mret. exact H.
Qed.

(** X10: there is no deletion path.  Whatever the record and however the
    call ends, every node the graph held is still there afterwards, at its
    place and under its label, and so is every relationship; the same
    holds of a whole batch, whatever the documents, the services, the
    store and standard output do. *)
Theorem nothing_is_ever_deleted
    (entities : json) (document_name : string) (st : store)
    (docx_files : list docx_file) (w : world) :
  preserves (db st) (db (fst (build entities document_name st))) /\
  preserves (db (neo4j_store w))
            (db (neo4j_store (fst (process_all_documents docx_files w)))).
Proof.
  split; [apply build_preserves | apply process_all_documents_preserves].
Qed.

(** *** The statements of a call, however it ends *)




(** *** Attributes a record does not give *)







(** ** Links written by a call *)

Lemma keeps_adviser s : keeps Adviser s.
Proof. destruct s; cbn; auto; intros H; discriminate H. Qed.

Lemma all_keep_adviser ss : Forall (keeps Adviser) ss.
Proof. apply Forall_forall. intros s _. apply keeps_adviser. Qed.

Lemma link_persists_between l1 l2 p1 p2 t ss st st' r a b :
  Forall (keeps l1) ss ->
  Forall (keeps l2) ss ->
  exec_all ss st = (st', r) ->
  In a (find l1 (key_of l1) p1 (db st)) ->
  In b (find l2 (key_of l2) p2 (db st)) ->
  In (mkRel a t b) (rels (db st)) ->
  In a (find l1 (key_of l1) p1 (db st')) /\
  In b (find l2 (key_of l2) p2 (db st')) /\
  In (mkRel a t b) (rels (db st')).
Proof.
  intros Hk1 Hk2 H Ha Hb Hr.
  pose proof (exec_all_evolves l1 ss st st' r Hk1 H) as He1.
  pose proof (exec_all_evolves l2 ss st st' r Hk2 H) as He2.
  repeat split.
  - rewrite (ev_same _ _ _ He1 p1); [exact Ha |]. now apply (in_find_count l1 p1 (db st) a).
  - rewrite (ev_same _ _ _ He2 p2); [exact Hb |]. now apply (in_find_count l2 p2 (db st) b).
  - eapply exec_all_rels_mono; eauto.
Qed.

Lemma find_merge_rels l k p rs g : find l k p (merge_rels rs g) = find l k p g.
Proof. unfold find. now rewrite nodes_merge_rels. Qed.

Lemma exec_all_present_adviser ss : forall st st' a,
  exec_all ss st = (st', Ok tt) ->
  In (MergeAdviser a) ss ->
  exists p, to_pval a = Some p /\ 1 <= count Adviser p (db st').
Proof.
  induction ss as [| s ss IH]; intros st st' a H Hin; [destruct Hin |].
  cbn [exec_all] in H.
  destruct (run_stmt s st) as [st1 [[] | e]] eqn:E; [| discriminate].
  destruct Hin as [-> | Hin]; [| now apply (IH st1 st' a)].
  apply run_stmt_ok in E. cbn [exec] in E.
  destruct (to_pval a) as [p |] eqn:Hp; [| discriminate].
  exists p. split; [reflexivity |]. injection E as E.
  assert (H1 : 1 <= count Adviser p (db st1)).
  { apply count_in. rewrite <- E. apply (merge_grows_same Adviser a p (db st) Hp). }
  pose proof (ev_mono _ _ _ (exec_all_evolves Adviser ss st1 st' _ (all_keep_adviser ss) H) p).
  lia.
Qed.

Lemma clients_part_split doc primary adviser cs items :
  In (JDict items) cs ->
  exists C1 C2,
    clients_part doc primary adviser cs =
    C1 ++
    UpsertClient (props_name (client_props doc primary items))
      (JDict (client_props doc primary items)) ::
    (if truthy adviser
     then [LinkAdviser (props_name (client_props doc primary items)) adviser]
     else []) ++ C2.
Proof.
  intros Hin. apply in_split in Hin as (l1 & l2 & ->).
  unfold clients_part. rewrite flat_map_app. cbn [flat_map].
  rewrite upsert_client_script. cbn [fst].
  do 2 eexists. reflexivity.
Qed.

Lemma find_nonempty l p g :
  1 <= count l p g -> exists i, In i (find l (key_of l) p g).
Proof.
  unfold count. destruct (find l (key_of l) p g) as [| i rest]; cbn; [lia |].
  intros _. exists i. now left.
Qed.

(** X12: after a call that returns normally on a record that names an
    adviser (a value the store can hold), every entry of [clients] has a
    Client node under the name it was upserted with, and that node is
    linked from an Adviser node of the adviser's name by an [ADVISES]
    relationship. *)
Theorem adviser_is_linked_to_every_client
    (d : list (string * json)) (document_name : string)
    (first : list (string * json)) (rest : list json)
    (items : list (string * json)) (pa : pval) (st st' : store) :
  lookup "clients" d = Some (JList (JDict first :: rest)) ->
  truthy (field d "adviser" JNull) = true ->
  to_pval (field d "adviser" JNull) = Some pa ->
  In (JDict items) (JDict first :: rest) ->
  build (JDict d) document_name st = (st', Ok tt) ->
  exists pc a c,
    to_pval (client_name document_name first items) = Some pc /\
    In a (find Adviser "name" pa (db st')) /\
    In c (find Client "name" pc (db st')) /\
    In (mkRel a ADVISES c) (rels (db st')).
Proof.
  intros Hc Ht Hpa Hin B.
  apply build_ok in B as (ss & Hs & He).
  pose proof (build_keeps_client d document_name ss first rest Hc Hs) as Hk.
  destruct (build_ok_inv d document_name ss first rest Hc Hs)
    as (deps & props & pens & invs & assets & goals & _ & _ & _ & _ & _ & _ & _ & E).
  set (primary := primary_name document_name first) in *.
  set (adviser := field d "adviser" JNull) in *.
  set (x := client_name document_name first items).
  set (m := JDict (client_props document_name primary items)).
  destruct (clients_part_split document_name primary adviser _ items Hin) as (C1 & C2 & EC).
  fold x m in EC. rewrite Ht in EC.
  assert (Hsplit : exists post,
            ss = ((adviser_part adviser ++ C1) ++ [UpsertClient x m]) ++
                 LinkAdviser x adviser :: post).
  { rewrite E, EC. eexists. rewrite <- !app_assoc. cbn [app]. reflexivity. }
  destruct Hsplit as [post Ess]. clear E EC.
  rewrite Ess in He, Hk.
  apply Forall_app in Hk as [Hkpre Hkpost].
  inversion Hkpost as [| ? ? _ Hkp]; subst.
  apply exec_all_app in He as (sU & HU & He).
  cbn [exec_all] in He.
  destruct (run_stmt (LinkAdviser x adviser) sU) as [sL [[] | e]] eqn:EL; [| discriminate].
  apply run_stmt_ok in EL. cbn [exec] in EL. injection EL as EL.
  (* both ends are there when the link statement runs *)
  destruct (exec_all_present _ st sU (UpsertClient x m) x Hkpre HU) as (pc & Hpc & Hcc).
  { apply in_or_app. right. now left. }
  { reflexivity. }
  destruct (exec_all_present_adviser _ st sU adviser HU) as (pa' & Hpa' & Hca).
  { apply in_or_app. left. apply in_or_app. left.
    unfold adviser_part. rewrite Ht. now left. }
  assert (pa' = pa) by congruence. subst pa'.
  destruct (find_nonempty Adviser pa (db sU) Hca) as [a Ha].
  destruct (find_nonempty Client pc (db sU) Hcc) as [c Hcl].
  unfold match_ids in EL. rewrite Hpa, Hpc in EL.
  exists pc, a, c. split; [exact Hpc |].
  apply (link_persists_between Adviser Client pa pc ADVISES post sL st' (Ok tt) a c);
    auto.
  - apply all_keep_adviser.
  - rewrite <- EL. cbn [key_of]. now rewrite find_merge_rels.
  - rewrite <- EL. cbn [key_of]. now rewrite find_merge_rels.
  - rewrite <- EL. apply rels_merge_rels_in. now apply in_pairs.
Qed.

(** *** What a linked upsert leaves *)


Lemma upsert_linked_param cs l t pre id m g g' :
  cs <> [] ->
  upsert_linked cs l t pre id m g = Ok g' ->
  exists p us, to_pval id = Some p /\ props_param m = Some us.
Proof.
  intros Hcs H. unfold upsert_linked in H. destruct cs as [| c cs]; [now elim Hcs |].
  destruct (to_pval id) as [p |]; [| discriminate].
  destruct (props_param m) as [us |]; [| discriminate].
  now exists p, us.
Qed.



(** *** The retirement goal *)


(** *** Accounts *)

Lemma accounts_part_keeps_id mk kind l0 l primary items :
  (forall o id m, keeps l (mk o id m) = (l = l0 -> kept "id" id m)) ->
  (l = l0 -> Forall lacks_id items) ->
  Forall (keeps l) (accounts_part mk kind primary items).
Proof.
  intros Hmk H. unfold accounts_part. apply Forall_flat_map, Forall_forall.
  intros item Hin. unfold upsert_account.
  destruct (py_get (snd item) "owner" primary); cbn; repeat constructor.
  rewrite Hmk. intros Hl. apply lacks_id_kept.
  specialize (H Hl). rewrite Forall_forall in H. apply H. now apply in_enumerate.
Qed.

(** The statements of a call keep the keys of label [l] when the entries
    upserted under that label carry no [id] of their own. *)
Lemma script_keeps l doc primary adviser cs deps props pens invs retirement :
  (l = Dependant -> Forall lacks_id deps) ->
  (l = Property -> Forall lacks_id props) ->
  (l = Pension -> Forall lacks_id pens) ->
  (l = Investment -> Forall lacks_id invs) ->
  (l = Goal -> lacks_id retirement) ->
  Forall (keeps l)
    (adviser_part adviser ++ clients_part doc primary adviser cs ++
     dependants_part primary deps ++ properties_part primary props ++
     accounts_part UpsertPension "pen" primary pens ++
     accounts_part UpsertInvestment "inv" primary invs ++
     goal_part primary retirement).
Proof.
  intros Hd Hp Hpn Hiv Hg.
  apply Forall_app; split; [apply adviser_part_keeps |].
  apply Forall_app; split; [apply clients_part_keeps |].
  apply Forall_app; split; [now apply dependants_part_keeps |].
  apply Forall_app; split; [now apply properties_part_keeps |].
  apply Forall_app; split.
  { apply (accounts_part_keeps_id UpsertPension "pen" Pension); [reflexivity | exact Hpn]. }
  apply Forall_app; split.
  { apply (accounts_part_keeps_id UpsertInvestment "inv" Investment);
      [reflexivity | exact Hiv]. }
  unfold goal_part. destruct (truthy retirement); repeat constructor.
  intros Hl. apply lacks_id_kept. now apply Hg.
Qed.

Section AccountLink.

(** One of the two account loops: the statement it issues and the label
    it merges. *)
Variable mk : json -> json -> json -> stmt.
Variable l : label.
Hypothesis mk_exec : forall o id m g,
  exec (mk o id m) g =
  match to_pval o with
  | Some p =>
      upsert_linked (find Client "name" p (merge_node Client "name" p g))
        l HAS_ACCOUNT (fun pm => pm) id m (merge_node Client "name" p g)
  | None => Raise Neo4jError
  end.
Hypothesis l_key : key_of l = "id".
Hypothesis l_not_client : l <> Client.


End AccountLink.


(** *** What the node of a dependant or of a property holds *)






Section LinkedEntry.

Variable mk : json -> json -> json -> stmt.
Variable l : label.
Variable t : reltype.
Variable kind : string.
Hypothesis mk_exec : forall c id m g,
  exec (mk c id m) g =
  upsert_linked (match_ids Client "name" c g) l t (fun pm => pm) id m g.
Hypothesis mk_keeps : forall l' c id m, (l' = l -> kept "id" id m) -> keeps l' (mk c id m).
Hypothesis mk_merged : forall c id m, merged (mk c id m) l = Some id.
Hypothesis l_key : key_of l = "id".
Hypothesis l_not_client : l <> Client.

Variable primary : json.
Variable pp : pval.
Hypothesis primary_value : to_pval primary = Some pp.




End LinkedEntry.



(** ** Upserting the same record again *)

Lemma exec_evolves_all s g g' :
  (forall l, keeps l s) -> exec s g = Ok g' -> forall l, evolves l g g'.
Proof. intros Hk H l. eapply grows_evolves, exec_grows; eauto. Qed.

Lemma present_mono g g' lx :
  (forall l, evolves l g g') -> present g lx -> present g' lx.
Proof.
  intros He (p & Hp & Hc). exists p. split; [exact Hp |].
  pose proof (ev_mono _ _ _ (He (fst lx)) p). lia.
Qed.

Lemma match_ids_stable l x g g' :
  evolves l g g' -> present g (l, x) ->
  match_ids l (key_of l) x g' = match_ids l (key_of l) x g.
Proof.
  intros He (p & Hp & Hc). cbn [fst snd] in *. unfold match_ids. rewrite Hp.
  now apply (ev_same _ _ _ He).
Qed.

Lemma links_stable s g g' :
  (forall l, evolves l g g') ->
  Forall (present g) (touches s) ->
  links_of s g' = links_of s g.
Proof.
  intros He Hp.
  destruct s; cbn [links_of touches] in *; try reflexivity;
    inversion Hp as [| ? ? H1 Hp']; subst; inversion Hp' as [| ? ? H2 _]; subst.
  - pose proof (match_ids_stable Adviser a_name g g' (He _) H1) as E1.
    pose proof (match_ids_stable Client c_name g g' (He _) H2) as E2.
    cbn [key_of] in E1, E2. now rewrite E1, E2.
  - pose proof (match_ids_stable Client p_name g g' (He _) H1) as E1.
    pose proof (match_ids_stable Dependant id g g' (He _) H2) as E2.
    cbn [key_of] in E1, E2. now rewrite E1, E2.
  - pose proof (match_ids_stable Client c_name g g' (He _) H1) as E1.
    pose proof (match_ids_stable Property id g g' (He _) H2) as E2.
    cbn [key_of] in E1, E2. now rewrite E1, E2.
  - pose proof (match_ids_stable Client owner g g' (He _) H1) as E1.
    pose proof (match_ids_stable Pension id g g' (He _) H2) as E2.
    cbn [key_of] in E1, E2. now rewrite E1, E2.
  - pose proof (match_ids_stable Client owner g g' (He _) H1) as E1.
    pose proof (match_ids_stable Investment id g g' (He _) H2) as E2.
    cbn [key_of] in E1, E2. now rewrite E1, E2.
  - pose proof (match_ids_stable Client name g g' (He _) H1) as E1.
    pose proof (match_ids_stable Goal id g g' (He _) H2) as E2.
    cbn [key_of] in E1, E2. now rewrite E1, E2.
Qed.

Lemma settled_mono s g g' :
  (forall l, evolves l g g') ->
  incl (rels g) (rels g') ->
  settled s g -> settled s g'.
Proof.
  intros He Hr [Hp Hl]. split.
  - eapply Forall_impl; [| exact Hp]. intros lx. now apply present_mono.
  - rewrite (links_stable s g g' He Hp). eapply incl_tran; eauto.
Qed.

Lemma same_shape_evolves g g' : same_shape g g' -> forall l, evolves l g g'.
Proof.
  intros [Hc _] l. apply (grows_evolves l None). rewrite Hc. apply grows_refl.
Qed.

Lemma same_shape_refl g : same_shape g g.
Proof. split; auto. Qed.

Lemma same_shape_trans g1 g2 g3 : same_shape g1 g2 -> same_shape g2 g3 -> same_shape g1 g3.
Proof.
  intros [C1 R1] [C2 R2]. split; [intros l; now rewrite C2, C1 | congruence].
Qed.

Lemma settled_same s g g' : same_shape g g' -> settled s g -> settled s g'.
Proof.
  intros H. apply settled_mono; [now apply same_shape_evolves |].
  destruct H as [_ ->]. apply incl_refl.
Qed.

Lemma merged_touches s l x : merged s l = Some x -> In (l, x) (touches s).
Proof.
  destruct s, l; cbn; intros H; try discriminate H; injection H as <-; auto.
Qed.

(** *** Relationships merged again *)

Lemma merge_rels_incl rs : forall g, incl rs (rels g) -> merge_rels rs g = g.
Proof.
  unfold merge_rels. induction rs as [| r rs IH]; intros g H; cbn; [reflexivity |].
  unfold merge_rel. destruct (in_dec rel_eq_dec r (rels g)) as [_ | Hn].
  - apply IH. intros r' Hr'. apply H. now right.
  - elim Hn. apply H. now left.
Qed.

Lemma rels_merge_rels_ext rs : forall g1 g2,
  rels g1 = rels g2 -> rels (merge_rels rs g1) = rels (merge_rels rs g2).
Proof.
  unfold merge_rels. induction rs as [| r rs IH]; intros g1 g2 H; cbn; [exact H |].
  apply IH. unfold merge_rel. rewrite H.
  destruct (in_dec rel_eq_dec r (rels g2)); cbn [rels]; congruence.
Qed.

Lemma merge_node_present l p g :
  1 <= count l p g -> merge_node l (key_of l) p g = g.
Proof.
  intros H. unfold merge_node.
  destruct (existsb (has l (key_of l) p) (nodes g)) eqn:E; [reflexivity |].
  apply not_exists_count in E. lia.
Qed.

Lemma find_column l p g g' :
  column l g' = column l g -> find l (key_of l) p g' = find l (key_of l) p g.
Proof. intros H. now rewrite !find_hits, H. Qed.

(** What a linked upsert leaves, for the clients bound by a name that is
    there. *)
Lemma upsert_linked_settles l t pre id m g g' pc :
  l <> Client ->
  key_of l = "id" ->
  kept "id" id m ->
  (forall pm, lookup "id" (pre pm) = lookup "id" pm) ->
  1 <= count Client pc g ->
  upsert_linked (find Client "name" pc g) l t pre id m g = Ok g' ->
  exists p,
    to_pval id = Some p /\
    1 <= count l p g' /\
    1 <= count Client pc g' /\
    incl (pairs t (find Client "name" pc g') (find l "id" p g')) (rels g').
Proof.
  intros Hne Hkey Hk Hpre Hc H.
  destruct (find_nonempty Client pc g Hc) as [c0 Hc0]. cbn [key_of] in Hc0.
  assert (Hcs : find Client "name" pc g <> []).
  { intros E. rewrite E in Hc0. destruct Hc0. }
  destruct (upsert_linked_param _ _ _ _ _ _ _ _ Hcs H) as (p & us & Hp & Hus).
  exists p. split; [exact Hp |].
  destruct (upsert_linked_grows Client (find Client "name" pc g) l t pre id m g g' Hkey
              (fun E => False_ind _ (Hne E)) Hpre H) as [Hgc _].
  apply grows_evolves in Hgc.
  destruct (upsert_linked_grows l (find Client "name" pc g) l t pre id m g g' Hkey
              (fun _ => Hk) Hpre H) as [_ Hin].
  destruct (Hin Hcs eq_refl) as (p' & Hp' & Hin').
  assert (p' = p) by congruence. subst p'.
  split; [now apply count_in |].
  split; [pose proof (ev_mono _ _ _ Hgc pc); lia |].
  assert (Efc : find Client "name" pc g' = find Client "name" pc g).
  { change "name" with (key_of Client). now apply (ev_same _ _ _ Hgc). }
  rewrite Efc.
  unfold upsert_linked in H. destruct (find Client "name" pc g) as [| c cs] eqn:Ecs;
    [now elim Hcs |].
  rewrite Hp, Hus in H. cbv zeta in H. injection H as <-.
  set (g1 := merge_node l "id" p g).
  set (g2 := set_where l "id" p (fun pm => apply_updates us (pre pm)) g1).
  assert (Efl : forall rs, find l "id" p (merge_rels rs g2) = find l "id" p g1).
  { intros rs. rewrite <- Hkey. apply find_column.
    rewrite column_merge_rels. unfold g2. rewrite <- Hkey.
    apply (set_column l l id p m us pre); auto. now rewrite Hkey. now rewrite Hkey. }
  rewrite Efl. intros r Hr. now apply rels_merge_rels_in.
Qed.

(** The same upsert on a graph that already holds both nodes. *)
Lemma upsert_linked_again l t pre id m g g' pc p :
  key_of l = "id" ->
  to_pval id = Some p ->
  1 <= count l p g ->
  upsert_linked (find Client "name" pc g) l t pre id m g = Ok g' ->
  rels g' = rels (merge_rels (pairs t (find Client "name" pc g) (find l "id" p g)) g).
Proof.
  intros Hkey Hp Hc H. unfold upsert_linked in H.
  destruct (find Client "name" pc g) as [| c cs]; [now inversion H; subst |].
  rewrite Hp in H. destruct (props_param m) as [us |]; [| discriminate].
  cbv zeta in H. injection H as <-.
  rewrite <- Hkey. rewrite (merge_node_present l p g Hc).
  apply rels_merge_rels_ext. reflexivity.
Qed.

(** *** One statement, the first time and again *)

Lemma present_client g c pc :
  to_pval c = Some pc -> 1 <= count Client pc g -> present g (Client, c).
Proof. intros Hp Hc. now exists pc. Qed.

(** A statement that finds the nodes it matches leaves the graph
    settled for it. *)
Lemma exec_settles s h h' :
  (forall l, keeps l s) ->
  ready s h ->
  exec s h = Ok h' ->
  settled s h'.
Proof.
  intros Hk Hr H.
  pose proof (exec_evolves_all s h h' Hk H) as He.
  destruct s; cbn [exec] in H; cbn [ready] in Hr.
  - inversion H; subst. split; [constructor | intros r []].
  - destruct (to_pval name) as [p |] eqn:Hp; [| discriminate]. injection H as <-.
    split; [| intros r []]. repeat constructor. exists p. split; [exact Hp |].
    apply count_in. apply (merge_grows_same Adviser name p h Hp).
  - split; [| intros r []]. repeat constructor.
    destruct (exec_present_client (UpsertClient name props) h h' name (Hk Client) H eq_refl)
      as (p & Hp & Hc).
    now exists p.
  - destruct Hr as [Ha Hc]. injection H as <-. split.
    + repeat constructor; eapply present_mono; eauto.
    + cbn [links_of]. unfold match_ids.
      destruct (to_pval a_name), (to_pval c_name); rewrite ?find_merge_rels;
        intros r Hr; apply rels_merge_rels_in; exact Hr.
  - destruct Hr as (pc & Hpc & Hc). cbn [fst snd] in *.
    unfold match_ids in H. rewrite Hpc in H.
    destruct (upsert_linked_settles Dependant PARENT_OF _ id props h h' pc
                ltac:(discriminate) eq_refl (Hk Dependant eq_refl) (fun pm => eq_refl) Hc H)
      as (p & Hp & Hcl & Hcc & Hl).
    split.
    + repeat constructor; [now exists pc | now exists p].
    + cbn [links_of]. unfold match_ids. now rewrite Hpc, Hp.
  - destruct Hr as (pc & Hpc & Hc). cbn [fst snd] in *.
    unfold match_ids in H. rewrite Hpc in H.
    destruct (upsert_linked_settles Property OWNS _ id props h h' pc
                ltac:(discriminate) eq_refl (Hk Property eq_refl) (fun pm => eq_refl) Hc H)
      as (p & Hp & Hcl & Hcc & Hl).
    split.
    + repeat constructor; [now exists pc | now exists p].
    + cbn [links_of]. unfold match_ids. now rewrite Hpc, Hp.
  - destruct (to_pval owner) as [po |] eqn:Hpo; [| discriminate].
    assert (Hc : 1 <= count Client po (merge_node Client "name" po h)).
    { apply count_in. apply (merge_grows_same Client owner po h Hpo). }
    destruct (upsert_linked_settles Pension HAS_ACCOUNT _ id props _ h' po
                ltac:(discriminate) eq_refl (Hk Pension eq_refl) (fun pm => eq_refl) Hc H)
      as (p & Hp & Hcl & Hcc & Hl).
    split.
    + repeat constructor; [now exists po | now exists p].
    + cbn [links_of]. unfold match_ids. now rewrite Hpo, Hp.
  - destruct (to_pval owner) as [po |] eqn:Hpo; [| discriminate].
    assert (Hc : 1 <= count Client po (merge_node Client "name" po h)).
    { apply count_in. apply (merge_grows_same Client owner po h Hpo). }
    destruct (upsert_linked_settles Investment HAS_ACCOUNT _ id props _ h' po
                ltac:(discriminate) eq_refl (Hk Investment eq_refl) (fun pm => eq_refl) Hc H)
      as (p & Hp & Hcl & Hcc & Hl).
    split.
    + repeat constructor; [now exists po | now exists p].
    + cbn [links_of]. unfold match_ids. now rewrite Hpo, Hp.
  - destruct Hr as (pc & Hpc & Hc). cbn [fst snd] in *.
    unfold match_ids in H. rewrite Hpc in H.
    destruct (upsert_linked_settles Goal HAS_GOAL _ id props h h' pc
                ltac:(discriminate) eq_refl (Hk Goal eq_refl)
                (fun pm => lookup_dict_set_other "type" "id" _ pm ltac:(discriminate)) Hc H)
      as (p & Hp & Hcl & Hcc & Hl).
    split.
    + repeat constructor; [now exists pc | now exists p].
    + cbn [links_of]. unfold match_ids. now rewrite Hpc, Hp.
Qed.

(** No node is added when, for every label, the nodes added carry no
    key. *)
Lemma no_keyless_extra g g' :
  (forall l, exists extra, column l g' = column l g ++ extra /\ keys_of extra = []) ->
  forall l, column l g' = column l g.
Proof.
  intros H.
  assert (Hlen : List.length (nodes g') = List.length (nodes g)).
  { destruct (nth_error (nodes g') (List.length (nodes g))) as [n |] eqn:E.
    - exfalso. destruct (H (n_label n)) as (extra & Ec & Hk).
      assert (E' : nth_error (column (n_label n) g') (List.length (nodes g)) =
                   Some (cell (n_label n) n)).
      { unfold column. now apply map_nth_error. }
      rewrite Ec, nth_error_app2 in E' by (unfold column; rewrite length_map; lia).
      unfold column in E' at 1. rewrite length_map, Nat.sub_diag in E'.
      unfold cell in E'. rewrite label_eqb_refl in E'.
      destruct extra as [| e extra]; [discriminate E' |].
      cbn in E'. injection E' as ->. discriminate Hk.
    - apply nth_error_None in E. destruct (H Client) as (extra & Ec & _).
      apply (f_equal (@List.length _)) in Ec. unfold column in Ec.
      rewrite length_app, !length_map in Ec. lia. }
  intros l. destruct (H l) as (extra & Ec & _).
  assert (El : List.length extra = 0).
  { apply (f_equal (@List.length _)) in Ec. unfold column in Ec.
    rewrite length_app, !length_map in Ec. lia. }
  destruct extra; [now rewrite app_nil_r in Ec | discriminate El].
Qed.

Lemma exec_no_new_node s g g' :
  (forall l, keeps l s) ->
  Forall (present g) (touches s) ->
  exec s g = Ok g' ->
  forall l, column l g' = column l g.
Proof.
  intros Hk Hp H. apply no_keyless_extra. intros l.
  destruct (exec_grows l s g g' (Hk l) H) as (extra & Ec & Hex).
  exists extra. split; [exact Ec |].
  destruct Hex as [Hex | (y & p & Hy & Hyp & _ & Hn)]; [exact Hex |].
  exfalso. apply Hn. rewrite Forall_forall in Hp.
  destruct (Hp (l, y) (merged_touches s l y Hy)) as (q & Hq & Hc). cbn [fst snd] in *.
  assert (q = p) by congruence. subst q. now apply count_in.
Qed.

Lemma present_in g l x :
  Forall (present g) [(l, x)] -> exists p, to_pval x = Some p /\ 1 <= count l p g.
Proof. intros H. inversion H as [| ? ? Hx _]; subst. exact Hx. Qed.

(** On a graph settled for it a statement adds no node and no
    relationship. *)
Lemma exec_again s g g' :
  (forall l, keeps l s) ->
  settled s g ->
  exec s g = Ok g' ->
  same_shape g g'.
Proof.
  intros Hk [Hp Hl] H. split; [now apply (exec_no_new_node s) |].
  destruct s; cbn [exec] in H; cbn [links_of touches] in *.
  - now inversion H; subst.
  - destruct (to_pval name); [| discriminate]. injection H as <-. apply rels_merge_node.
  - destruct (to_pval name); [| discriminate].
    destruct (props_param props); [| discriminate]. injection H as <-.
    unfold set_where. cbn [rels]. apply rels_merge_node.
  - injection H as <-. now rewrite merge_rels_incl.
  - inversion Hp as [| ? ? (pc & Hpc & Hc) Hp']; subst.
    inversion Hp' as [| ? ? (p & Hpi & Hci) _]; subst. cbn [fst snd] in *.
    unfold match_ids in *. rewrite Hpc in *. rewrite Hpi in Hl.
    rewrite (upsert_linked_again Dependant PARENT_OF _ id props g g' pc p eq_refl Hpi Hci H).
    now rewrite merge_rels_incl.
  - inversion Hp as [| ? ? (pc & Hpc & Hc) Hp']; subst.
    inversion Hp' as [| ? ? (p & Hpi & Hci) _]; subst. cbn [fst snd] in *.
    unfold match_ids in *. rewrite Hpc in *. rewrite Hpi in Hl.
    rewrite (upsert_linked_again Property OWNS _ id props g g' pc p eq_refl Hpi Hci H).
    now rewrite merge_rels_incl.
  - inversion Hp as [| ? ? (pc & Hpc & Hc) Hp']; subst.
    inversion Hp' as [| ? ? (p & Hpi & Hci) _]; subst. cbn [fst snd] in *.
    unfold match_ids in *. rewrite Hpc in *. rewrite Hpi in Hl.
    assert (Em : merge_node Client "name" pc g = g)
      by apply (merge_node_present Client pc g Hc).
    rewrite Em in H.
    rewrite (upsert_linked_again Pension HAS_ACCOUNT _ id props g g' pc p eq_refl Hpi Hci H).
    now rewrite merge_rels_incl.
  - inversion Hp as [| ? ? (pc & Hpc & Hc) Hp']; subst.
    inversion Hp' as [| ? ? (p & Hpi & Hci) _]; subst. cbn [fst snd] in *.
    unfold match_ids in *. rewrite Hpc in *. rewrite Hpi in Hl.
    assert (Em : merge_node Client "name" pc g = g)
      by apply (merge_node_present Client pc g Hc).
    rewrite Em in H.
    rewrite (upsert_linked_again Investment HAS_ACCOUNT _ id props g g' pc p eq_refl Hpi Hci H).
    now rewrite merge_rels_incl.
  - inversion Hp as [| ? ? (pc & Hpc & Hc) Hp']; subst.
    inversion Hp' as [| ? ? (p & Hpi & Hci) _]; subst. cbn [fst snd] in *.
    unfold match_ids in *. rewrite Hpc in *. rewrite Hpi in Hl.
    rewrite (upsert_linked_again Goal HAS_GOAL _ id props g g' pc p eq_refl Hpi Hci H).
    now rewrite merge_rels_incl.
Qed.

(** *** A run of statements, the first time and again *)

Lemma prepared_mono seen seen' s : incl seen seen' -> prepared seen s -> prepared seen' s.
Proof.
  intros Hi. destruct s; cbn; auto.
  - intros [Ha (m & Hm)]. split; [now apply Hi | exists m; now apply Hi].
  - intros (m & Hm). exists m. now apply Hi.
  - intros (m & Hm). exists m. now apply Hi.
  - intros (m & Hm). exists m. now apply Hi.
Qed.

Lemma ordered_from_app l1 : forall seen l2,
  ordered_from seen l1 -> ordered_from (seen ++ l1) l2 -> ordered_from seen (l1 ++ l2).
Proof.
  induction l1 as [| s l1 IH]; intros seen l2 H1 H2; cbn [app ordered_from] in *.
  - now rewrite app_nil_r in H2.
  - destruct H1 as [Hs H1]. split; [exact Hs |]. apply IH; [exact H1 |].
    now rewrite <- app_assoc.
Qed.

Lemma ordered_of_prepared l : forall seen, Forall (prepared seen) l -> ordered_from seen l.
Proof.
  induction l as [| s l IH]; intros seen H; cbn [ordered_from]; [exact I |].
  inversion H as [| ? ? Hs Hl]; subst. split; [exact Hs |]. apply IH.
  eapply Forall_impl; [| exact Hl]. intros s0. apply prepared_mono.
  intros x Hx. apply in_or_app. now left.
Qed.

Lemma clients_part_ordered doc primary adviser cs : forall seen,
  (truthy adviser = true -> In (MergeAdviser adviser) seen) ->
  ordered_from seen (clients_part doc primary adviser cs).
Proof.
  unfold clients_part. induction cs as [| c cs IH]; intros seen Ha; cbn [flat_map]; [exact I |].
  destruct c as [| | | | | items]; try (cbn [upsert_client lift py_items bind fst app]; now apply IH).
  rewrite upsert_client_script. cbn [fst].
  destruct (truthy adviser) eqn:Et; cbn [app ordered_from].
  - split; [exact I |]. split.
    + split; [apply in_or_app; left; now apply Ha |].
      eexists. apply in_or_app. right. now left.
    + apply IH. intros _. apply in_or_app. left. apply in_or_app. left. now apply Ha.
  - split; [exact I |]. apply IH. intros E. discriminate E.
Qed.

Lemma accounts_part_prepared mk kind primary items seen :
  (forall o id m, prepared seen (mk o id m)) ->
  Forall (prepared seen) (accounts_part mk kind primary items).
Proof.
  intros H. unfold accounts_part. apply Forall_flat_map, Forall_forall. intros item _.
  unfold upsert_account. destruct (py_get (snd item) "owner" primary); cbn; repeat constructor.
  apply H.
Qed.

(** The statements of a call come in an order in which every statement
    that matches a node follows the statement that merges it. *)
Lemma script_ordered doc first adviser cs deps props pens invs retirement pp :
  to_pval (primary_name doc first) = Some pp ->
  In (JDict first) cs ->
  let primary := primary_name doc first in
  ordered_from []
    (adviser_part adviser ++ clients_part doc primary adviser cs ++
     dependants_part primary deps ++ properties_part primary props ++
     accounts_part UpsertPension "pen" primary pens ++
     accounts_part UpsertInvestment "inv" primary invs ++
     goal_part primary retirement).
Proof.
  intros Hpp Hin primary.
  assert (Hm : exists m, In (UpsertClient primary m) (clients_part doc primary adviser cs)).
  { eexists. pose proof (in_clients_part doc primary adviser cs first Hin) as H.
    change (props_name (client_props doc primary first))
      with (client_name doc first first) in H.
    rewrite (first_client_name doc first pp Hpp) in H. exact H. }
  destruct Hm as [m0 Hm].
  apply ordered_from_app.
  { apply ordered_of_prepared. unfold adviser_part.
    destruct (truthy adviser); repeat constructor. }
  apply ordered_from_app.
  { apply clients_part_ordered. intros Ht. unfold adviser_part. rewrite Ht. now left. }
  apply ordered_from_app.
  { apply ordered_of_prepared. unfold dependants_part. apply Forall_map, Forall_forall.
    intros item _. cbn [prepared]. exists m0.
    repeat (apply in_or_app; first [right; exact Hm | left]). }
  apply ordered_from_app.
  { apply ordered_of_prepared. unfold properties_part. apply Forall_map, Forall_forall.
    intros item _. cbn [prepared]. exists m0.
    repeat (apply in_or_app; first [right; exact Hm | left]). }
  apply ordered_from_app.
  { apply ordered_of_prepared. apply accounts_part_prepared. intros; exact I. }
  apply ordered_from_app.
  { apply ordered_of_prepared. apply accounts_part_prepared. intros; exact I. }
  apply ordered_of_prepared. unfold goal_part.
  destruct (truthy retirement); repeat constructor.
  cbn [prepared]. exists m0.
  repeat (apply in_or_app; first [right; exact Hm | left]).
Qed.

Lemma prepared_ready seen s g :
  (forall s0, In s0 seen -> settled s0 g) -> prepared seen s -> ready s g.
Proof.
  intros Hs.
  assert (Hc : forall c, (exists m, In (UpsertClient c m) seen) -> present g (Client, c)).
  { intros c (m & Hm). destruct (Hs _ Hm) as [Hp _]. cbn [touches] in Hp.
    now inversion Hp. }
  destruct s; cbn; auto.
  intros [Ha Hm]. split; [| now apply Hc].
  destruct (Hs _ Ha) as [Hp _]. cbn [touches] in Hp. now inversion Hp.
Qed.

(** After a run that returns normally the graph is settled for every
    statement of the run. *)
Lemma run_settles ss : forall seen h h',
  (forall s, In s seen -> settled s (db h)) ->
  ordered_from seen ss ->
  Forall (fun s => forall l, keeps l s) ss ->
  exec_all ss h = (h', Ok tt) ->
  forall s, In s (seen ++ ss) -> settled s (db h').
Proof.
  induction ss as [| s ss IH]; intros seen h h' Hseen Ho Hk H.
  - cbn in H. injection H as <-. rewrite app_nil_r. exact Hseen.
  - cbn [ordered_from] in Ho. destruct Ho as [Hp Ho].
    inversion Hk as [| ? ? Hks Hkss]; subst.
    cbn [exec_all] in H.
    destruct (run_stmt s h) as [h1 [[] | e]] eqn:E; [| discriminate].
    apply run_stmt_ok in E.
    intros s0 Hin.
    replace (seen ++ s :: ss) with ((seen ++ [s]) ++ ss) in Hin
      by (rewrite <- app_assoc; reflexivity).
    apply (IH (seen ++ [s]) h1 h'); auto.
    intros s1 H1. apply in_app_or in H1 as [H1 | [<- | []]].
    + apply (settled_mono s1 (db h)).
      * now apply (exec_evolves_all s).
      * intros r. now apply (exec_rels_mono s).
      * now apply Hseen.
    + apply (exec_settles s (db h)); auto. now apply (prepared_ready seen).
Qed.

(** On a graph settled for all of them, the statements of a run add no
    node and no relationship, however the run ends. *)
Lemma run_again ss st st' r :
  Forall (fun s => forall l, keeps l s) ss ->
  (forall s, In s ss -> settled s (db st)) ->
  exec_all ss st = (st', r) ->
  same_shape (db st) (db st').
Proof.
  intros Hk Hs H.
  assert (HQ : Forall (fun s => In s ss /\ forall l, keeps l s) ss).
  { rewrite Forall_forall in *. auto. }
  apply (exec_all_rel
           (fun g g' => (forall s, In s ss -> settled s g) -> same_shape g g')
           (fun s => In s ss /\ forall l, keeps l s) ss) with (st := st) (st' := st') (r := r);
    auto.
  - intros g _. apply same_shape_refl.
  - intros g1 g2 g3 H1 H2 Hg. specialize (H1 Hg).
    apply (same_shape_trans g1 g2 g3 H1). apply H2.
    intros s Hin. apply (settled_same s g1 g2 H1). now apply Hg.
  - intros s g g' [Hin Hks] Hx Hg. apply (exec_again s); auto.
Qed.

Lemma keeps_everywhere ss :
  (forall l, Forall (keeps l) ss) -> Forall (fun s => forall l, keeps l s) ss.
Proof.
  intros H. apply Forall_forall. intros s Hs l.
  specialize (H l). rewrite Forall_forall in H. now apply H.
Qed.

(** X16: upserting the same record a second time adds nothing.  For a
    record with clients whose primary client name the store can hold and
    whose dependants, properties, pensions, investments and retirement
    goal carry no [id] of their own: once a call has returned normally, a
    second call with the same arguments, however it ends, leaves the
    graph with the same nodes under the same labels and keys and with the
    same relationships. *)
Theorem second_run_adds_nothing
    (d : list (string * json)) (document_name : string)
    (first : list (string * json)) (rest : list json) (pp : pval)
    (st st1 st2 : store) (r : result unit) :
  lookup "clients" d = Some (JList (JDict first :: rest)) ->
  to_pval (primary_name document_name first) = Some pp ->
  Forall lacks_id (linked_entries d) ->
  build (JDict d) document_name st = (st1, Ok tt) ->
  build (JDict d) document_name st1 = (st2, r) ->
  map n_label (nodes (db st2)) = map n_label (nodes (db st1)) /\
  (forall l, table l (db st2) = table l (db st1)) /\
  rels (db st2) = rels (db st1).
Proof.
  intros Hc Hpp Hno B1 B2.
  apply build_ok in B1 as (ss & Hs & He1).
  assert (He2 : exists r', exec_all ss st1 = (st2, r')).
  { unfold build, run_session in B2. rewrite Hs in B2. cbn [fst snd] in B2.
    destruct (exec_all ss st1) as [st2' [[] | e]]; injection B2 as <- _; eauto. }
  destruct He2 as [r' He2].
  destruct (build_ok_inv d document_name ss first rest Hc Hs)
    as (deps & props & pens & invs & assets & goals & _ & Ed & Ea & Ep & Epn & Eiv & Eg & E).
  (* no entry re-keys its node *)
  unfold linked_entries, elements, sub in Hno.
  rewrite Ed, Ea, Eg, !py_get_dict, Ep, Epn, Eiv in Hno.
  apply Forall_app in Hno as [Hd Hno]. apply Forall_app in Hno as [Hp Hno].
  apply Forall_app in Hno as [Hpn Hno]. apply Forall_app in Hno as [Hiv Hg].
  apply Forall_inv in Hg.
  assert (Hk : Forall (fun s => forall l, keeps l s) ss).
  { apply keeps_everywhere. intros l. rewrite E. apply script_keeps; auto. }
  (* the first call settles the graph *)
  assert (Hset : forall s, In s ss -> settled s (db st1)).
  { apply (run_settles ss [] st st1); auto.
    - intros s [].
    - rewrite E. apply (script_ordered document_name first _ _ _ _ _ _ _ pp Hpp). now left. }
  destruct (run_again ss st1 st2 r' Hk Hset He2) as [Hcol Hrel].
  split; [| split; [| exact Hrel]].
  - destruct (exec_all_preserves ss st1 st2 r' He2) as [[extra Hl] _].
    assert (El : List.length extra = 0).
    { pose proof (f_equal (@List.length _) Hl) as H1.
      pose proof (f_equal (@List.length _) (Hcol Client)) as H2.
      unfold column in H2. rewrite length_app in H1. rewrite !length_map in *. lia. }
    destruct extra; [now rewrite app_nil_r in Hl | discriminate El].
  - intros l. unfold table. now rewrite Hcol.
Qed.

End Builder.

(** ** Worked examples *)

(** The end-to-end scenario: one client and an adviser give one Adviser
    node, one Client node, one ADVISES relationship and nothing else. *)
Example one_client_one_adviser :
  db (fst (build no_repr
             (JDict [("clients", JList [JDict [("name", JStr "A B")]]);
                     ("adviser", JStr "C D")])
             "doc" fresh)) =
  mkGraph
    [mkNode Adviser [("name", PS (SStr "C D"))];
     mkNode Client [("name", PS (SStr "A B")); ("source_document", PS (SStr "doc"))]]
    [mkRel 0 ADVISES 1].
Proof. reflexivity. Qed.

(** *** C1 *)

Lemma no_clients_only_adviser_example :
  build_graph_from_entities no_repr
    (JDict [("adviser", JStr "C D"); ("clients", JList [])]) "report" =
  ([MergeAdviser (JStr "C D")], Ok tt).
Proof.
  exact (proj1 (no_clients_only_adviser no_repr
                  [("adviser", JStr "C D"); ("clients", JList [])] "report" eq_refl)).
Defined.

(** C1, as stated, fails: a record with an adviser and no clients still
    has its Adviser merged, and the store changes. *)
Lemma adviser_written_without_clients :
  lookup "clients" [("adviser", JStr "C D")] = None /\
  fst (build_graph_from_entities no_repr (JDict [("adviser", JStr "C D")]) "report") =
    [MergeAdviser (JStr "C D")] /\
  db (fst (build no_repr (JDict [("adviser", JStr "C D")]) "report" fresh)) =
    mkGraph [mkNode Adviser [("name", PS (SStr "C D"))]] [] /\
  nodes empty_graph = [].
Proof. repeat split. Qed.

(** *** C2 *)


(** *** C3 *)

(** The review gives Jane Doe's age as 42 where the report had 41. *)
Lemma second_document_overwrites_same_client_example :
  exists i n,
    find Client "name" (PS (SStr "Jane Doe"))
      (db (fst (build no_repr (JDict family) "report" fresh))) = [i] /\
    find Client "name" (PS (SStr "Jane Doe"))
      (db (fst (build no_repr (JDict review) "review"
                  (fst (build no_repr (JDict family) "report" fresh))))) = [i] /\
    nth_error
      (nodes (db (fst (build no_repr (JDict review) "review"
                         (fst (build no_repr (JDict family) "report" fresh)))))) i =
      Some n /\
    n_label n = Client /\
    lookup "name" (n_props n) = Some (PS (SStr "Jane Doe")) /\
    lookup "source_document" (n_props n) = Some (PS (SStr "review")) /\
    lookup "age" (n_props n) = Some (PS (SInt 42)).
Proof.
  assert (E1 : build no_repr (JDict family) "report" fresh =
               (fst (build no_repr (JDict family) "report" fresh), Ok tt))
    by (vm_compute; reflexivity).
  assert (E2 : build no_repr (JDict review) "review"
                 (fst (build no_repr (JDict family) "report" fresh)) =
               (fst (build no_repr (JDict review) "review"
                       (fst (build no_repr (JDict family) "report" fresh))), Ok tt))
    by (vm_compute; reflexivity).
  destruct (second_document_overwrites_same_client no_repr family review "report" "review"
              jane [("name", JStr "Jane Doe"); ("age", JNum 42)] [JDict john] []
              jane [("name", JStr "Jane Doe"); ("age", JNum 42)] "Jane Doe" fresh _ _
              eq_refl (or_introl eq_refl) eq_refl eq_refl (or_introl eq_refl) eq_refl
              (Nat.le_0_l 1) E1 E2)
    as (i & n & H1 & H2 & H3 & H4 & H5 & H6 & H7).
  exists i, n. repeat (split; [assumption |]).
  apply (H7 "age" (JNum 42)); try reflexivity; [discriminate |].
  intros items' v' [Hi | []] _ Hin _. injection Hi as <-.
  destruct Hin as [Hin | [Hin | []]]; [discriminate | now injection Hin as <-].
Defined.

(** *** C4 *)

Lemma lacks_id_example (d : list (string * json)) :
  lookup "id" d = None -> lacks_id (JDict d).
Proof. intros H d' E. injection E as <-. exact H. Qed.



(** *** C5 *)

Lemma nameless_client_gets_primary_name_example :
  exists props,
    In (UpsertClient (JStr "John Doe") (JDict props))
       (fst (build_graph_from_entities no_repr (JDict nameless_second) "report")) /\
    lookup "source_document" props = Some (JStr "report") /\
    lookup "name" props = Some (JStr "John Doe").
Proof.
  destruct (nameless_client_gets_primary_name no_repr nameless_second "report" john
              [JDict [("age", JNum 40)]] [("age", JNum 40)] eq_refl eq_refl
              (or_intror (or_introl eq_refl)))
    as (props & H1 & H2 & H3 & _).
  - intros v [H | []]. discriminate H.
  - exists props. auto.
Defined.

(** C5, as stated, fails: the nameless second client is upserted under
    the first client's name, not under a name made from the document. *)
Lemma nameless_client_takes_first_name :
  fst (build_graph_from_entities no_repr (JDict nameless_second) "report") =
    [UpsertClient (JStr "John Doe")
       (JDict [("name", JStr "John Doe"); ("source_document", JStr "report")]);
     UpsertClient (JStr "John Doe")
       (JDict [("age", JNum 40); ("source_document", JStr "report");
               ("name", JStr "John Doe")])].
Proof. reflexivity. Qed.

(** *** C6 *)

(** C6, as stated, fails: on a standard output that cannot encode the
    marks, the first file cannot be read, the line that reports the empty
    text is refused inside the [try] block, the line of the handler is
    refused in its turn, and the error leaves [process_all_documents]
    before the second file is looked at. *)
Lemma refused_handler_line_aborts_batch :
  process_all_documents no_repr two_texts extraction ascii [unreadable; readable]
    (mkWorld fresh []) =
  (mkWorld fresh
     [Found 2; UsingModel; RateLimiting 30; Processing 1 2 unreadable;
      ReadError "docs/a.docx" (OtherError "PackageNotFoundError")],
   Raise (OtherError "UnicodeEncodeError")).
Proof. reflexivity. Qed.

(** When only the lines inside the block are refused, both files end as
    failures and the batch returns. *)
Lemma batch_survives_every_failure_example :
  exists w' successful failed evs,
    process_all_documents no_repr two_texts extraction picky [unreadable; readable]
      (mkWorld fresh []) = (w', Ok (successful, failed)) /\
    successful + failed = 2 /\
    log w' = evs /\
    started evs = [unreadable; readable].
Proof.
  apply (batch_survives_every_failure no_repr two_texts extraction picky
           [unreadable; readable] (mkWorld fresh [])).
  intros lg e He. destruct e; first [reflexivity | discriminate He].
Defined.

Example picky_batch :
  process_all_documents no_repr two_texts extraction picky [unreadable; readable]
    (mkWorld fresh []) =
  (mkWorld fresh
     [Found 2; UsingModel; RateLimiting 30;
      Processing 1 2 unreadable;
      ReadError "docs/a.docx" (OtherError "PackageNotFoundError");
      CriticalError (OtherError "UnicodeEncodeError"); Sleeping 30; Sleep 30;
      Processing 2 2 readable;
      CriticalError (OtherError "UnicodeEncodeError");
      Rule; Complete 0 2; Rule],
   Ok (0, 2)).
Proof. reflexivity. Qed.

(** *** C7, C8 *)

Lemma missing_api_key_aborts_example :
  main no_repr two_texts extraction utf8 lazy_driver any_key closes
    (mkEnv None None None (Some "secret")) (Some [unreadable; readable])
    (mkWorld fresh []) =
  (mkWorld fresh [MissingApiKey], Ok tt).
Proof.
  exact (proj1 (proj2 (proj2
           (missing_api_key_aborts no_repr two_texts extraction utf8 lazy_driver any_key
              closes (mkEnv None None None (Some "secret")) (Some [unreadable; readable])
              (mkWorld fresh []) eq_refl))) eq_refl).
Defined.

(** C7, as stated, fails for the password: with the key set and no
    password, on a store that refuses every statement, the file is still
    read, sent to extraction and counted as failed. *)
Lemma missing_password_still_processes :
  main no_repr two_texts extraction utf8 lazy_driver any_key closes
    (mkEnv (Some "key") None None None) (Some [readable])
    (mkWorld (mkStore empty_graph [0; 0; 0; 0; 0; 0; 0]) []) =
  (mkWorld fresh
     [Found 1; UsingModel; RateLimiting 30;
      Processing 1 1 readable; TextLength 17; Extracting;
      CriticalError (OtherError "ServiceUnavailable");
      Rule; Complete 0 1; Rule; Closed],
   Ok tt).
Proof. reflexivity. Qed.

Lemma delay_between_documents_example :
  exists w' counts evs,
    process_all_documents no_repr two_texts extraction utf8
      [readable; unreadable; readable] (mkWorld fresh []) = (w', Ok counts) /\
    log w' = evs /\
    pace evs =
    [Processing 1 3 readable; Sleep 30; Processing 2 3 unreadable;
     Processing 3 3 readable].
Proof.
  exact (delay_between_documents no_repr two_texts extraction utf8
           [readable; unreadable; readable] (mkWorld fresh []) (fun _ _ => eq_refl)).
Defined.

(** C8, as stated, fails: after the first file, whose text is empty, the
    loop goes to the second one without sleeping. *)
Lemma no_delay_after_empty_document :
  log (fst (process_all_documents no_repr two_texts extraction utf8 [unreadable; readable]
              (mkWorld fresh []))) =
  [Found 2; UsingModel; RateLimiting 30;
   Processing 1 2 unreadable;
   ReadError "docs/a.docx" (OtherError "PackageNotFoundError"); EmptyDocument;
   Processing 2 2 readable; TextLength 17; Extracting; GraphUpdated;
   Rule; Complete 1 1; Rule].
Proof. reflexivity. Qed.

(** *** C10 *)

Lemma nonempty_record_counts_as_success_example :
  iteration no_repr two_texts letter utf8 1 1 readable (0, 0) (mkWorld fresh []) =
  (mkWorld fresh [Processing 1 1 readable; TextLength 17; Extracting; GraphUpdated],
   Ok (1, 0)).
Proof.
  refine (proj2 (proj2 (nonempty_record_counts_as_success no_repr two_texts letter utf8
                          1 1 readable (0, 0) (mkWorld fresh [])) (fun _ _ => eq_refl))
                [("document_type", JStr "letter")] _ eq_refl _ eq_refl eq_refl);
    discriminate.
Defined.

(** A line refused inside the block turns a document that was written
    to the store into a failure. *)
Example refused_line_counts_as_failure :
  iteration no_repr two_texts extraction picky 1 1 readable (0, 0) (mkWorld fresh []) =
  (mkWorld fresh [Processing 1 1 readable; CriticalError (OtherError "UnicodeEncodeError")],
   Ok (0, 1)).
Proof. reflexivity. Qed.

(** *** C9 *)

Lemma unlisted_account_owner_becomes_client_example :
  exists i,
    find Client "name" (PS (SStr "Zed Roe"))
      (db (fst (build no_repr (JDict family) "report" fresh))) = [i] /\
    nth_error (nodes (db (fst (build no_repr (JDict family) "report" fresh)))) i =
      Some (mkNode Client [("name", PS (SStr "Zed Roe"))]).
Proof.
  apply (unlisted_account_owner_becomes_client no_repr family "report" jane [JDict john]
           family_assets [JDict zed_pension] zed_pension "Zed Roe" fresh
           (fst (build no_repr (JDict family) "report" fresh))).
  - reflexivity.
  - reflexivity.
  - left. reflexivity.
  - now left.
  - reflexivity.
  - intros items [H | [H | []]]; injection H as <-; discriminate.
  - reflexivity.
  - vm_compute. reflexivity.
Defined.

(** C9, as stated, fails twice over.  A record with such a pension and no
    client returns before the account loops: the call writes the adviser
    and no Client node.  And an owner the store already holds as a Client
    is matched by the merge, not created: the node keeps the
    [source_document] an earlier document gave it. *)
Lemma account_owner_not_always_a_new_client :
  build no_repr (JDict orphan) "report" fresh =
    (mkStore (mkGraph [mkNode Adviser [("name", PS (SStr "C D"))]] []) [], Ok tt) /\
  snd (build no_repr (JDict family) "report" zed_stored) = Ok tt /\
  find Client "name" (PS (SStr "Zed Roe"))
    (db (fst (build no_repr (JDict family) "report" zed_stored))) = [0] /\
  nth_error (nodes (db (fst (build no_repr (JDict family) "report" zed_stored)))) 0 =
    Some (mkNode Client [("name", PS (SStr "Zed Roe"));
                         ("source_document", PS (SStr "letter"))]).
Proof. repeat split. Qed.

(** *** Records the engine cannot use *)

Lemma non_object_record_no_write_example :
  build_graph_from_entities no_repr (JList [JStr "Jane Doe"]) "report" =
    ([], Raise AttributeError) /\
  fst (build no_repr (JList [JStr "Jane Doe"]) "report" fresh) = fresh.
Proof.
  destruct (non_object_record_no_write no_repr (JList [JStr "Jane Doe"]) "report" eq_refl)
    as [H1 H2].
  split; [exact H1 | exact (H2 fresh)].
Defined.

Lemma malformed_clients_raise_example :
  exists e,
    build_graph_from_entities no_repr
      (JDict [("adviser", JStr "C D"); ("clients", JStr "Jane Doe")]) "report" =
    ([MergeAdviser (JStr "C D")], Raise e).
Proof.
  exact (malformed_clients_raise no_repr
           [("adviser", JStr "C D"); ("clients", JStr "Jane Doe")] "report"
           eq_refl eq_refl).
Defined.

Lemma unstorable_adviser_fails_example :
  exists st' e,
    build no_repr (JDict adviser_object) "report" fresh = (st', Raise e) /\
    db st' = empty_graph.
Proof.
  exact (unstorable_adviser_fails no_repr adviser_object "report" fresh eq_refl eq_refl).
Defined.

Lemma unstorable_primary_name_fails_example :
  exists st' e,
    build no_repr (JDict nameless_first) "report" fresh = (st', Raise e) /\
    (db st' = empty_graph \/
     exists p, Some (PS (SStr "C D")) = Some p /\
               db st' = merge_node Adviser "name" p empty_graph).
Proof.
  exact (unstorable_primary_name_fails no_repr nameless_first "report"
           [("name", JNull); ("age", JNum 40)] [] fresh eq_refl eq_refl).
Defined.

(** *** A record of the schema's shape *)

Lemma schema_shaped_record_script_example :
  snd (build_graph_from_entities no_repr (JDict family) "report") = Ok tt /\
  List.length (fst (build_graph_from_entities no_repr (JDict family) "report")) = 13.
Proof.
  pose proof (schema_shaped_record_script no_repr family "report" jane [JDict john]
                [JDict [("name", JStr "Kid A")]; JDict [("name", JStr "Kid B")]]
                [JDict [("type", JStr "home")]; JDict [("type", JStr "flat")];
                 JDict [("type", JStr "land")]]
                [JDict zed_pension] [JDict [("type", JStr "ISA")]]
                family_assets [("retirement", JDict [("target_age", JNum 60)])]
                eq_refl eq_refl eq_refl eq_refl eq_refl eq_refl eq_refl eq_refl eq_refl
                eq_refl) as H.
  cbv zeta in H. destruct H as [H1 H2].
  split; [rewrite H1; reflexivity | exact H2].
Defined.

(** *** The batch and the entry point *)

Lemma failed_document_leaves_store_example :
  exists evs,
    iteration no_repr two_texts extraction utf8 2 1 unreadable (0, 0) (mkWorld fresh []) =
      (mkWorld fresh evs, Ok (0, 1)) /\
    updated evs = 0.
Proof.
  exact (proj2 (failed_document_leaves_store no_repr two_texts extraction utf8 2 1
                  unreadable (0, 0) (mkWorld fresh []) (or_introl eq_refl))
               (fun _ _ => eq_refl)).
Defined.

Lemma summary_matches_log_example :
  exists w' successful failed evs,
    process_all_documents no_repr two_texts extraction utf8 [unreadable; readable]
      (mkWorld fresh []) = (w', Ok (successful, failed)) /\
    log w' = [Found 2; UsingModel; RateLimiting 30] ++
             evs ++ [Rule; Complete successful failed; Rule] /\
    updated evs = successful /\
    not_updated evs = failed /\
    ([unreadable; readable] = [] -> evs = [] /\ successful = 0 /\ failed = 0).
Proof.
  exact (summary_matches_log no_repr two_texts extraction utf8 [unreadable; readable]
           (mkWorld fresh []) (fun _ _ => eq_refl)).
Defined.

(** With no file the header and the summary are all the batch prints. *)
Example empty_batch :
  process_all_documents no_repr two_texts extraction utf8 [] (mkWorld fresh []) =
  (mkWorld fresh [Found 0; UsingModel; RateLimiting 30; Rule; Complete 0 0; Rule],
   Ok (0, 0)).
Proof. reflexivity. Qed.

(** A client that cannot be built leaves the driver open. *)
Lemma main_closes_the_driver_example :
  main no_repr two_texts extraction utf8 lazy_driver no_client closes
    (mkEnv (Some "key") None None (Some "secret")) (Some [unreadable; readable])
    (mkWorld fresh []) =
  (mkWorld fresh [], Raise (OtherError "GroqError")).
Proof.
  exact (main_closes_the_driver no_repr two_texts extraction utf8 lazy_driver no_client
           closes (mkEnv (Some "key") None None (Some "secret"))
           (Some [unreadable; readable]) (mkWorld fresh []) eq_refl).
Defined.

(** The driver is closed when the batch raises. *)
Example driver_closed_after_error :
  main no_repr two_texts extraction ascii lazy_driver any_key closes
    (mkEnv (Some "key") None None None) (Some [unreadable; readable])
    (mkWorld fresh []) =
  (mkWorld fresh
     [Found 2; UsingModel; RateLimiting 30; Processing 1 2 unreadable;
      ReadError "docs/a.docx" (OtherError "PackageNotFoundError"); Closed],
   Raise (OtherError "UnicodeEncodeError")).
Proof. reflexivity. Qed.

Example driver_refuses :
  main no_repr two_texts extraction utf8 failing_driver any_key closes
    (mkEnv (Some "key") None None (Some "secret")) (Some [unreadable; readable])
    (mkWorld fresh []) =
  (mkWorld fresh [], Raise (OtherError "ConfigurationError")).
Proof. reflexivity. Qed.

(** *** Attributes and links *)


Lemma adviser_is_linked_to_every_client_example :
  exists pc a c,
    Some (PS (SStr "John Doe")) = Some pc /\
    In a (find Adviser "name" (PS (SStr "C D"))
            (db (fst (build no_repr (JDict family) "report" fresh)))) /\
    In c (find Client "name" pc (db (fst (build no_repr (JDict family) "report" fresh)))) /\
    In (mkRel a ADVISES c) (rels (db (fst (build no_repr (JDict family) "report" fresh)))).
Proof.
  apply (adviser_is_linked_to_every_client no_repr family "report" jane [JDict john] john
           (PS (SStr "C D")) fresh (fst (build no_repr (JDict family) "report" fresh))
           eq_refl eq_refl eq_refl (or_intror (or_introl eq_refl))).
  vm_compute. reflexivity.
Defined.




(** *** The same record twice *)

Lemma second_run_adds_nothing_example :
  map n_label
    (nodes (db (fst (build no_repr (JDict family) "report"
                       (fst (build no_repr (JDict family) "report" fresh)))))) =
  map n_label (nodes (db (fst (build no_repr (JDict family) "report" fresh)))) /\
  rels (db (fst (build no_repr (JDict family) "report"
                   (fst (build no_repr (JDict family) "report" fresh))))) =
  rels (db (fst (build no_repr (JDict family) "report" fresh))).
Proof.
  assert (Hb : build no_repr (JDict family) "report" fresh =
               (fst (build no_repr (JDict family) "report" fresh), Ok tt))
    by (vm_compute; reflexivity).
  destruct (second_run_adds_nothing no_repr family "report" jane [JDict john]
              (PS (SStr "Jane Doe")) fresh _ _ _ eq_refl eq_refl
              ltac:(repeat constructor; apply lacks_id_example; reflexivity)
              Hb (surjective_pairing _)) as (H1 & _ & H3).
  split; [exact H1 | exact H3].
Defined.
